(** * DialecticSphere: the deformation-and-rasterization pipeline

    A shallow embedding of [shapeDeformer.js] (the mode hierarchy and
    [ShapeDeformer]) and of [renderer.js] ([Renderer]), with the properties
    the specification states about them.

    JavaScript numbers are IEEE-754 doubles.  The code is embedded once,
    generically over an interface [JsArith] (and [JsMath] for the
    trigonometric part of [Math]), and read at two number types:

    - [Ieee.float]: Rocq's primitive binary64 floats, bit-exact for
      [+ - * / sqrt <], so a run of the code can be replayed by evaluation
      ([Math.sin] and [Math.cos] are left to the engine by ECMAScript and
      stay parameters there; the runs replayed here take the engine's
      values at the angles they use);
    - [Exact.xreal]: real numbers extended with the two infinities and NaN,
      with the IEEE rules for the special values and exact (unrounded)
      arithmetic on the finite ones; the algebraic properties are stated
      there. *)

From Stdlib Require Import PrimFloat Uint63 String.
From Stdlib Require Import SpecFloat FloatOps FloatAxioms.
From Stdlib Require Import ZArith List Bool Reals Lra Lia.
From Stdlib Require Import Permutation Sorted.
Import ListNotations.

Set Implicit Arguments.

(* ================================================================= *)
(** ** JavaScript numbers *)

(** The operations of a JavaScript number the pipeline uses. *)
Class JsArith (num : Type) : Type := {
  ofZ : Z -> num;                 (* an integer literal or loop counter *)
  lit_0_1 : num;                  (* the literal [0.1] *)
  add : num -> num -> num;
  sub : num -> num -> num;
  mul : num -> num -> num;
  div : num -> num -> num;
  neg : num -> num;               (* unary minus *)
  lt : num -> num -> bool;        (* [a < b]; false when either is NaN *)
  Math_sqrt : num -> num;
  Math_floor : num -> num;
  Math_max : num -> num -> num
}.

(** [Math.sin], [Math.cos] and [Math.PI]. *)
Class JsMath (num : Type) : Type := {
  Math_sin : num -> num;
  Math_cos : num -> num;
  Math_PI : num
}.

Declare Scope js_scope.
Delimit Scope js_scope with js.
Infix "+" := add : js_scope.
Infix "-" := sub : js_scope.
Infix "*" := mul : js_scope.
Infix "/" := div : js_scope.
Infix "<?" := lt : js_scope.
Notation "- x" := (neg x) : js_scope.

(** *** Exact arithmetic with the IEEE special values *)

Module Exact.

Inductive xreal : Type :=
| Fin (r : R)
| Inf (negative : bool)
| NaN.

Definition Rltb (a b : R) : bool := if Rlt_dec a b then true else false.
Definition Reqb (a b : R) : bool := if Req_dec_T a b then true else false.

(** The infinity of sign [s], flipped when [a] is negative. *)
Definition signedInf (a : R) (s : bool) : xreal := Inf (xorb (Rltb a 0) s).

Definition isFinite (x : xreal) : bool :=
  match x with Fin _ => true | _ => false end.

Definition isNaN (x : xreal) : bool :=
  match x with NaN => true | _ => false end.

Definition xadd (x y : xreal) : xreal :=
  match x, y with
  | NaN, _ | _, NaN => NaN
  | Fin a, Fin b => Fin (a + b)
  | Inf s, Inf t => if Bool.eqb s t then Inf s else NaN
  | Inf s, Fin _ | Fin _, Inf s => Inf s
  end.

Definition xneg (x : xreal) : xreal :=
  match x with
  | Fin a => Fin (- a)
  | Inf s => Inf (negb s)
  | NaN => NaN
  end.

Definition xsub (x y : xreal) : xreal := xadd x (xneg y).

Definition xmul (x y : xreal) : xreal :=
  match x, y with
  | NaN, _ | _, NaN => NaN
  | Fin a, Fin b => Fin (a * b)
  | Fin a, Inf s | Inf s, Fin a => if Reqb a 0 then NaN else signedInf a s
  | Inf s, Inf t => Inf (xorb s t)
  end.

(** There is one zero here: a non-zero finite number divided by zero is
    the infinity of the dividend's sign, and [0 / 0] is NaN. *)
Definition xdiv (x y : xreal) : xreal :=
  match x, y with
  | NaN, _ | _, NaN => NaN
  | Fin a, Fin b =>
      if Reqb b 0 then (if Reqb a 0 then NaN else signedInf a false)
      else Fin (a / b)
  | Fin _, Inf _ => Fin 0
  | Inf s, Fin b => signedInf b s
  | Inf _, Inf _ => NaN
  end.

Definition xlt (x y : xreal) : bool :=
  match x, y with
  | Fin a, Fin b => Rltb a b
  | Inf true, Fin _ | Fin _, Inf false | Inf true, Inf false => true
  | _, _ => false
  end.

Definition xsqrt (x : xreal) : xreal :=
  match x with
  | Fin a => if Rltb a 0 then NaN else Fin (R_sqrt.sqrt a)
  | Inf false => Inf false
  | _ => NaN
  end.

Definition xfloor (x : xreal) : xreal :=
  match x with
  | Fin a => Fin (IZR (Zfloor a))
  | _ => x
  end.

Definition xmax (x y : xreal) : xreal :=
  match x, y with
  | NaN, _ | _, NaN => NaN
  | Fin a, Fin b => Fin (Rmax a b)
  | Inf false, _ | _, Inf false => Inf false
  | Inf true, z | z, Inf true => z
  end.

Definition xsin (x : xreal) : xreal :=
  match x with Fin a => Fin (sin a) | _ => NaN end.

Definition xcos (x : xreal) : xreal :=
  match x with Fin a => Fin (cos a) | _ => NaN end.

#[global] Instance xreal_arith : JsArith xreal := {|
  ofZ := fun z => Fin (IZR z);
  lit_0_1 := Fin (1 / 10);
  add := xadd; sub := xsub; mul := xmul; div := xdiv; neg := xneg;
  lt := xlt;
  Math_sqrt := xsqrt; Math_floor := xfloor; Math_max := xmax
|}.

#[global] Instance xreal_math : JsMath xreal := {|
  Math_sin := xsin; Math_cos := xcos; Math_PI := Fin PI
|}.

End Exact.

(** *** IEEE-754 binary64 *)

Module Ieee.

Definition float := PrimFloat.float.

Definition isFinite (x : float) : bool :=
  PrimFloat.ltb (PrimFloat.abs x) PrimFloat.infinity.

Definition isNaN (x : float) : bool := negb (PrimFloat.eqb x x).

(** Integers of the pipeline are small; the conversion is exact below 2^53. *)
Definition float_ofZ (z : Z) : float :=
  match z with
  | Zneg p => PrimFloat.opp (PrimFloat.of_uint63 (Uint63.of_Z (Zpos p)))
  | _ => PrimFloat.of_uint63 (Uint63.of_Z z)
  end.

Definition two52 : float := 0x1p52%float.

(** [Math.floor]: a double of magnitude 2^52 or more is an integer already;
    below, adding and subtracting 2^52 rounds to the nearest integer, which
    is lowered by one when it lies above the argument.  NaN, the infinities
    and the two zeros are returned as they are. *)
Definition float_floor (x : float) : float :=
  if PrimFloat.eqb x 0%float then x
  else if PrimFloat.ltb (PrimFloat.abs x) two52 then
    let r := if PrimFloat.ltb 0%float x
             then PrimFloat.sub (PrimFloat.add x two52) two52
             else PrimFloat.add (PrimFloat.sub x two52) two52 in
    if PrimFloat.ltb x r then PrimFloat.sub r 1%float else r
  else x.

(** [Math.max]: NaN when either argument is NaN; [+0] is larger than [-0]. *)
Definition float_max (x y : float) : float :=
  if isNaN x then x
  else if isNaN y then y
  else if PrimFloat.ltb x y then y
  else if PrimFloat.ltb y x then x
  else if PrimFloat.ltb (PrimFloat.div 1%float x) 0%float then y else x.

#[global] Instance float_arith : JsArith float := {|
  ofZ := float_ofZ;
  lit_0_1 := 0x1.999999999999ap-4%float;
  add := PrimFloat.add; sub := PrimFloat.sub; mul := PrimFloat.mul;
  div := PrimFloat.div; neg := PrimFloat.opp;
  lt := PrimFloat.ltb;
  Math_sqrt := PrimFloat.sqrt; Math_floor := float_floor;
  Math_max := float_max
|}.

(** [Math.sin] and [Math.cos] are implementation-approximated: the engine's
    two functions are parameters of the reading in doubles. *)
Definition float_math (engine_sin engine_cos : float -> float) : JsMath float :=
  {| Math_sin := engine_sin; Math_cos := engine_cos;
     Math_PI := 0x1.921fb54442d18p+1%float |}.

End Ieee.

(* ================================================================= *)
(** ** Points, canvas, colours, triangles *)

Section Geometry.
Variable num : Type.

(** The object literal [{ x, y, z }]. *)
Record Point : Type := mkPoint { px : num; py : num; pz : num }.

(** The part of the canvas the renderer reads. *)
Record Canvas : Type := mkCanvas { width : num; height : num }.

(** The three numbers interpolated into [`rgb(${red}, ${green}, ${blue})`]. *)
Record Color : Type := rgb { red : num; green : num; blue : num }.

(** [{ points: [a, b, c], color, avgZ }]. *)
Record Triangle : Type := mkTriangle {
  points : Point * Point * Point;
  color : Color;
  avgZ : num
}.
End Geometry.

Arguments mkPoint {num} _ _ _.
Arguments mkCanvas {num} _ _.
Arguments rgb {num} _ _ _.
Arguments mkTriangle {num} _ _ _.

(* ================================================================= *)
(** ** shapeDeformer.js *)

Section ShapeDeformer.
Context {num : Type} {arith : JsArith num} {math : JsMath num}.
Local Open Scope js_scope.

(** The classes of the mode hierarchy, with the fields each one adds. *)
Inductive ModeClass : Type :=
| DeformationModeBase
| HarmonicMode (thetaFreq phiFreq : num)
| CosineHarmonicMode (thetaFreq phiFreq : num)
| MixedHarmonicMode
| NoiseDeformation (scale : num).

Record DeformationMode : Type := mkMode {
  name : string;
  description : string;
  defaultAmplitude : num;
  amplitude : num;
  class : ModeClass
}.

(** [new C(name, description, ..., defaultAmplitude)]. *)
Definition newMode (n d : string) (c : ModeClass) (defaultAmp : num)
  : DeformationMode :=
  mkMode n d defaultAmp defaultAmp c.

Definition withAmplitude (m : DeformationMode) (value : num) : DeformationMode :=
  mkMode (name m) (description m) (defaultAmplitude m) value (class m).

Definition reset (m : DeformationMode) : DeformationMode :=
  withAmplitude m (defaultAmplitude m).

Definition noise3D (scale x y z : num) : num :=
  Math_sin (x * lit_0_1 * scale) *
  Math_cos (y * lit_0_1 * scale) *
  Math_sin (z * lit_0_1 * scale).

(** [mode.applyDeformation(theta, phi, basePoint)], dispatched on the class;
    [basePoint] is [None] when the caller passes none. *)
Definition applyDeformation (m : DeformationMode) (theta phi : num)
    (basePoint : option (Point num)) : num :=
  match class m with
  | DeformationModeBase => ofZ 0
  | HarmonicMode thetaFreq phiFreq =>
      amplitude m * Math_sin (thetaFreq * theta) * Math_sin (phiFreq * phi)
  | CosineHarmonicMode thetaFreq phiFreq =>
      amplitude m * Math_cos (thetaFreq * theta) * Math_sin (phiFreq * phi)
  | MixedHarmonicMode =>
      amplitude m * Math_sin (theta + ofZ 3 * phi) * Math_cos (ofZ 2 * theta)
  | NoiseDeformation scale =>
      match basePoint with
      | None => ofZ 0
      | Some b =>
          let noiseValue :=
            noise3D scale (px b * ofZ 10) (py b * ofZ 10) (pz b * ofZ 10) in
          amplitude m * noiseValue
      end
  end.

Record ShapeDeformer : Type := mkDeformer {
  baseRadius : num;
  modes : list DeformationMode
}.

(** [addMode]: the new state and the index of the mode added. *)
Definition addMode (sd : ShapeDeformer) (m : DeformationMode)
  : ShapeDeformer * Z :=
  let ms := modes sd ++ [m] in
  (mkDeformer (baseRadius sd) ms, (Z.of_nat (length ms) - 1)%Z).

Definition defaultModes : list DeformationMode :=
  [ newMode "Mode 1" "3 waves around equator, 2 waves pole-to-pole"
      (HarmonicMode (ofZ 3) (ofZ 2)) (ofZ 0);
    newMode "Mode 2" "5 waves around equator, 3 waves pole-to-pole"
      (HarmonicMode (ofZ 5) (ofZ 3)) (ofZ 0);
    newMode "Mode 3" "7 waves around equator, 1 wave pole-to-pole"
      (HarmonicMode (ofZ 7) (ofZ 1)) (ofZ 0);
    newMode "Pinch" "Pinching effect along longitude lines"
      (CosineHarmonicMode (ofZ 4) (ofZ 4)) (ofZ 0);
    newMode "Ripple" "Radial ripple effect from poles"
      (HarmonicMode (ofZ 0) (ofZ 3)) (ofZ 0);
    newMode "Twisted" "Twisted torus-like deformation"
      MixedHarmonicMode (ofZ 0);
    newMode "Noise" "Organic, natural-looking irregularities"
      (NoiseDeformation (ofZ 1)) (ofZ 0) ].

(** [new ShapeDeformer(baseRadius)]: [setupDefaultModes] on an empty list. *)
Definition newShapeDeformer (r : num) : ShapeDeformer :=
  fold_left (fun sd m => fst (addMode sd m)) defaultModes (mkDeformer r []).

(** [index >= 0 && index < this.modes.length], for an integer index. *)
Definition inRange (index : Z) (ms : list DeformationMode) : bool :=
  (0 <=? index)%Z && (index <? Z.of_nat (length ms))%Z.

(** [this.modes.splice(index, 1)]. *)
Fixpoint splice1 (i : nat) (ms : list DeformationMode) : list DeformationMode :=
  match ms, i with
  | [], _ => []
  | _ :: rest, O => rest
  | m :: rest, S k => m :: splice1 k rest
  end.

(** [this.modes[i].amplitude = value], for [i] below the length. *)
Fixpoint assignAmplitude (i : nat) (value : num) (ms : list DeformationMode)
  : list DeformationMode :=
  match ms, i with
  | [], _ => []
  | m :: rest, O => withAmplitude m value :: rest
  | m :: rest, S k => m :: assignAmplitude k value rest
  end.

Definition removeMode (sd : ShapeDeformer) (index : Z) : ShapeDeformer * bool :=
  if inRange index (modes sd)
  then (mkDeformer (baseRadius sd) (splice1 (Z.to_nat index) (modes sd)), true)
  else (sd, false).

Definition setAmplitude (sd : ShapeDeformer) (index : Z) (value : num)
  : ShapeDeformer * bool :=
  if inRange index (modes sd)
  then (mkDeformer (baseRadius sd)
          (assignAmplitude (Z.to_nat index) value (modes sd)), true)
  else (sd, false).

(** The values a counter takes in [for (let k = 0; k <= n; k++)]. *)
Definition upTo (n : Z) : list Z :=
  map Z.of_nat (seq 0 (Z.to_nat (n + 1))).

(** The loop [for (const mode of this.modes) totalDeformation += ...]. *)
Definition totalDeformation (ms : list DeformationMode) (theta phi : num)
    (basePoint : Point num) : num :=
  fold_left (fun total mode => total + applyDeformation mode theta phi (Some basePoint))
            ms (ofZ 0).

(** The body of the inner loop of [createDeformedSphere]. *)
Definition spherePoint (sd : ShapeDeformer) (theta phi : num) : Point num :=
  let baseX := Math_sin phi * Math_cos theta in
  let baseY := Math_sin phi * Math_sin theta in
  let baseZ := Math_cos phi in
  let basePoint := mkPoint baseX baseY baseZ in
  let r := baseRadius sd + totalDeformation (modes sd) theta phi basePoint in
  mkPoint (r * baseX) (r * baseY) (r * baseZ).

Definition createDeformedSphere (sd : ShapeDeformer)
    (numPointsTheta numPointsPhi : Z) : list (list (Point num)) :=
  map (fun j =>
         let phi := ofZ j * Math_PI / ofZ numPointsPhi in
         map (fun i =>
                let theta := ofZ i * ofZ 2 * Math_PI / ofZ numPointsTheta in
                spherePoint sd theta phi)
             (upTo numPointsTheta))
      (upTo numPointsPhi).

(** A preset: [{ name, amplitudes }]. *)
Record Preset : Type := mkPreset {
  presetName : string;
  amplitudes : list num
}.

(** The loop of [applyPreset], from counter [i] on, at most [fuel] rounds:
    [for (; i < modes.length && i < amplitudes.length; i++)]. *)
Fixpoint applyPresetFrom (fuel i : nat) (amps : list num)
    (ms : list DeformationMode) : list DeformationMode :=
  match fuel with
  | O => ms
  | S fuel' =>
      if (i <? length ms)%nat && (i <? length amps)%nat then
        match nth_error amps i with
        | Some a => applyPresetFrom fuel' (S i) amps (assignAmplitude i a ms)
        | None => ms
        end
      else ms
  end.

(** [applyPreset]: the loop from 0; it stops below the mode count, so
    [length (modes sd)] rounds let it finish. *)
Definition applyPreset (sd : ShapeDeformer) (presetConfig : Preset)
  : ShapeDeformer :=
  mkDeformer (baseRadius sd)
    (applyPresetFrom (length (modes sd)) 0 (amplitudes presetConfig) (modes sd)).

Definition getCurrentPreset (sd : ShapeDeformer) (n : string) : Preset :=
  mkPreset n (map amplitude (modes sd)).

End ShapeDeformer.

Arguments DeformationMode num : clear implicits.
Arguments ModeClass num : clear implicits.
Arguments ShapeDeformer num : clear implicits.
Arguments Preset num : clear implicits.

(* ================================================================= *)
(** ** renderer.js *)

Section Renderer.
Context {num : Type} {arith : JsArith num} {math : JsMath num}.
Local Open Scope js_scope.

(** The fields of a [Renderer] the pipeline reads; [ctx] is write-only and
    is represented by what [draw] paints. *)
Record Renderer : Type := mkRenderer {
  canvas : Canvas num;
  shapeDeformer : ShapeDeformer num;
  lightDir : Point num
}.

(** [v ** 2]. *)
Definition sq (v : num) : num := v * v.

Definition normalizeLightDirection (l : Point num) : Point num :=
  let lightLength := Math_sqrt (sq (px l) + sq (py l) + sq (pz l)) in
  mkPoint (px l / lightLength) (py l / lightLength) (pz l / lightLength).

Definition setLightDirection (this : Renderer) (x y z : num) : Renderer :=
  mkRenderer (canvas this) (shapeDeformer this)
             (normalizeLightDirection (mkPoint x y z)).

Definition rotatePoint (point : Point num) (angleX angleY : num) : Point num :=
  let radX := (angleX / ofZ 100) * Math_PI in
  let radY := (angleY / ofZ 100) * Math_PI in
  let x := px point in
  let y := py point in
  let z := pz point in
  let y1 := y * Math_cos radX - z * Math_sin radX in
  let z1 := y * Math_sin radX + z * Math_cos radX in
  let y := y1 in
  let z := z1 in
  let x2 := x * Math_cos radY + z * Math_sin radY in
  let z2 := (- x) * Math_sin radY + z * Math_cos radY in
  let x := x2 in
  let z := z2 in
  mkPoint x y z.

Definition projectPoint (this : Renderer) (point : Point num) (depth : num)
  : Point num :=
  let centerX := width (canvas this) / ofZ 2 in
  let centerY := height (canvas this) / ofZ 2 in
  let depthFactor := depth / ofZ 1000 in
  let scale := ofZ 1 + pz point * depthFactor in
  let x2d := centerX + px point / scale in
  let y2d := centerY + py point / scale in
  mkPoint x2d y2d (pz point).

(** The cross product of the two edge vectors, before normalisation. *)
Definition crossProduct (p1 p2 p3 : Point num) : Point num :=
  let v1 := mkPoint (px p2 - px p1) (py p2 - py p1) (pz p2 - pz p1) in
  let v2 := mkPoint (px p3 - px p1) (py p3 - py p1) (pz p3 - pz p1) in
  mkPoint (py v1 * pz v2 - pz v1 * py v2)
          (pz v1 * px v2 - px v1 * pz v2)
          (px v1 * py v2 - py v1 * px v2).

Definition calculateNormal (p1 p2 p3 : Point num) : Point num :=
  let normal := crossProduct p1 p2 p3 in
  let length := Math_sqrt (sq (px normal) + sq (py normal) + sq (pz normal)) in
  mkPoint (px normal / length) (py normal / length) (pz normal / length).

Definition calculateLighting (this : Renderer) (normal : Point num) : Color num :=
  let dot := px normal * px (lightDir this) + py normal * py (lightDir this)
             + pz normal * pz (lightDir this) in
  let intensity := Math_max lit_0_1 dot in
  let blue := Math_floor (ofZ 120 + ofZ 135 * intensity) in
  let green := Math_floor (ofZ 120 * intensity) in
  let red := Math_floor (ofZ 40 * intensity) in
  rgb red green blue.

(** The first triangle of a quad, from its rotated corners. *)
Definition triangle1 (this : Renderer) (depth : num) (p1 p2 p3 : Point num)
  : Triangle num :=
  let color1 := calculateLighting this (calculateNormal p1 p2 p3) in
  let avgZ1 := (pz p1 + pz p2 + pz p3) / ofZ 3 in
  mkTriangle (projectPoint this p1 depth, projectPoint this p2 depth,
              projectPoint this p3 depth) color1 avgZ1.

(** The second triangle of a quad, from its rotated corners. *)
Definition triangle2 (this : Renderer) (depth : num) (p2 p3 p4 : Point num)
  : Triangle num :=
  let color2 := calculateLighting this (calculateNormal p2 p4 p3) in
  let avgZ2 := (pz p2 + pz p3 + pz p4) / ofZ 3 in
  mkTriangle (projectPoint this p2 depth, projectPoint this p4 depth,
              projectPoint this p3 depth) color2 avgZ2.

(** The body of the inner loop of [draw] on the four corners of a quad:
    [triangles.push] appends. *)
Definition quadBody (this : Renderer) (rotX camAngle depth : num)
    (a b c d : Point num) (triangles : list (Triangle num))
  : list (Triangle num) :=
  let p1 := rotatePoint a rotX camAngle in
  let p2 := rotatePoint b rotX camAngle in
  let p3 := rotatePoint c rotX camAngle in
  let p4 := rotatePoint d rotX camAngle in
  let normal1 := calculateNormal p1 p2 p3 in
  let normal2 := calculateNormal p2 p4 p3 in
  let triangles :=
    if pz normal1 <? ofZ 0
    then triangles ++ [triangle1 this depth p1 p2 p3] else triangles in
  let triangles :=
    if pz normal2 <? ofZ 0
    then triangles ++ [triangle2 this depth p2 p3 p4] else triangles in
  triangles.

(** [for (let k = start; k < start + count; k++) body]; [None] when the body
    raises. *)
Fixpoint forRange (A : Type) (body : nat -> A -> option A)
    (start count : nat) (acc : A) : option A :=
  match count with
  | O => Some acc
  | S count' =>
      match body start acc with
      | Some acc' => forRange body (S start) count' acc'
      | None => None
      end
  end.

(** [spherePoints[j][i]]; reading a property of [undefined] raises. *)
Definition at2 (spherePoints : list (list (Point num))) (j i : nat)
  : option (Point num) :=
  match nth_error spherePoints j with
  | Some row => nth_error row i
  | None => None
  end.

(** The two nested loops of [draw] that build [triangles]. *)
Definition buildTriangles (this : Renderer) (rotX camAngle depth : num)
    (spherePoints : list (list (Point num))) : option (list (Triangle num)) :=
  forRange
    (fun j triangles =>
       match nth_error spherePoints j with
       | None => None
       | Some row =>
           forRange
             (fun i triangles =>
                match at2 spherePoints j i, at2 spherePoints j (S i),
                      at2 spherePoints (S j) i, at2 spherePoints (S j) (S i)
                with
                | Some a, Some b, Some c, Some d =>
                    Some (quadBody this rotX camAngle depth a b c d triangles)
                | _, _, _, _ => None
                end)
             0 (length row - 1) triangles
       end)
    0 (length spherePoints - 1) [].

(** The comparator [(a, b) => a.avgZ - b.avgZ]. *)
Definition compareAvgZ (a b : Triangle num) : num := avgZ a - avgZ b.

(** [Array.prototype.sort] is stable and orders by the comparator; which
    algorithm runs is left to the engine.  It is taken here as a stable
    insertion sort: an element goes behind those the comparator puts
    before it or ties with it (a NaN result counts as a tie). *)
Fixpoint insertSorted (A : Type) (cmp : A -> A -> num) (t : A) (sorted : list A)
  : list A :=
  match sorted with
  | [] => [t]
  | u :: rest =>
      if ofZ 0 <? cmp t u then u :: insertSorted cmp t rest
      else t :: u :: rest
  end.

Definition sortBy (A : Type) (cmp : A -> A -> num) (l : list A) : list A :=
  fold_right (insertSorted cmp) [] l.

(** [draw]: the triangles in the order they are filled and stroked, or
    [None] if the call raises.  [clearRect] precedes, nothing else is
    painted. *)
Definition draw (this : Renderer) (rotX camAngle depth : num)
    (numPointsTheta numPointsPhi : Z) : option (list (Triangle num)) :=
  let spherePoints :=
    createDeformedSphere (shapeDeformer this) numPointsTheta numPointsPhi in
  match buildTriangles this rotX camAngle depth spherePoints with
  | Some triangles => Some (sortBy compareAvgZ triangles)
  | None => None
  end.

(** *** The quads of a grid and their candidate triangles *)

(** The quads [(j,i)-(j,i+1)-(j+1,i)-(j+1,i+1)] between two adjacent rows. *)
Fixpoint quadsOfRows (r0 r1 : list (Point num))
  : list (Point num * Point num * Point num * Point num) :=
  match r0, r1 with
  | a :: (b :: _) as r0', c :: (d :: _) as r1' =>
      (a, b, c, d) :: quadsOfRows r0' r1'
  | _, _ => []
  end.

(** All quads of a grid, row by row. *)
Fixpoint quadsOfGrid (g : list (list (Point num)))
  : list (Point num * Point num * Point num * Point num) :=
  match g with
  | r0 :: (r1 :: _) as g' => quadsOfRows r0 r1 ++ quadsOfGrid g'
  | _ => []
  end.

(** The two triangles of a quad, each with its unit face normal. *)
Definition quadCandidates (this : Renderer) (rotX camAngle depth : num)
    (q : Point num * Point num * Point num * Point num)
  : list (Point num * Triangle num) :=
  let '(a, b, c, d) := q in
  let p1 := rotatePoint a rotX camAngle in
  let p2 := rotatePoint b rotX camAngle in
  let p3 := rotatePoint c rotX camAngle in
  let p4 := rotatePoint d rotX camAngle in
  [ (calculateNormal p1 p2 p3, triangle1 this depth p1 p2 p3);
    (calculateNormal p2 p4 p3, triangle2 this depth p2 p3 p4) ].

(** A normal faces the viewer when its z component is negative. *)
Definition facesViewer (nt : Point num * Triangle num) : bool :=
  pz (fst nt) <? ofZ 0.

(** The candidates of a list of quads that survive the cull. *)
Definition kept (this : Renderer) (rotX camAngle depth : num)
    (qs : list (Point num * Point num * Point num * Point num))
  : list (Triangle num) :=
  map snd (filter facesViewer
             (flat_map (quadCandidates this rotX camAngle depth) qs)).

(** The triangles that survive the cull, in the order of the quads. *)
Definition survivors (this : Renderer) (rotX camAngle depth : num)
    (g : list (list (Point num))) : list (Triangle num) :=
  kept this rotX camAngle depth (quadsOfGrid g).

End Renderer.

Arguments Renderer num : clear implicits.

(* ================================================================= *)
(** ** Predicates and concrete inputs used in the statements *)

(** The point whose three coordinates are NaN. *)
Definition nanPoint : Point Exact.xreal :=
  mkPoint Exact.NaN Exact.NaN Exact.NaN.

(** The zero vector. *)
Definition zeroVector : Point Exact.xreal :=
  mkPoint (Exact.Fin 0) (Exact.Fin 0) (Exact.Fin 0).

(** The sum of a list of numbers, from the right. *)
Definition xsum (l : list Exact.xreal) : Exact.xreal :=
  fold_right Exact.xadd (Exact.Fin 0) l.

(** The class parameters of a mode are finite numbers. *)
Definition finiteClass (c : ModeClass Exact.xreal) : bool :=
  match c with
  | HarmonicMode a b | CosineHarmonicMode a b =>
      Exact.isFinite a && Exact.isFinite b
  | NoiseDeformation s => Exact.isFinite s
  | DeformationModeBase | MixedHarmonicMode => true
  end.

(** A mode at amplitude 0 with finite parameters. *)
Definition atRest (m : DeformationMode Exact.xreal) : Prop :=
  amplitude m = Exact.Fin 0 /\ finiteClass (class m) = true.

Definition finiteMode (m : DeformationMode Exact.xreal) : bool :=
  Exact.isFinite (amplitude m) && finiteClass (class m).

(** The base radius and every mode parameter are finite numbers. *)
Definition finiteDeformer (sd : ShapeDeformer Exact.xreal) : bool :=
  Exact.isFinite (baseRadius sd) && forallb finiteMode (modes sd).

Definition finitePoint (p : Point Exact.xreal) : Prop :=
  exists x y z : R, p = mkPoint (Exact.Fin x) (Exact.Fin y) (Exact.Fin z).

(** [a.avgZ <= b.avgZ], both finite. *)
Definition avgZ_le (a b : Triangle Exact.xreal) : Prop :=
  exists x y : R, avgZ a = Exact.Fin x /\ avgZ b = Exact.Fin y /\ (x <= y)%R.

Definition finiteAvgZ (t : Triangle Exact.xreal) : Prop :=
  exists x : R, avgZ t = Exact.Fin x.

(** A number that is zero or NaN. *)
Definition zeroOrNaN (x : Exact.xreal) : Prop :=
  x = Exact.Fin 0 \/ x = Exact.NaN.

(** The base points of the two poles. *)
Definition northPole : Point Exact.xreal :=
  mkPoint (Exact.Fin 0) (Exact.Fin 0) (Exact.Fin 1).
Definition southPole : Point Exact.xreal :=
  mkPoint (Exact.Fin 0) (Exact.Fin 0) (Exact.Fin (-1)).

(** The deformation of a mode at the two poles does not depend on [theta]. *)
Definition thetaFreeAtPoles (m : DeformationMode Exact.xreal) : Prop :=
  forall t t' : R,
    applyDeformation m (Exact.Fin t) (Exact.Fin 0) (Some northPole) =
    applyDeformation m (Exact.Fin t') (Exact.Fin 0) (Some northPole) /\
    applyDeformation m (Exact.Fin t) (Exact.Fin PI) (Some southPole) =
    applyDeformation m (Exact.Fin t') (Exact.Fin PI) (Some southPole).

(** The deformer of [nuChlad.js], [new ShapeDeformer(200)], in doubles. *)
Definition sphere200 : ShapeDeformer Ieee.float :=
  newShapeDeformer (ofZ 200).

(** The deformer of [nuChlad.js] in exact arithmetic. *)
Definition exactSphere200 : ShapeDeformer Exact.xreal :=
  newShapeDeformer (ofZ 200).

(** The renderer of [nuChlad.js] on an 800 x 600 canvas, in doubles. *)
Definition renderer800x600 : Renderer Ieee.float :=
  mkRenderer (mkCanvas 800%float 600%float) sphere200
    (normalizeLightDirection
       (mkPoint 0.5%float (-0.5)%float 0x1.6666666666666p-1%float)).

(** The renderer of [nuChlad.js] on an 800 x 600 canvas, in exact
    arithmetic, with the light along [z]. *)
Definition exactRenderer : Renderer Exact.xreal :=
  mkRenderer (mkCanvas (Exact.Fin 800) (Exact.Fin 600)) exactSphere200
             (mkPoint (Exact.Fin 0) (Exact.Fin 0) (Exact.Fin 1)).

(** A harmonic mode of half a wave around the equator. *)
Definition halfWave : DeformationMode Exact.xreal :=
  newMode "Half" "half a wave around the equator"
    (HarmonicMode (Exact.Fin (1 / 2)) (Exact.Fin 1)) (Exact.Fin 1).

(* ================================================================= *)
(** ** A run in doubles: the engine's sine and cosine, exact values *)

(** [Math.sin] in doubles at the angles of the runs replayed below, which are
    0, pi/20, pi/2, pi, 3 pi/2 and 2 pi as the program computes them from
    [Math.PI]; the values are those V8, SpiderMonkey and JavaScriptCore
    return (the correctly rounded ones).  Every other argument that enters a
    value stated of those runs belongs to a mode at amplitude 0, which
    multiplies the value by 0; the value 0 stands for the engine's there. *)
Definition sampledSin (x : Ieee.float) : Ieee.float :=
  if PrimFloat.eqb x 0%float then x
  else if PrimFloat.eqb x 0x1.41b2f769cf0e0p-3%float
  then 0x1.4060b67a85375p-3%float
  else if PrimFloat.eqb x 0x1.921fb54442d18p+0%float then 1%float
  else if PrimFloat.eqb x 0x1.921fb54442d18p+1%float
  then 0x1.1a62633145c07p-53%float
  else if PrimFloat.eqb x 0x1.2d97c7f3321d2p+2%float then (-1)%float
  else if PrimFloat.eqb x 0x1.921fb54442d18p+2%float
  then (-0x1.1a62633145c07p-52)%float
  else 0%float.

(** [Math.cos] at the same angles. *)
Definition sampledCos (x : Ieee.float) : Ieee.float :=
  if PrimFloat.eqb x 0%float then 1%float
  else if PrimFloat.eqb x 0x1.41b2f769cf0e0p-3%float
  then 0x1.f9b24942fe45cp-1%float
  else if PrimFloat.eqb x 0x1.921fb54442d18p+0%float
  then 0x1.1a62633145c07p-54%float
  else if PrimFloat.eqb x 0x1.921fb54442d18p+1%float then (-1)%float
  else if PrimFloat.eqb x 0x1.2d97c7f3321d2p+2%float
  then (-0x1.a79394c9e8a0ap-53)%float
  else if PrimFloat.eqb x 0x1.921fb54442d18p+2%float then 1%float
  else 0%float.

Definition sampledMath : JsMath Ieee.float :=
  Ieee.float_math sampledSin sampledCos.

(** The exact value [m * 2^e] of a finite double, as [(m, e)]. *)
Definition exactValue (x : Ieee.float) : option (Z * Z) :=
  match Prim2SF x with
  | S754_zero _ => Some (0, 0)%Z
  | S754_finite s m e => Some (if s then Z.neg m else Z.pos m, e)
  | _ => None
  end.

(** [x^2 + y^2 + z^2] of a point of finite doubles, computed exactly, in
    units of [2^scale]. *)
Definition exactSquaredNorm (scale : Z) (p : Point Ieee.float) : option Z :=
  match exactValue (px p), exactValue (py p), exactValue (pz p) with
  | Some (mx, ex), Some (my, ey), Some (mz, ez) =>
      if ((scale <=? 2 * ex) && (scale <=? 2 * ey) && (scale <=? 2 * ez))%Z
      then Some (mx * mx * 2 ^ (2 * ex - scale)
                 + my * my * 2 ^ (2 * ey - scale)
                 + mz * mz * 2 ^ (2 * ez - scale))%Z
      else None
  | _, _, _ => None
  end.


(* ================================================================= *)
(** ** shapeDeformer.js: mode metadata and the built-in presets *)

Section ModeMetadata.
Context {num : Type} {arith : JsArith num}.

(** [getModeNames]. *)
Definition getModeNames (sd : ShapeDeformer num) : list string :=
  map name (modes sd).

(** The object [{ name, description, amplitude, defaultAmplitude }]. *)
Record ModeInfo : Type := mkModeInfo {
  infoName : string;
  infoDescription : string;
  infoAmplitude : num;
  infoDefaultAmplitude : num
}.

(** [getModeInfo]. *)
Definition getModeInfo (sd : ShapeDeformer num) : list ModeInfo :=
  map (fun mode => mkModeInfo (name mode) (description mode)
                     (amplitude mode) (defaultAmplitude mode))
      (modes sd).

(** [presetConfigurations], its keys in the order of the object literal. *)
Definition presetConfigurations : list (string * Preset num) :=
  [ ("sphere"%string, mkPreset "Sphere" (map ofZ [0; 0; 0; 0; 0; 0; 0]%Z));
    ("star"%string, mkPreset "Star" (map ofZ [30; 0; 0; 0; 0; 0; 0]%Z));
    ("rippled"%string, mkPreset "Rippled" (map ofZ [0; 20; 10; 0; 0; 0; 0]%Z));
    ("twisted"%string, mkPreset "Twisted" (map ofZ [0; 0; 0; 0; 0; 5; 0]%Z));
    ("noisy"%string, mkPreset "Noisy" (map ofZ [0; 0; 0; 0; 0; 0; 8]%Z)) ].

(** [presets[key]]: [None] for [undefined]. *)
Fixpoint lookupPreset (presets : list (string * Preset num)) (key : string)
  : option (Preset num) :=
  match presets with
  | [] => None
  | (k, p) :: rest => if String.eqb k key then Some p else lookupPreset rest key
  end.

End ModeMetadata.

Arguments ModeInfo num : clear implicits.

(* ================================================================= *)
(** ** deformationUI.js and generalUI.js: the controls *)

Section Controls.
Context {num : Type} {arith : JsArith num}.

(** What the code assigns to [slider.value] or to [display.textContent]: a
    number, a string, or what [slider.value] reads back after the number [v]
    was assigned to it (a range input keeps the string of [v] brought into
    its range and onto its step, a plain object keeps [v]). *)
Inductive Shown : Type :=
| ShownNumber (v : num)
| ShownText (s : string)
| ShownSliderValue (v : num).

(** The three arguments of [updateDeformationUI] and [resetDeformationUI]:
    the deformer, [modeSliders] and [modeValues].  The two arrays hold
    elements, of which only [value] and [textContent] are used; [None] is a
    hole or [undefined]. *)
Record UiState : Type := mkUi {
  uiDeformer : ShapeDeformer num;
  modeSliders : list (option Shown);
  modeValues : list (option Shown)
}.

(** [array[i].field = v] on an array of elements: [None] when [array[i]] is
    [undefined], where the assignment raises. *)
Fixpoint assignField (i : nat) (v : Shown) (array : list (option Shown))
  : option (list (option Shown)) :=
  match array, i with
  | [], _ => None
  | None :: _, O => None
  | Some _ :: rest, O => Some (Some v :: rest)
  | e :: rest, S k =>
      match assignField k v rest with
      | Some rest' => Some (e :: rest')
      | None => None
      end
  end.

(** [if (array[i])]: an element is truthy, a hole is not. *)
Definition present (array : list (option Shown)) (i : nat) : bool :=
  match nth_error array i with
  | Some (Some _) => true
  | _ => false
  end.

(** [for (let k = start; k < start + count; k++) body]: the state reached and
    whether the loop completed ([false]: the body raised in that state). *)
Fixpoint uiLoop (body : nat -> UiState -> UiState * bool)
    (start count : nat) (s : UiState) : UiState * bool :=
  match count with
  | O => (s, true)
  | S count' =>
      let (s', ok) := body start s in
      if ok then uiLoop body (S start) count' s' else (s', false)
  end.

(** One round of [updateDeformationUI]. *)
Definition updateRound (i : nat) (s : UiState) : UiState * bool :=
  if present (modeSliders s) i then
    match nth_error (modes (uiDeformer s)) i with
    | None => (s, false)
    | Some mode =>
        match assignField i (ShownNumber (amplitude mode)) (modeSliders s) with
        | None => (s, false)
        | Some sliders =>
            let s1 := mkUi (uiDeformer s) sliders (modeValues s) in
            match assignField i (ShownSliderValue (amplitude mode))
                    (modeValues s) with
            | None => (s1, false)
            | Some values => (mkUi (uiDeformer s) sliders values, true)
            end
        end
    end
  else (s, true).

(** [updateDeformationUI]: [modes.length] does not change in the loop. *)
Definition updateDeformationUI (s : UiState) : UiState * bool :=
  uiLoop updateRound 0 (length (modes (uiDeformer s))) s.

(** One round of [resetDeformationUI]. *)
Definition resetRound (i : nat) (s : UiState) : UiState * bool :=
  let sd := fst (setAmplitude (uiDeformer s) (Z.of_nat i) (ofZ 0)) in
  let s0 := mkUi sd (modeSliders s) (modeValues s) in
  if present (modeSliders s) i then
    match assignField i (ShownNumber (ofZ 0)) (modeSliders s) with
    | None => (s0, false)
    | Some sliders =>
        let s1 := mkUi sd sliders (modeValues s) in
        match assignField i (ShownText "0") (modeValues s) with
        | None => (s1, false)
        | Some values => (mkUi sd sliders values, true)
        end
    end
  else (s0, true).

(** [resetDeformationUI]: [setAmplitude] keeps [modes.length]. *)
Definition resetDeformationUI (s : UiState) : UiState * bool :=
  uiLoop resetRound 0 (length (modes (uiDeformer s))) s.

(** The [change] listener of [setupPresetSelector], with [updateDeformationUI]
    as its callback ([nuChlad.js]), on the selected key.  For a key that is
    not in [presetConfigurations], [applyPreset(undefined)] raises as soon
    as its loop condition reads [presetConfig.amplitudes], that is unless
    there is no mode. *)
Definition onPresetChange (presets : list (string * Preset num))
    (key : string) (s : UiState) : UiState * bool :=
  match lookupPreset presets key with
  | Some selectedPreset =>
      updateDeformationUI
        (mkUi (applyPreset (uiDeformer s) selectedPreset)
              (modeSliders s) (modeValues s))
  | None =>
      match modes (uiDeformer s) with
      | [] => updateDeformationUI s
      | _ :: _ => (s, false)
      end
  end.

(** The [input] listener of [setupOrbitSpeedControl]: the new
    [camera.pathDuration], from the old one and [parseFloat(slider.value)]. *)
Definition onOrbitSpeedInput (pathDuration parsed : num) : num :=
  let speed := div parsed (ofZ 50) in
  if lt (ofZ 0) speed then div (ofZ 20000) speed else pathDuration.

End Controls.

Arguments Shown num : clear implicits.
Arguments UiState num : clear implicits.

(* ================================================================= *)
(** ** nuChlad.js: the angle derived from the camera *)

(** [Math.atan2]. *)
Class JsAtan2 (num : Type) : Type := {
  Math_atan2 : num -> num -> num
}.

Module ExactAtan2.
Import Exact.

(** The angle of the point [(x, y)], in [(-pi, pi]]. *)
Definition Ratan2 (y x : R) : R :=
  if Rltb 0 x then atan (y / x)
  else if Rltb x 0 then
    (if Rltb y 0 then atan (y / x) - PI else atan (y / x) + PI)
  else if Rltb 0 y then PI / 2
  else if Rltb y 0 then - (PI / 2)
  else 0.

(** [Math.atan2] with the special values of ECMAScript; there is one zero,
    taken as [+0]. *)
Definition xatan2 (y x : xreal) : xreal :=
  match y, x with
  | NaN, _ | _, NaN => NaN
  | Fin a, Fin b => Fin (Ratan2 a b)
  | Fin a, Inf false => Fin 0
  | Fin a, Inf true => if Rltb a 0 then Fin (- PI) else Fin PI
  | Inf false, Fin _ => Fin (PI / 2)
  | Inf true, Fin _ => Fin (- (PI / 2))
  | Inf false, Inf false => Fin (PI / 4)
  | Inf true, Inf false => Fin (- (PI / 4))
  | Inf false, Inf true => Fin (3 * PI / 4)
  | Inf true, Inf true => Fin (- (3 * PI / 4))
  end.

#[global] Instance xreal_atan2 : JsAtan2 xreal := {| Math_atan2 := xatan2 |}.

End ExactAtan2.

Section CameraAngle.
Context {num : Type} {arith : JsArith num} {math : JsMath num}
        {trig : JsAtan2 num}.

(** [calculateAngleFromCamera(camera)], from [camera.position]. *)
Definition calculateAngleFromCamera (position : Point num) : num :=
  mul (Math_atan2 (px position) (pz position)) (div (ofZ 100) Math_PI).

(** What [animate] draws in one frame, from the camera position and the two
    slider values: [renderer.draw(rotX, camAngle, depth, 40, 20)]. *)
Definition animateFrame (renderer : Renderer num) (position : Point num)
    (rotX depth : num) : option (list (Triangle num)) :=
  let camAngle := calculateAngleFromCamera position in
  draw renderer rotX camAngle depth 40 20.

End CameraAngle.

(* ================================================================= *)
(** ** Predicates and inputs of the further properties *)

(** The real value of an amplitude, 0 when it is not finite. *)
Definition amplitudeSize (m : DeformationMode Exact.xreal) : R :=
  match amplitude m with
  | Exact.Fin a => Rabs a
  | _ => 0%R
  end.

(** The sum of the sizes of the amplitudes. *)
Definition amplitudeBudget (ms : list (DeformationMode Exact.xreal)) : R :=
  fold_right (fun m total => (amplitudeSize m + total)%R) 0%R ms.

(** The frequency around the equator of a harmonic mode is an integer. *)
Definition integerThetaFreq (m : DeformationMode Exact.xreal) : Prop :=
  match class m with
  | HarmonicMode f _ | CosineHarmonicMode f _ =>
      exists k : Z, f = Exact.Fin (IZR k)
  | _ => True
  end.

Section ControlStates.
Context {num : Type} {arith : JsArith num}.

(** The state after the rounds below [i] of [resetDeformationUI] on [s0]. *)
Definition resetDone (s0 : UiState num) (i : nat) (s : UiState num) : Prop :=
  baseRadius (uiDeformer s) = baseRadius (uiDeformer s0) /\
  (forall k, nth_error (modes (uiDeformer s)) k =
     option_map (fun m => if Nat.ltb k i then withAmplitude m (ofZ 0) else m)
                (nth_error (modes (uiDeformer s0)) k)) /\
  (forall k, nth_error (modeSliders s) k =
     if present (modeSliders s0) k && Nat.ltb k i
     then Some (Some (ShownNumber (ofZ 0)))
     else nth_error (modeSliders s0) k) /\
  (forall k, nth_error (modeValues s) k =
     if present (modeSliders s0) k && Nat.ltb k i
     then Some (Some (@ShownText num "0"%string))
     else nth_error (modeValues s0) k).

(** The state after the rounds below [i] of [updateDeformationUI] on [s0]. *)
Definition updateDone (s0 : UiState num) (i : nat) (s : UiState num) : Prop :=
  uiDeformer s = uiDeformer s0 /\
  (forall k, nth_error (modeSliders s) k =
     if present (modeSliders s0) k && Nat.ltb k i
     then option_map (fun m => Some (ShownNumber (amplitude m)))
                     (nth_error (modes (uiDeformer s0)) k)
     else nth_error (modeSliders s0) k) /\
  (forall k, nth_error (modeValues s) k =
     if present (modeSliders s0) k && Nat.ltb k i
     then option_map (fun m => Some (ShownSliderValue (amplitude m)))
                     (nth_error (modes (uiDeformer s0)) k)
     else nth_error (modeValues s0) k).

End ControlStates.

(** A colour of the palette: three integers, red in 4..40, green in 12..120
    and blue in 133..255. *)
Definition inPalette (c : Color Exact.xreal) : Prop :=
  exists r g b : Z,
    c = rgb (Exact.Fin (IZR r)) (Exact.Fin (IZR g)) (Exact.Fin (IZR b)) /\
    (4 <= r <= 40)%Z /\ (12 <= g <= 120)%Z /\ (133 <= b <= 255)%Z.

(** A finite vector of length 1. *)
Definition unitVector (v : Point Exact.xreal) : Prop :=
  exists x y z : R,
    v = mkPoint (Exact.Fin x) (Exact.Fin y) (Exact.Fin z) /\
    (x * x + y * y + z * z = 1)%R.

(** A vertex on the canvas: the projection, with a positive scale, of a
    finite point no further than [bound] from the origin. *)
Definition projectedWithin (w h depth bound : R) (q : Point Exact.xreal)
  : Prop :=
  exists x y z : R,
    (x * x + y * y + z * z <= bound * bound)%R /\
    (0 < 1 + z * (depth / 1000))%R /\
    q = mkPoint (Exact.Fin (w / 2 + x / (1 + z * (depth / 1000))))
                (Exact.Fin (h / 2 + y / (1 + z * (depth / 1000))))
                (Exact.Fin z).

(** Every slider of a mode has its display, as [setupDeformationUI] stores
    them: both at the same index. *)
Definition widgetsPaired (num : Type) (s : UiState num) : Prop :=
  forall i, (i < length (modes (uiDeformer s)))%nat ->
    present (modeSliders s) i = true -> present (modeValues s) i = true.

(** A state of the controls with a slider and a display for every mode, in
    doubles, the second mode at amplitude 7. *)
Definition sevenSliders : UiState Ieee.float :=
  let sd := fst (setAmplitude sphere200 1 7%float) in
  mkUi sd
       (map (fun m => Some (ShownNumber (amplitude m))) (modes sd))
       (map (fun m => Some (ShownSliderValue (amplitude m))) (modes sd)).

(* ================================================================= *)
(** * Properties *)

(** ** The mode list: [setAmplitude], [removeMode], [applyPreset] *)

Section ModeList.
Context {num : Type}.
Implicit Types (ms : list (DeformationMode num)) (m : DeformationMode num).

Lemma assignAmplitude_length i (v : num) ms :
  length (assignAmplitude i v ms) = length ms.
Proof.
  revert i; induction ms as [|m ms IH]; intros [|i]; simpl; auto.
Qed.

Lemma assignAmplitude_nth i (v : num) ms k :
  nth_error (assignAmplitude i v ms) k =
  if Nat.eqb k i
  then option_map (fun m => withAmplitude m v) (nth_error ms k)
  else nth_error ms k.
Proof.
  revert i k; induction ms as [|m ms IH]; intros [|i] [|k]; simpl; auto.
  destruct (Nat.eqb k i); reflexivity.
Qed.

Lemma splice1_length i ms :
  (i < length ms)%nat -> length (splice1 i ms) = (length ms - 1)%nat.
Proof.
  revert i; induction ms as [|m ms IH]; intros [|i] Hi; simpl in *; try lia.
  rewrite IH by lia. lia.
Qed.

Lemma splice1_nth i ms k :
  nth_error (splice1 i ms) k =
  if Nat.ltb k i then nth_error ms k else nth_error ms (S k).
Proof.
  revert i k; induction ms as [|m ms IH]; intros [|i] [|k]; simpl;
    try reflexivity.
  - destruct (Nat.ltb (S k) (S i)); reflexivity.
  - rewrite IH. change (Nat.ltb (S k) (S i)) with (Nat.ltb k i).
    reflexivity.
Qed.

Lemma inRange_true (index : Z) ms :
  inRange index ms = true <-> (0 <= index < Z.of_nat (length ms))%Z.
Proof. unfold inRange. rewrite andb_true_iff, Z.leb_le, Z.ltb_lt. tauto. Qed.

Lemma inRange_false (index : Z) ms :
  inRange index ms = false <-> (index < 0 \/ Z.of_nat (length ms) <= index)%Z.
Proof.
  unfold inRange. rewrite andb_false_iff, Z.leb_gt, Z.ltb_ge. tauto.
Qed.

(** What the loop of [applyPreset] leaves at every index, once it has run
    from counter [i] with enough rounds to reach the end of the list. *)
Lemma applyPresetFrom_nth fuel : forall i (amps : list num) ms k,
  (length ms <= i + fuel)%nat ->
  nth_error (applyPresetFrom fuel i amps ms) k =
  match nth_error ms k with
  | Some m =>
      Some (if Nat.leb i k
            then match nth_error amps k with
                 | Some a => withAmplitude m a
                 | None => m
                 end
            else m)
  | None => None
  end.
Proof.
  induction fuel as [|fuel IH]; intros i amps ms k Hlen; simpl.
  - destruct (nth_error ms k) as [m|] eqn:E; [|reflexivity].
    assert (k < length ms)%nat by (apply nth_error_Some; congruence).
    replace (Nat.leb i k) with false by (symmetry; apply Nat.leb_gt; lia).
    reflexivity.
  - destruct (Nat.ltb i (length ms)) eqn:Hi; simpl.
    + destruct (Nat.ltb i (length amps)) eqn:Ha; simpl.
      * apply Nat.ltb_lt in Hi, Ha.
        destruct (nth_error amps i) as [a|] eqn:Ea;
          [|apply nth_error_None in Ea; lia].
        rewrite IH by (rewrite assignAmplitude_length; lia).
        rewrite assignAmplitude_nth.
        destruct (Nat.eqb k i) eqn:Hk.
        -- apply Nat.eqb_eq in Hk; subst k.
           destruct (nth_error ms i) as [m|]; cbn [option_map];
             [|reflexivity].
           destruct (Nat.leb (S i) i) eqn:H1;
             [apply Nat.leb_le in H1; lia|].
           rewrite Nat.leb_refl, Ea. reflexivity.
        -- apply Nat.eqb_neq in Hk.
           destruct (nth_error ms k) as [m|]; [|reflexivity].
           destruct (Nat.leb (S i) k) eqn:H1.
           ++ apply Nat.leb_le in H1.
              replace (Nat.leb i k) with true
                by (symmetry; apply Nat.leb_le; lia).
              reflexivity.
           ++ apply Nat.leb_gt in H1.
              replace (Nat.leb i k) with false
                by (symmetry; apply Nat.leb_gt; lia).
              reflexivity.
      * apply Nat.ltb_ge in Ha.
        destruct (nth_error ms k) as [m|]; [|reflexivity].
        destruct (Nat.leb i k) eqn:H1; [|reflexivity].
        apply Nat.leb_le in H1.
        replace (nth_error amps k) with (@None num)
          by (symmetry; apply nth_error_None; lia).
        reflexivity.
    + apply Nat.ltb_ge in Hi.
      destruct (nth_error ms k) as [m|] eqn:E; [|reflexivity].
      assert (k < length ms)%nat by (apply nth_error_Some; congruence).
      replace (Nat.leb i k) with false by (symmetry; apply Nat.leb_gt; lia).
      reflexivity.
Qed.

Lemma nth_error_ext (A : Type) (l1 l2 : list A) :
  (forall k, nth_error l1 k = nth_error l2 k) -> l1 = l2.
Proof.
  revert l2; induction l1 as [|x l1 IH]; intros [|y l2] Hk; auto.
  - specialize (Hk O); discriminate.
  - specialize (Hk O); discriminate.
  - f_equal.
    + specialize (Hk O); simpl in Hk; congruence.
    + apply IH. intros k. apply (Hk (S k)).
Qed.

(** The loop of [applyPreset] has finished within [length ms - i] rounds:
    more rounds change nothing. *)
Lemma applyPresetFrom_enough_fuel fuel fuel' i (amps : list num) ms :
  (length ms <= i + fuel)%nat -> (length ms <= i + fuel')%nat ->
  applyPresetFrom fuel i amps ms = applyPresetFrom fuel' i amps ms.
Proof.
  intros H1 H2. apply nth_error_ext. intros k.
  rewrite !applyPresetFrom_nth by assumption. reflexivity.
Qed.

End ModeList.

(** C9: [setAmplitude(index, value)] and [removeMode(index)] with an index
    outside [0, modeCount) return [false] and leave the deformer as it was
    (they are total: nothing is raised); with an index inside the range they
    return [true], [setAmplitude] stores [value] as given at that index and
    changes no other mode, and [removeMode] drops that mode, the later modes
    moving down by one. *)
Theorem setAmplitude_removeMode_by_index (num : Type)
    (sd : ShapeDeformer num) (index : Z) (value : num) :
  ((index < 0 \/ Z.of_nat (length (modes sd)) <= index)%Z ->
     setAmplitude sd index value = (sd, false) /\
     removeMode sd index = (sd, false))
  /\
  ((0 <= index < Z.of_nat (length (modes sd)))%Z ->
     let i := Z.to_nat index in
     let sa := fst (setAmplitude sd index value) in
     let sr := fst (removeMode sd index) in
     snd (setAmplitude sd index value) = true /\
     baseRadius sa = baseRadius sd /\
     length (modes sa) = length (modes sd) /\
     option_map amplitude (nth_error (modes sa) i) = Some value /\
     (forall k, nth_error (modes sa) k =
                if Nat.eqb k i
                then option_map (fun m => withAmplitude m value)
                                (nth_error (modes sd) k)
                else nth_error (modes sd) k) /\
     snd (removeMode sd index) = true /\
     baseRadius sr = baseRadius sd /\
     length (modes sr) = (length (modes sd) - 1)%nat /\
     (forall k, nth_error (modes sr) k =
                if Nat.ltb k i then nth_error (modes sd) k
                else nth_error (modes sd) (S k))).
Proof.
  split.
  - intros Hout. apply inRange_false in Hout.
    unfold setAmplitude, removeMode. rewrite Hout. split; reflexivity.
  - intros Hin. pose proof Hin as Hr. apply inRange_true in Hr.
    unfold setAmplitude, removeMode. rewrite Hr. cbn [fst snd modes baseRadius].
    assert (Hi : (Z.to_nat index < length (modes sd))%nat) by lia.
    repeat split.
    + apply assignAmplitude_length.
    + rewrite assignAmplitude_nth, Nat.eqb_refl.
      destruct (nth_error (modes sd) (Z.to_nat index)) as [m|] eqn:E.
      * reflexivity.
      * apply nth_error_None in E. lia.
    + intros k. apply assignAmplitude_nth.
    + apply splice1_length. exact Hi.
    + intros k. apply splice1_nth.
Qed.

Lemma setAmplitude_removeMode_by_index_witness :
  (setAmplitude sphere200 7 5%float = (sphere200, false) /\
   removeMode sphere200 (-1) = (sphere200, false)) /\
  snd (setAmplitude sphere200 2 5%float) = true /\
  length (modes (fst (removeMode sphere200 2))) = 6%nat.
Proof.
  split; [|split].
  - split.
    + apply (proj1 (setAmplitude_removeMode_by_index sphere200 7 5%float)).
      right. vm_compute. discriminate.
    + apply (proj1 (setAmplitude_removeMode_by_index sphere200 (-1) 5%float)).
      left. reflexivity.
  - apply (proj2 (setAmplitude_removeMode_by_index sphere200 2 5%float)).
    split; vm_compute; [discriminate | reflexivity].
  - apply (proj2 (setAmplitude_removeMode_by_index sphere200 2 5%float)).
    split; vm_compute; [discriminate | reflexivity].
Defined.

(** C8: [applyPreset(p)] replaces the amplitude of mode [i] by
    [p.amplitudes[i]] for every [i] below both the mode count and the length
    of [p.amplitudes], and changes nothing else: later amplitudes, the mode
    count, and the name, description, default amplitude and class (with its
    frequencies) of every mode stay; [getCurrentPreset] then returns the
    preset's values on the overwritten indices followed by the earlier
    amplitudes of the modes beyond. *)
Theorem applyPreset_overwrites_prefix (num : Type)
    (sd : ShapeDeformer num) (p : Preset num) (n : string) :
  let sd' := applyPreset sd p in
  let k := Nat.min (length (modes sd)) (length (amplitudes p)) in
  baseRadius sd' = baseRadius sd /\
  length (modes sd') = length (modes sd) /\
  (forall i m, nth_error (modes sd) i = Some m ->
     exists m', nth_error (modes sd') i = Some m' /\
       name m' = name m /\ description m' = description m /\
       defaultAmplitude m' = defaultAmplitude m /\ class m' = class m /\
       amplitude m' = match nth_error (amplitudes p) i with
                      | Some a => a
                      | None => amplitude m
                      end) /\
  (forall i, (i < k)%nat ->
     option_map amplitude (nth_error (modes sd') i) = nth_error (amplitudes p) i) /\
  (forall i, (k <= i)%nat ->
     nth_error (modes sd') i = nth_error (modes sd) i) /\
  amplitudes (getCurrentPreset sd' n) =
    firstn k (amplitudes p) ++ skipn k (map amplitude (modes sd)) /\
  presetName (getCurrentPreset sd' n) = n.
Proof.
  intros sd' k.
  assert (Hnth : forall i, nth_error (modes sd') i =
            match nth_error (modes sd) i with
            | Some m => Some match nth_error (amplitudes p) i with
                             | Some a => withAmplitude m a
                             | None => m
                             end
            | None => None
            end).
  { intros i. unfold sd', applyPreset. cbn [modes].
    rewrite applyPresetFrom_nth by lia. reflexivity. }
  assert (Hlen : length (modes sd') = length (modes sd)).
  { destruct (Nat.lt_trichotomy (length (modes sd')) (length (modes sd)))
      as [Hlt|[Heq|Hgt]]; [exfalso | exact Heq | exfalso].
    - pose proof (Hnth (length (modes sd'))) as E.
      destruct (nth_error (modes sd) (length (modes sd'))) eqn:E1.
      + assert (nth_error (modes sd') (length (modes sd')) = None)
          by (apply nth_error_None; lia).
        congruence.
      + apply nth_error_None in E1. lia.
    - pose proof (Hnth (length (modes sd))) as E.
      replace (nth_error (modes sd) (length (modes sd)))
        with (@None (DeformationMode num)) in E
        by (symmetry; apply nth_error_None; lia).
      apply nth_error_None in E. lia. }
  split; [reflexivity|]. split; [exact Hlen|].
  split; [|split; [|split; [|split]]].
  - intros i m Hm. rewrite Hnth, Hm.
    destruct (nth_error (amplitudes p) i) as [a|];
      eexists; split; try reflexivity; repeat split; reflexivity.
  - intros i Hi. rewrite Hnth.
    destruct (nth_error (modes sd) i) as [m|] eqn:Em;
      [|apply nth_error_None in Em; lia].
    destruct (nth_error (amplitudes p) i) as [a|] eqn:Ea;
      [reflexivity | apply nth_error_None in Ea; lia].
  - intros i Hi. rewrite Hnth.
    destruct (nth_error (modes sd) i) as [m|] eqn:Em; [|reflexivity].
    assert (i < length (modes sd))%nat by (apply nth_error_Some; congruence).
    replace (nth_error (amplitudes p) i) with (@None num)
      by (symmetry; apply nth_error_None; lia).
    reflexivity.
  - cbn [getCurrentPreset amplitudes]. apply nth_error_ext. intros i.
    rewrite nth_error_map, Hnth.
    destruct (Nat.lt_ge_cases i k) as [Hi|Hi].
    + rewrite nth_error_app1
        by (rewrite length_firstn; fold k; lia).
      rewrite nth_error_firstn.
      replace (Nat.ltb i k) with true by (symmetry; apply Nat.ltb_lt; lia).
      destruct (nth_error (modes sd) i) as [m|] eqn:Em;
        [|apply nth_error_None in Em; lia].
      destruct (nth_error (amplitudes p) i) as [a|] eqn:Ea;
        [reflexivity | apply nth_error_None in Ea; lia].
    + assert (Hf : length (firstn k (amplitudes p)) = k)
        by (rewrite length_firstn; lia).
      rewrite nth_error_app2 by lia. rewrite Hf.
      rewrite nth_error_skipn, nth_error_map.
      replace (k + (i - k))%nat with i by lia.
      destruct (nth_error (modes sd) i) as [m|] eqn:Em; [|reflexivity].
      assert (i < length (modes sd))%nat by (apply nth_error_Some; congruence).
      replace (nth_error (amplitudes p) i) with (@None num)
        by (symmetry; apply nth_error_None; lia).
      reflexivity.
  - reflexivity.
Qed.

(** ** Facts of the two number types *)

Module ExactFacts.
Import Exact.

Lemma Reqb_true a b : a = b -> Reqb a b = true.
Proof. intros E. unfold Reqb. destruct (Req_dec_T a b); congruence. Qed.

Lemma Reqb_false a b : a <> b -> Reqb a b = false.
Proof. intros E. unfold Reqb. destruct (Req_dec_T a b); congruence. Qed.

Lemma Rltb_true a b : (a < b)%R -> Rltb a b = true.
Proof. intros E. unfold Rltb. destruct (Rlt_dec a b); tauto. Qed.

Lemma Rltb_false a b : (b <= a)%R -> Rltb a b = false.
Proof. intros E. unfold Rltb. destruct (Rlt_dec a b); [lra | reflexivity]. Qed.

Lemma xadd_NaN_r x : xadd x NaN = NaN.
Proof. destruct x; reflexivity. Qed.

Lemma xmul_NaN_r x : xmul x NaN = NaN.
Proof. destruct x; reflexivity. Qed.

Lemma xdiv_NaN_r x : xdiv x NaN = NaN.
Proof. destruct x; reflexivity. Qed.

Lemma xdiv_zero_zero : xdiv (Fin 0) (Fin 0) = NaN.
Proof. simpl. rewrite !Reqb_true; reflexivity. Qed.

Lemma xdiv_nonzero a b : b <> 0%R -> xdiv (Fin a) (Fin b) = Fin (a / b).
Proof. intros Hb. simpl. rewrite (Reqb_false Hb). reflexivity. Qed.

Lemma xadd_comm x y : xadd x y = xadd y x.
Proof.
  destruct x as [a|[]|], y as [b|[]|]; simpl; try reflexivity.
  f_equal. ring.
Qed.

Lemma xadd_assoc x y z : xadd x (xadd y z) = xadd (xadd x y) z.
Proof.
  destruct x as [a|[]|], y as [b|[]|], z as [c|[]|]; simpl; try reflexivity.
  f_equal. ring.
Qed.

End ExactFacts.

(** ** [createDeformedSphere]: the shape of the grid *)

Section Grid.
Context {num : Type} {arith : JsArith num} {math : JsMath num}.

Lemma upTo_length n : length (upTo n) = Z.to_nat (n + 1).
Proof. unfold upTo. rewrite length_map, length_seq. reflexivity. Qed.

Lemma upTo_negative n : (n < 0)%Z -> upTo n = [].
Proof.
  intros Hn. unfold upTo. replace (Z.to_nat (n + 1)) with O by lia.
  reflexivity.
Qed.

Lemma upTo_nth n k :
  (k < Z.to_nat (n + 1))%nat -> nth_error (upTo n) k = Some (Z.of_nat k).
Proof.
  intros Hk. unfold upTo. rewrite nth_error_map.
  rewrite nth_error_seq.
  replace (Nat.ltb k (Z.to_nat (n + 1))) with true
    by (symmetry; apply Nat.ltb_lt; exact Hk).
  reflexivity.
Qed.

Lemma upTo_zero : upTo 0 = [0%Z].
Proof. reflexivity. Qed.

Lemma createDeformedSphere_rows (sd : ShapeDeformer num) nT nP :
  length (createDeformedSphere sd nT nP) = Z.to_nat (nP + 1).
Proof. unfold createDeformedSphere. rewrite length_map. apply upTo_length. Qed.

Lemma createDeformedSphere_columns (sd : ShapeDeformer num) nT nP row :
  In row (createDeformedSphere sd nT nP) -> length row = Z.to_nat (nT + 1).
Proof.
  unfold createDeformedSphere. rewrite in_map_iff.
  intros [j [<- _]]. rewrite length_map. apply upTo_length.
Qed.

Lemma createDeformedSphere_at (sd : ShapeDeformer num) nT nP j i :
  (j < Z.to_nat (nP + 1))%nat -> (i < Z.to_nat (nT + 1))%nat ->
  at2 (createDeformedSphere sd nT nP) j i =
  Some (spherePoint sd
          (div (mul (mul (ofZ (Z.of_nat i)) (ofZ 2)) Math_PI) (ofZ nT))
          (div (mul (ofZ (Z.of_nat j)) Math_PI) (ofZ nP))).
Proof.
  intros Hj Hi. unfold at2, createDeformedSphere.
  rewrite nth_error_map, (upTo_nth _ Hj). cbn [option_map].
  rewrite nth_error_map, (upTo_nth _ Hi). reflexivity.
Qed.

End Grid.

Section DegenerateResolution.
Import Exact ExactFacts.
Local Open Scope js_scope.

Lemma phi_zero_resolution (j : Z) :
  j = 0%Z -> ofZ j * Math_PI / ofZ 0 = NaN.
Proof.
  intros ->. cbn. rewrite !Reqb_true; [reflexivity | ring | reflexivity].
Qed.

Lemma theta_zero_resolution (i : Z) :
  i = 0%Z -> ofZ i * ofZ 2 * Math_PI / ofZ 0 = NaN.
Proof.
  intros ->. cbn. rewrite !Reqb_true; [reflexivity | ring | reflexivity].
Qed.

Lemma spherePoint_phi_NaN (sd : ShapeDeformer xreal) theta :
  spherePoint sd theta NaN = nanPoint.
Proof.
  unfold spherePoint, nanPoint. cbn. rewrite !xmul_NaN_r. reflexivity.
Qed.

Lemma spherePoint_theta_NaN (sd : ShapeDeformer xreal) phi :
  px (spherePoint sd NaN phi) = NaN /\ py (spherePoint sd NaN phi) = NaN.
Proof.
  unfold spherePoint. cbn. rewrite !xmul_NaN_r. split; reflexivity.
Qed.

(** With [numPointsPhi = 0] the one row is made of NaN points: its angle
    is [0 * Math.PI / 0]. *)
Lemma createDeformedSphere_phi_resolution_0 (sd : ShapeDeformer xreal) nT :
  createDeformedSphere sd nT 0 = [map (fun _ => nanPoint) (upTo nT)].
Proof.
  unfold createDeformedSphere. rewrite upTo_zero. cbn [map]. f_equal.
  apply map_ext. intros i.
  rewrite (phi_zero_resolution eq_refl). apply spherePoint_phi_NaN.
Qed.

Lemma createDeformedSphere_negative_phi (sd : ShapeDeformer xreal) nT nP :
  (nP < 0)%Z -> createDeformedSphere sd nT nP = [].
Proof.
  intros Hn. unfold createDeformedSphere. rewrite (upTo_negative Hn).
  reflexivity.
Qed.

Lemma createDeformedSphere_negative_theta (sd : ShapeDeformer xreal) nT nP :
  (nT < 0)%Z ->
  createDeformedSphere sd nT nP = map (fun _ => []) (upTo nP).
Proof.
  intros Hn. unfold createDeformedSphere. rewrite (upTo_negative Hn).
  reflexivity.
Qed.

End DegenerateResolution.

(** ** [projectPoint]: the perspective divide *)

(** C1, as stated, fails.  At depth 1000 a rotated point with [z = -1] has
    [scale = 1 + (-1) * (1000 / 1000) = 0]; [projectPoint] divides by it:
    the point (1, 1, -1) is sent to (Infinity, Infinity), the point
    (0, -1, -1) to (NaN, -Infinity). *)
Lemma projectPoint_zero_scale_not_finite :
  projectPoint renderer800x600 (mkPoint 1%float 1%float (-1)%float) 1000%float
    = mkPoint infinity infinity (-1)%float /\
  Ieee.isFinite infinity = false /\
  Ieee.isNaN
    (px (projectPoint renderer800x600
           (mkPoint 0%float (-1)%float (-1)%float) 1000%float)) = true /\
  py (projectPoint renderer800x600
        (mkPoint 0%float (-1)%float (-1)%float) 1000%float) = neg_infinity.
Proof. vm_compute. repeat split; reflexivity. Qed.

(** C1 (as the code has it): [projectPoint] computes
    [scale = 1 + z * (depth / 1000)] and divides by it with no guard and no
    clamp.  On finite numbers, when [scale] is not 0 the result is
    [(width/2 + x/scale, height/2 + y/scale, z)]; when [scale] is 0 neither
    projected coordinate is finite (each is an infinity or NaN); [z] is
    passed through in both cases. *)
Theorem projectPoint_unguarded_division
    (sd : ShapeDeformer Exact.xreal) (light : Point Exact.xreal)
    (w h x y z depth : R) :
  let this := mkRenderer (mkCanvas (Exact.Fin w) (Exact.Fin h)) sd light in
  let scale := (1 + z * (depth / 1000))%R in
  let q := projectPoint this
             (mkPoint (Exact.Fin x) (Exact.Fin y) (Exact.Fin z))
             (Exact.Fin depth) in
  pz q = Exact.Fin z /\
  (scale <> 0%R ->
   q = mkPoint (Exact.Fin (w / 2 + x / scale)) (Exact.Fin (h / 2 + y / scale))
               (Exact.Fin z)) /\
  (scale = 0%R ->
   Exact.isFinite (px q) = false /\ Exact.isFinite (py q) = false).
Proof.
  intros this scale q. split; [reflexivity|].
  assert (H2 : (2 <> 0)%R) by lra.
  assert (H1000 : (1000 <> 0)%R) by lra.
  unfold q, projectPoint. cbn.
  rewrite (ExactFacts.Reqb_false H2), (ExactFacts.Reqb_false H1000).
  cbn. fold scale. split.
  - intros Hs. rewrite (ExactFacts.Reqb_false Hs). reflexivity.
  - intros Hs. rewrite (ExactFacts.Reqb_true Hs).
    destruct (Exact.Reqb x 0), (Exact.Reqb y 0); split; reflexivity.
Qed.

Lemma projectPoint_unguarded_division_witness :
  projectPoint
    (mkRenderer (mkCanvas (Exact.Fin 800) (Exact.Fin 600)) exactSphere200
                (mkPoint (Exact.Fin 0) (Exact.Fin 0) (Exact.Fin 1)))
    (mkPoint (Exact.Fin 1) (Exact.Fin 1) (Exact.Fin 1)) (Exact.Fin 1000)
  = mkPoint (Exact.Fin (800 / 2 + 1 / (1 + 1 * (1000 / 1000))))
            (Exact.Fin (600 / 2 + 1 / (1 + 1 * (1000 / 1000))))
            (Exact.Fin 1) /\
  Exact.isFinite
    (px (projectPoint
           (mkRenderer (mkCanvas (Exact.Fin 800) (Exact.Fin 600)) exactSphere200
                       (mkPoint (Exact.Fin 0) (Exact.Fin 0) (Exact.Fin 1)))
           (mkPoint (Exact.Fin 1) (Exact.Fin 1) (Exact.Fin (-1)))
           (Exact.Fin 1000))) = false.
Proof.
  split.
  - apply (projectPoint_unguarded_division exactSphere200
             (mkPoint (Exact.Fin 0) (Exact.Fin 0) (Exact.Fin 1))
             800 600 1 1 1 1000).
    lra.
  - apply (projectPoint_unguarded_division exactSphere200
             (mkPoint (Exact.Fin 0) (Exact.Fin 0) (Exact.Fin 1))
             800 600 1 1 (-1) 1000).
    lra.
Defined.

(** ** [calculateLighting]: the palette *)

Section Lighting.
Import Exact ExactFacts.

Lemma Rmax_tenth_one : Rmax (1 / 10) 1 = 1%R.
Proof. apply Rmax_right. lra. Qed.

Lemma Rmax_tenth_minus_one : Rmax (1 / 10) (-1) = (1 / 10)%R.
Proof. apply Rmax_left. lra. Qed.

Lemma Zfloor_at (z : Z) (x : R) :
  (IZR z <= x < IZR z + 1)%R -> IZR (Zfloor x) = IZR z.
Proof. intros Hx. f_equal. apply Zfloor_eq. exact Hx. Qed.

(** [calculateLighting] on finite numbers. *)
Lemma calculateLighting_finite (cv : Canvas xreal) (sd : ShapeDeformer xreal)
    (nx ny nz lx ly lz : R) :
  calculateLighting
    (mkRenderer cv sd (mkPoint (Fin lx) (Fin ly) (Fin lz)))
    (mkPoint (Fin nx) (Fin ny) (Fin nz)) =
  let i := Rmax (1 / 10) (nx * lx + ny * ly + nz * lz) in
  rgb (Fin (IZR (Zfloor (40 * i))))
      (Fin (IZR (Zfloor (120 * i))))
      (Fin (IZR (Zfloor (120 + 135 * i)))).
Proof. reflexivity. Qed.

Lemma calculateLighting_dot_one (cv : Canvas xreal) (sd : ShapeDeformer xreal)
    (nx ny nz lx ly lz : R) :
  (nx * lx + ny * ly + nz * lz = 1)%R ->
  calculateLighting
    (mkRenderer cv sd (mkPoint (Fin lx) (Fin ly) (Fin lz)))
    (mkPoint (Fin nx) (Fin ny) (Fin nz)) =
  rgb (Fin 40) (Fin 120) (Fin 255).
Proof.
  intros Hd. rewrite calculateLighting_finite. cbv zeta.
  rewrite Hd, Rmax_tenth_one.
  rewrite (Zfloor_at 40), (Zfloor_at 120), (Zfloor_at 255) by lra.
  reflexivity.
Qed.

Lemma calculateLighting_dot_minus_one (cv : Canvas xreal)
    (sd : ShapeDeformer xreal) (nx ny nz lx ly lz : R) :
  (nx * lx + ny * ly + nz * lz = -1)%R ->
  calculateLighting
    (mkRenderer cv sd (mkPoint (Fin lx) (Fin ly) (Fin lz)))
    (mkPoint (Fin nx) (Fin ny) (Fin nz)) =
  rgb (Fin 4) (Fin 12) (Fin 133).
Proof.
  intros Hd. rewrite calculateLighting_finite. cbv zeta.
  rewrite Hd, Rmax_tenth_minus_one.
  rewrite (Zfloor_at 4), (Zfloor_at 12), (Zfloor_at 133) by lra.
  reflexivity.
Qed.

(** Dividing a non-zero vector by its length gives a vector of length 1. *)
Lemma unit_after_division (a b c : R) :
  (a * a + b * b + c * c <> 0)%R ->
  (0 < R_sqrt.sqrt (a * a + b * b + c * c))%R /\
  (a / R_sqrt.sqrt (a * a + b * b + c * c)
   * (a / R_sqrt.sqrt (a * a + b * b + c * c))
   + b / R_sqrt.sqrt (a * a + b * b + c * c)
     * (b / R_sqrt.sqrt (a * a + b * b + c * c))
   + c / R_sqrt.sqrt (a * a + b * b + c * c)
     * (c / R_sqrt.sqrt (a * a + b * b + c * c)) = 1)%R.
Proof.
  intros Hs. set (s := (a * a + b * b + c * c)%R) in *.
  assert (Hpos : (0 < s)%R) by (unfold s in *; nra).
  assert (HL : (0 < R_sqrt.sqrt s)%R) by (apply sqrt_lt_R0; exact Hpos).
  split; [exact HL|].
  assert (Hsq : (R_sqrt.sqrt s * R_sqrt.sqrt s = s)%R)
    by (apply sqrt_sqrt; lra).
  set (L := R_sqrt.sqrt s) in *.
  replace (a / L * (a / L) + b / L * (b / L) + c / L * (c / L))%R
    with ((a * a + b * b + c * c) / (L * L))%R by (field; lra).
  fold s. rewrite Hsq. field. lra.
Qed.

(** The stored light vector has length 1. *)
Lemma normalizeLightDirection_unit (x y z : R) :
  (x * x + y * y + z * z <> 0)%R ->
  exists lx ly lz : R,
    normalizeLightDirection (mkPoint (Fin x) (Fin y) (Fin z)) =
      mkPoint (Fin lx) (Fin ly) (Fin lz) /\
    (lx * lx + ly * ly + lz * lz = 1)%R.
Proof.
  intros Hs. destruct (@unit_after_division x y z Hs) as [HL Hu].
  unfold normalizeLightDirection, sq. cbn.
  assert (Hpos : (0 <= x * x + y * y + z * z)%R) by nra.
  rewrite Rltb_false by exact Hpos.
  rewrite Reqb_false by lra.
  do 3 eexists. split; [reflexivity | exact Hu].
Qed.

End Lighting.

(** In doubles: the two colours, from the value of the dot product. *)
Lemma calculateLighting_doubles_dot (this : Renderer Ieee.float)
    (normal : Point Ieee.float) :
  let dot :=
    add (add (mul (px normal) (px (lightDir this)))
             (mul (py normal) (py (lightDir this))))
        (mul (pz normal) (pz (lightDir this))) in
  (dot = 1%float ->
   calculateLighting this normal = rgb 40%float 120%float 255%float) /\
  (dot = (-1)%float ->
   calculateLighting this normal = rgb 4%float 12%float 133%float).
Proof.
  intros dot. unfold calculateLighting. cbv zeta. fold dot.
  split; intros ->; vm_compute; reflexivity.
Qed.

(** *** Comparisons of doubles *)

Lemma compare_cont_flip (m n : positive) :
  Pos.compare_cont Eq n m = CompOpp (Pos.compare_cont Eq m n).
Proof. rewrite Pos.compare_cont_antisym. reflexivity. Qed.

Lemma SFeqb_refl (f : spec_float) : f <> S754_nan -> SFeqb f f = true.
Proof.
  unfold SFeqb. destruct f as [s|s| |s m e]; cbn; try reflexivity.
  - destruct s; reflexivity.
  - intros H. exfalso. apply H. reflexivity.
  - rewrite Z.compare_refl, Pos.compare_cont_refl. destruct s; reflexivity.
Qed.

(** [x < y] on doubles: [x] is not NaN and [y < x] is false. *)
Lemma SFltb_asym (f g : spec_float) :
  SFltb f g = true -> SFeqb f f = true /\ SFltb g f = false.
Proof.
  intros H. split.
  - apply SFeqb_refl. intros ->. discriminate.
  - revert H. unfold SFltb.
    destruct f as [sf|sf| |sf mf ef], g as [sg|sg| |sg mg eg]; cbn;
      try discriminate; try reflexivity;
      try (destruct sf; try discriminate; reflexivity);
      try (destruct sg; try discriminate; reflexivity);
      try (destruct sf, sg; try discriminate; reflexivity).
    rewrite (Z.compare_antisym ef eg), (compare_cont_flip mf mg).
    destruct sf, sg; try discriminate; try reflexivity;
      destruct (Z.compare ef eg); cbn; try discriminate; try reflexivity;
      destruct (Pos.compare_cont Eq mf mg); cbn; try discriminate; reflexivity.
Qed.

(** [Math.max(0.1, d)] is 0.1 for every double [d] below 0.1. *)
Lemma float_max_clamps (d : Ieee.float) :
  PrimFloat.ltb d (@lit_0_1 _ Ieee.float_arith) = true ->
  Ieee.float_max (@lit_0_1 _ Ieee.float_arith) d = @lit_0_1 _ Ieee.float_arith.
Proof.
  intros H. pose proof H as H'.
  rewrite FloatAxioms.ltb_spec in H'. apply SFltb_asym in H'.
  destruct H' as [He Hl].
  rewrite <- FloatAxioms.eqb_spec in He. rewrite <- FloatAxioms.ltb_spec in Hl.
  unfold Ieee.float_max.
  replace (Ieee.isNaN lit_0_1) with false by reflexivity.
  unfold Ieee.isNaN. rewrite He. cbn [negb]. rewrite Hl, H. reflexivity.
Qed.

(** In doubles a computed dot product below 0.1 gives the clamped colour. *)
Lemma calculateLighting_doubles_clamped (this : Renderer Ieee.float)
    (normal : Point Ieee.float) :
  lt (add (add (mul (px normal) (px (lightDir this)))
               (mul (py normal) (py (lightDir this))))
          (mul (pz normal) (pz (lightDir this)))) lit_0_1 = true ->
  calculateLighting this normal = rgb 4%float 12%float 133%float.
Proof.
  intros H. unfold calculateLighting. cbv zeta.
  cbn [Math_max Ieee.float_arith]. rewrite (@float_max_clamps _ H).
  vm_compute. reflexivity.
Qed.

(** In exact arithmetic a dot product up to 0.1 gives the clamped colour. *)
Lemma calculateLighting_clamped (cv : Canvas Exact.xreal)
    (sd : ShapeDeformer Exact.xreal) (nx ny nz lx ly lz : R) :
  (nx * lx + ny * ly + nz * lz <= 1 / 10)%R ->
  calculateLighting
    (mkRenderer cv sd (mkPoint (Exact.Fin lx) (Exact.Fin ly) (Exact.Fin lz)))
    (mkPoint (Exact.Fin nx) (Exact.Fin ny) (Exact.Fin nz)) =
  rgb (Exact.Fin 4) (Exact.Fin 12) (Exact.Fin 133).
Proof.
  intros Hd. rewrite calculateLighting_finite. cbv zeta.
  rewrite Rmax_left by exact Hd.
  rewrite (Zfloor_at 4), (Zfloor_at 12), (Zfloor_at 133) by lra.
  reflexivity.
Qed.




(** The stored default light and its dot product with itself, in doubles;
    the opposite normal gets the clamped colour. *)
Example default_light_doubles :
  lightDir renderer800x600 =
    mkPoint 0x1.014a2883c8175p-1%float (-0x1.014a2883c8175p-1)%float
            0x1.68349f1ee4ed6p-1%float /\
  add (add (mul (px (lightDir renderer800x600)) (px (lightDir renderer800x600)))
           (mul (py (lightDir renderer800x600)) (py (lightDir renderer800x600))))
      (mul (pz (lightDir renderer800x600)) (pz (lightDir renderer800x600)))
    = 0x1.fffffffffffffp-1%float /\
  calculateLighting renderer800x600
    (mkPoint (neg (px (lightDir renderer800x600)))
             (neg (py (lightDir renderer800x600)))
             (neg (pz (lightDir renderer800x600))))
    = rgb 4%float 12%float 133%float.
Proof. vm_compute. repeat split; reflexivity. Qed.

(** The same two colours computed in doubles, with the light along [z]. *)
Example calculateLighting_doubles :
  let this := setLightDirection renderer800x600 0%float 0%float 2%float in
  calculateLighting this (mkPoint 0%float 0%float 1%float)
    = rgb 40%float 120%float 255%float /\
  calculateLighting this (mkPoint 0%float 0%float (-1)%float)
    = rgb 4%float 12%float 133%float.
Proof. vm_compute. split; reflexivity. Qed.

(** ** [HarmonicMode.applyDeformation]: periodicity in [theta] *)

Section Harmonic.
Import Exact ExactFacts.

Lemma sin_shift_nat (x : R) (n : nat) : sin (x + 2 * INR n * PI) = sin x.
Proof. apply sin_period. Qed.

(** [sin (k (t + 2 pi)) = sin (k t)] for an integer [k]. *)
Lemma sin_integer_frequency (k : Z) (t : R) :
  sin (IZR k * (t + 2 * PI)) = sin (IZR k * t).
Proof.
  destruct (Z_le_gt_dec 0 k) as [Hk|Hk].
  - rewrite <- (sin_shift_nat (IZR k * t) (Z.to_nat k)).
    f_equal. rewrite INR_IZR_INZ, Z2Nat.id by exact Hk. ring.
  - rewrite <- (sin_shift_nat (IZR k * (t + 2 * PI)) (Z.to_nat (- k))).
    f_equal. rewrite INR_IZR_INZ, Z2Nat.id by lia.
    rewrite opp_IZR. ring.
Qed.

End Harmonic.

(** C7, as stated, fails for a frequency that is not an integer: the mode
    with [thetaFreq = 1/2], [phiFreq = 1] and amplitude 1 gives 1 at
    [(pi, pi/2)] and -1 at [(pi + 2 pi, pi/2)]. *)
Lemma harmonic_half_frequency_not_periodic :
  applyDeformation halfWave (Exact.Fin PI) (Exact.Fin (PI / 2)) None
    = Exact.Fin 1 /\
  applyDeformation halfWave (add (Exact.Fin PI) (mul (ofZ 2) Math_PI))
    (Exact.Fin (PI / 2)) None = Exact.Fin (-1).
Proof.
  split; cbn; f_equal.
  - replace (1 / 2 * PI)%R with (PI / 2)%R by lra.
    replace (1 * (PI / 2))%R with (PI / 2)%R by lra.
    rewrite sin_PI2. ring.
  - replace (1 / 2 * (PI + 2 * PI))%R with (3 * (PI / 2))%R by lra.
    replace (1 * (PI / 2))%R with (PI / 2)%R by lra.
    rewrite sin_3PI2, sin_PI2. ring.
Qed.

(** C7 (amended): a harmonic mode whose [thetaFreq] is an integer is
    2 pi-periodic in [theta], for every amplitude, [phiFreq], [theta] and
    [phi], in exact arithmetic. *)
Theorem harmonic_integer_frequency_periodic
    (k : Z) (n d : string) (dflt amp phiFreq theta phi : Exact.xreal)
    (basePoint : option (Point Exact.xreal)) :
  let m := mkMode n d dflt amp (HarmonicMode (ofZ k) phiFreq) in
  applyDeformation m (add theta (mul (ofZ 2) Math_PI)) phi basePoint =
  applyDeformation m theta phi basePoint.
Proof.
  intros m. unfold m, applyDeformation. cbn [class amplitude].
  destruct theta as [t|s|]; cbn; try reflexivity.
  rewrite sin_integer_frequency. reflexivity.
Qed.

(** ** [createDeformedSphere]: the grid and the sphere invariant *)

Section SphereGrid.
Import Exact ExactFacts.
Local Open Scope js_scope.

Lemma xadd_0_r x : xadd x (Fin 0) = x.
Proof. destruct x as [a|s|]; simpl; try reflexivity. f_equal. ring. Qed.

Lemma fold_left_xsum (A : Type) (f : A -> xreal) (l : list A) (acc : xreal) :
  fold_left (fun total a => xadd total (f a)) l acc = xadd acc (xsum (map f l)).
Proof.
  revert acc; induction l as [|a l IH]; intros acc; simpl.
  - symmetry. apply xadd_0_r.
  - rewrite IH. symmetry. apply xadd_assoc.
Qed.

(** The loop over the modes adds up their contributions. *)
Lemma totalDeformation_sum (ms : list (DeformationMode xreal)) theta phi bp :
  totalDeformation ms theta phi bp =
  xsum (map (fun m => applyDeformation m theta phi (Some bp)) ms).
Proof.
  unfold totalDeformation.
  rewrite (fold_left_xsum (fun m => applyDeformation m theta phi (Some bp))).
  cbn. destruct (xsum _) as [a|s|]; simpl; try reflexivity. f_equal. ring.
Qed.

Lemma applyDeformation_atRest m (t p bx by_ bz : R) :
  atRest m ->
  applyDeformation m (Fin t) (Fin p)
    (Some (mkPoint (Fin bx) (Fin by_) (Fin bz))) = Fin 0.
Proof.
  intros [Ha Hc]. unfold applyDeformation. rewrite Ha.
  destruct (class m) as [|[a| |] [b| |]|[a| |] [b| |]| |[s| |]];
    try discriminate; cbn; f_equal; ring.
Qed.

Lemma totalDeformation_atRest ms (t p bx by_ bz : R) :
  Forall atRest ms ->
  totalDeformation ms (Fin t) (Fin p) (mkPoint (Fin bx) (Fin by_) (Fin bz))
  = Fin 0.
Proof.
  intros Hms. rewrite totalDeformation_sum.
  induction Hms as [|m ms Hm _ IH]; [reflexivity|].
  cbn [map]. unfold xsum in *. cbn [fold_right].
  rewrite IH, (applyDeformation_atRest _ _ _ _ _ Hm). simpl. f_equal. ring.
Qed.

(** The angles of grid entry [(j, i)] are finite when the resolutions are
    positive. *)
Lemma grid_phi (j nP : Z) :
  (1 <= nP)%Z -> ofZ j * Math_PI / ofZ nP = Fin (IZR j * PI / IZR nP).
Proof.
  intros Hn. cbn. rewrite Reqb_false; [reflexivity|].
  apply not_0_IZR. lia.
Qed.

Lemma grid_theta (i nT : Z) :
  (1 <= nT)%Z ->
  ofZ i * ofZ 2 * Math_PI / ofZ nT = Fin (IZR i * 2 * PI / IZR nT).
Proof.
  intros Hn. cbn. rewrite Reqb_false; [reflexivity|].
  apply not_0_IZR. lia.
Qed.

Lemma unit_direction (t p : R) :
  ((sin p * cos t) * (sin p * cos t) + (sin p * sin t) * (sin p * sin t)
   + cos p * cos p = 1)%R.
Proof.
  pose proof (sin2_cos2 t) as Ht. pose proof (sin2_cos2 p) as Hp.
  unfold Rsqr in Ht, Hp.
  replace ((sin p * cos t) * (sin p * cos t) + (sin p * sin t) * (sin p * sin t)
           + cos p * cos p)%R
    with (sin p * sin p * (sin t * sin t + cos t * cos t) + cos p * cos p)%R
    by ring.
  rewrite Ht. lra.
Qed.

(** An undeformed sample lies on the sphere of radius [R]. *)
Lemma spherePoint_atRest (sd : ShapeDeformer xreal) (R0 t p : R) :
  baseRadius sd = Fin R0 -> Forall atRest (modes sd) ->
  spherePoint sd (Fin t) (Fin p) =
  mkPoint (Fin (R0 * (sin p * cos t))) (Fin (R0 * (sin p * sin t)))
          (Fin (R0 * cos p)).
Proof.
  intros HR Hms. unfold spherePoint. cbn.
  rewrite (totalDeformation_atRest _ _ _ _ _ Hms), HR. cbn.
  rewrite Rplus_0_r. reflexivity.
Qed.

End SphereGrid.

Lemma exactSphere200_atRest : Forall atRest (modes exactSphere200).
Proof. repeat constructor. Qed.

(** C3 (amended): for [numPointsTheta >= 1] and [numPointsPhi >= 1],
    [createDeformedSphere] returns [numPointsPhi + 1] rows of
    [numPointsTheta + 1] points, and entry [(j, i)] is
    [(R + sum of mode.applyDeformation(theta, phi, basePoint)) * basePoint]
    with [phi = j pi / numPointsPhi], [theta = i 2 pi / numPointsTheta] and
    [basePoint = (sin phi cos theta, sin phi sin theta, cos phi)]; this holds
    for every number type, so for doubles as computed.  In exact arithmetic,
    when every mode is at amplitude 0 (and the numbers are finite) every
    entry satisfies [x^2 + y^2 + z^2 = R^2], so it lies at distance [R] from
    the origin for [R >= 0]; in doubles the distance is [R] up to rounding
    only. *)
Theorem createDeformedSphere_grid
    (sd : ShapeDeformer Exact.xreal) (nT nP : Z) :
  (1 <= nT)%Z -> (1 <= nP)%Z ->
  let g := createDeformedSphere sd nT nP in
  length g = Z.to_nat (nP + 1) /\
  Forall (fun row => length row = Z.to_nat (nT + 1)) g /\
  (forall j i : Z, (0 <= j <= nP)%Z -> (0 <= i <= nT)%Z ->
     let phi := (IZR j * PI / IZR nP)%R in
     let theta := (IZR i * 2 * PI / IZR nT)%R in
     let basePoint :=
       mkPoint (Exact.Fin (sin phi * cos theta))
               (Exact.Fin (sin phi * sin theta))
               (Exact.Fin (cos phi)) in
     let r :=
       add (baseRadius sd)
           (xsum (map (fun m => applyDeformation m (Exact.Fin theta)
                                  (Exact.Fin phi) (Some basePoint))
                      (modes sd))) in
     at2 g (Z.to_nat j) (Z.to_nat i) =
     Some (mkPoint (mul r (px basePoint)) (mul r (py basePoint))
                   (mul r (pz basePoint)))) /\
  (forall R0 : R, baseRadius sd = Exact.Fin R0 -> Forall atRest (modes sd) ->
     forall j i : Z, (0 <= j <= nP)%Z -> (0 <= i <= nT)%Z ->
     exists x y z : R,
       at2 g (Z.to_nat j) (Z.to_nat i) =
         Some (mkPoint (Exact.Fin x) (Exact.Fin y) (Exact.Fin z)) /\
       (x * x + y * y + z * z = R0 * R0)%R /\
       ((0 <= R0)%R -> R_sqrt.sqrt (x * x + y * y + z * z) = R0)) /\
  (forall (num : Type) (arith : JsArith num) (math : JsMath num)
          (deformer : ShapeDeformer num),
     let grid := createDeformedSphere deformer nT nP in
     length grid = Z.to_nat (nP + 1) /\
     Forall (fun row => length row = Z.to_nat (nT + 1)) grid /\
     forall j i : Z, (0 <= j <= nP)%Z -> (0 <= i <= nT)%Z ->
       let phi := div (mul (ofZ j) Math_PI) (ofZ nP) in
       let theta := div (mul (mul (ofZ i) (ofZ 2)) Math_PI) (ofZ nT) in
       let basePoint :=
         mkPoint (mul (Math_sin phi) (Math_cos theta))
                 (mul (Math_sin phi) (Math_sin theta))
                 (Math_cos phi) in
       let r :=
         add (baseRadius deformer)
             (fold_left
                (fun total mode =>
                   add total (applyDeformation mode theta phi (Some basePoint)))
                (modes deformer) (ofZ 0)) in
       at2 grid (Z.to_nat j) (Z.to_nat i) =
       Some (mkPoint (mul r (px basePoint)) (mul r (py basePoint))
                     (mul r (pz basePoint)))).
Proof.
  intros HT HP g.
  assert (Hat : forall j i : Z, (0 <= j <= nP)%Z -> (0 <= i <= nT)%Z ->
            at2 g (Z.to_nat j) (Z.to_nat i) =
            Some (spherePoint sd (Exact.Fin (IZR i * 2 * PI / IZR nT))
                                 (Exact.Fin (IZR j * PI / IZR nP)))).
  { intros j i Hj Hi. unfold g.
    rewrite createDeformedSphere_at by lia.
    rewrite !Z2Nat.id by lia.
    rewrite (grid_theta i HT), (grid_phi j HP). reflexivity. }
  split; [apply createDeformedSphere_rows|].
  split; [apply Forall_forall; intros row; apply createDeformedSphere_columns|].
  split; [|split].
  - intros j i Hj Hi. cbv zeta. rewrite (Hat j i Hj Hi).
    unfold spherePoint. cbv zeta. rewrite totalDeformation_sum. reflexivity.
  - intros R0 HR Hms j i Hj Hi.
    rewrite (Hat j i Hj Hi), (spherePoint_atRest _ _ _ HR Hms).
    set (t := (IZR i * 2 * PI / IZR nT)%R).
    set (p := (IZR j * PI / IZR nP)%R).
    exists (R0 * (sin p * cos t))%R, (R0 * (sin p * sin t))%R, (R0 * cos p)%R.
    split; [reflexivity|].
    assert (Hsq : (R0 * (sin p * cos t) * (R0 * (sin p * cos t)) +
                   R0 * (sin p * sin t) * (R0 * (sin p * sin t)) +
                   R0 * cos p * (R0 * cos p) = R0 * R0)%R).
    { replace (R0 * (sin p * cos t) * (R0 * (sin p * cos t)) +
               R0 * (sin p * sin t) * (R0 * (sin p * sin t)) +
               R0 * cos p * (R0 * cos p))%R
        with (R0 * R0 * ((sin p * cos t) * (sin p * cos t)
                         + (sin p * sin t) * (sin p * sin t)
                         + cos p * cos p))%R by ring.
      rewrite unit_direction. ring. }
    split; [exact Hsq|].
    intros H0. rewrite Hsq. apply sqrt_square. exact H0.
  - intros num arith math deformer grid.
    split; [apply createDeformedSphere_rows|].
    split; [apply Forall_forall; intros row; apply createDeformedSphere_columns|].
    intros j i Hj Hi. cbv zeta. unfold grid.
    rewrite createDeformedSphere_at by lia.
    rewrite !Z2Nat.id by lia. reflexivity.
Qed.

Lemma createDeformedSphere_grid_witness :
  length (createDeformedSphere exactSphere200 4 2) = 3%nat /\
  Forall (fun row => length row = 5%nat)
         (createDeformedSphere exactSphere200 4 2) /\
  exists x y z : R,
    at2 (createDeformedSphere exactSphere200 4 2) 1 3 =
      Some (mkPoint (Exact.Fin x) (Exact.Fin y) (Exact.Fin z)) /\
    (x * x + y * y + z * z = 200 * 200)%R.
Proof.
  assert (HT : (1 <= 4)%Z) by lia.
  assert (HP : (1 <= 2)%Z) by lia.
  destruct (createDeformedSphere_grid exactSphere200 HT HP)
    as [Hrows [Hcols [_ [Hsphere _]]]].
  split; [exact Hrows|]. split; [exact Hcols|].
  destruct (Hsphere 200%R eq_refl exactSphere200_atRest 1%Z 3%Z)
    as [x [y [z [Hat [Hsq _]]]]]; try lia.
  exists x, y, z. split; [exact Hat | exact Hsq].
Defined.

Section SphereInDoubles.
#[local] Existing Instance sampledMath.

(** C3, as stated, fails in doubles: a point of the undeformed sphere is not
    at distance exactly [R].  With the seven default modes at amplitude 0
    and [R = 200], entry (1, 0) of the grid of resolution (40, 20) is
    (31.286893008046174, 0, 197.53766811902756).  Its squared norm computed
    in doubles is 40000.000000000007 and the square root of that
    200.00000000000003; computed exactly, the squared norm of these three
    doubles, in units of [2^-96], exceeds that of 200. *)
Lemma createDeformedSphere_doubles_off_sphere :
  baseRadius sphere200 = 200%float /\
  map amplitude (modes sphere200) =
    [0%float; 0%float; 0%float; 0%float; 0%float; 0%float; 0%float] /\
  at2 (createDeformedSphere sphere200 40 20) 1 0 =
    Some (mkPoint 0x1.f4971d1f70267p+4%float 0%float
                  0x1.8b13493c56a68p+7%float) /\
  add (add (sq 0x1.f4971d1f70267p+4%float) (sq 0%float))
      (sq 0x1.8b13493c56a68p+7%float) = 0x1.3880000000001p+15%float /\
  Math_sqrt 0x1.3880000000001p+15%float = 0x1.9000000000001p+7%float /\
  PrimFloat.eqb 0x1.9000000000001p+7%float 200%float = false /\
  exactSquaredNorm (-96)
    (mkPoint 0x1.f4971d1f70267p+4%float 0%float 0x1.8b13493c56a68p+7%float) =
    Some 3169126500570573894650336282039665%Z /\
  exactSquaredNorm (-96) (mkPoint 200%float 0%float 0%float) =
    Some 3169126500570573503741758013440000%Z.
Proof. vm_compute. repeat split; reflexivity. Qed.

End SphereInDoubles.

(** ** [draw]: the loops over the quads *)

Section DrawLoops.
Context {num : Type} {arith : JsArith num} {math : JsMath num}.
Variable this : Renderer num.
Variables rotX camAngle depth : num.

Lemma kept_app qs1 qs2 :
  kept this rotX camAngle depth (qs1 ++ qs2) =
  kept this rotX camAngle depth qs1 ++ kept this rotX camAngle depth qs2.
Proof. unfold kept. rewrite flat_map_app, filter_app, map_app. reflexivity. Qed.

Lemma kept_cons q qs :
  kept this rotX camAngle depth (q :: qs) =
  kept this rotX camAngle depth [q] ++ kept this rotX camAngle depth qs.
Proof. apply (kept_app [q] qs). Qed.

(** One round of the inner loop pushes the survivors of its quad. *)
Lemma quadBody_kept a b c d triangles :
  quadBody this rotX camAngle depth a b c d triangles =
  triangles ++ kept this rotX camAngle depth [(a, b, c, d)].
Proof.
  unfold quadBody, kept. cbn [flat_map quadCandidates app filter].
  unfold facesViewer. cbn [fst].
  destruct (lt (pz (calculateNormal _ _ _)) (ofZ 0));
    destruct (lt (pz (calculateNormal _ _ _)) (ofZ 0));
    cbn [map snd app]; rewrite <- ?app_assoc, ?app_nil_r; reflexivity.
Qed.

Lemma forRange_ext (A : Type) (f g : nat -> A -> option A) :
  (forall k acc, f k acc = g k acc) ->
  forall count start acc, forRange f start count acc = forRange g start count acc.
Proof.
  intros Hfg. induction count as [|count IH]; intros start acc; simpl.
  - reflexivity.
  - rewrite Hfg. destruct (g start acc); [apply IH | reflexivity].
Qed.

Lemma skipn_nth_error (A : Type) (l : list A) (n : nat) (a : A) :
  nth_error l n = Some a -> skipn n l = a :: skipn (S n) l.
Proof.
  revert l; induction n as [|n IH]; intros [|x l] Hn; simpl in *;
    try discriminate.
  - congruence.
  - apply IH. exact Hn.
Qed.

Lemma nth_error_in_range (A : Type) (l : list A) (n : nat) :
  (n < length l)%nat -> exists a, nth_error l n = Some a.
Proof.
  intros Hn. destruct (nth_error l n) as [a|] eqn:E.
  - exists a. reflexivity.
  - apply nth_error_None in E. lia.
Qed.

(** The inner loop on two rows of equal length, from column [start]. *)
Lemma inner_loop_kept (r0 r1 : list (Point num)) :
  length r1 = length r0 ->
  forall count start triangles,
  (start + count = length r0 - 1)%nat ->
  forRange
    (fun i triangles =>
       match nth_error r0 i, nth_error r0 (S i),
             nth_error r1 i, nth_error r1 (S i) with
       | Some a, Some b, Some c, Some d =>
           Some (quadBody this rotX camAngle depth a b c d triangles)
       | _, _, _, _ => None
       end) start count triangles =
  Some (triangles ++
        kept this rotX camAngle depth
          (quadsOfRows (skipn start r0) (skipn start r1))).
Proof.
  intros Hlen. induction count as [|count IH]; intros start triangles Hsc.
  - simpl.
    assert (Hq : quadsOfRows (skipn start r0) (skipn start r1) = []).
    { assert (H0 : (length (skipn start r0) <= 1)%nat)
        by (rewrite length_skipn; lia).
      destruct (skipn start r0) as [|a [|b l]]; simpl in *; try reflexivity.
      lia. }
    rewrite Hq. unfold kept. simpl. rewrite app_nil_r. reflexivity.
  - cbn [forRange].
    destruct (@nth_error_in_range _ r0 start) as [a Ha]; [lia|].
    destruct (@nth_error_in_range _ r0 (S start)) as [b Hb]; [lia|].
    destruct (@nth_error_in_range _ r1 start) as [c Hc]; [lia|].
    destruct (@nth_error_in_range _ r1 (S start)) as [d Hd]; [lia|].
    rewrite Ha, Hb, Hc, Hd.
    rewrite IH by lia.
    rewrite (skipn_nth_error _ _ Ha), (skipn_nth_error _ _ Hc).
    rewrite (skipn_nth_error _ _ Hb), (skipn_nth_error _ _ Hd).
    cbn [quadsOfRows].
    rewrite (kept_cons (a, b, c, d)), quadBody_kept, app_assoc.
    reflexivity.
Qed.

(** The outer loop on a grid whose rows all have [n] points, from row
    [start]. *)
Lemma outer_loop_kept (g : list (list (Point num))) (n : nat) :
  Forall (fun row => length row = n) g ->
  forall count start triangles,
  (start + count = length g - 1)%nat ->
  forRange
    (fun j triangles =>
       match nth_error g j with
       | None => None
       | Some row =>
           forRange
             (fun i triangles =>
                match at2 g j i, at2 g j (S i),
                      at2 g (S j) i, at2 g (S j) (S i) with
                | Some a, Some b, Some c, Some d =>
                    Some (quadBody this rotX camAngle depth a b c d triangles)
                | _, _, _, _ => None
                end)
             0 (length row - 1) triangles
       end) start count triangles =
  Some (triangles ++
        kept this rotX camAngle depth (quadsOfGrid (skipn start g))).
Proof.
  intros Hrect. induction count as [|count IH]; intros start triangles Hsc.
  - simpl.
    assert (Hq : quadsOfGrid (skipn start g) = []).
    { assert (H0 : (length (skipn start g) <= 1)%nat)
        by (rewrite length_skipn; lia).
      destruct (skipn start g) as [|a [|b l]]; simpl in *; try reflexivity.
      lia. }
    rewrite Hq. unfold kept. simpl. rewrite app_nil_r. reflexivity.
  - cbn [forRange].
    destruct (@nth_error_in_range _ g start) as [r0 H0]; [lia|].
    destruct (@nth_error_in_range _ g (S start)) as [r1 H1]; [lia|].
    rewrite H0.
    assert (L0 : length r0 = n)
      by (apply (proj1 (Forall_forall _ g) Hrect), (nth_error_In _ _ H0)).
    assert (L1 : length r1 = n)
      by (apply (proj1 (Forall_forall _ g) Hrect), (nth_error_In _ _ H1)).
    rewrite (forRange_ext
               (fun i triangles =>
                  match at2 g start i, at2 g start (S i),
                        at2 g (S start) i, at2 g (S start) (S i) with
                  | Some a, Some b, Some c, Some d =>
                      Some (quadBody this rotX camAngle depth a b c d triangles)
                  | _, _, _, _ => None
                  end)
               (fun i triangles =>
                  match nth_error r0 i, nth_error r0 (S i),
                        nth_error r1 i, nth_error r1 (S i) with
                  | Some a, Some b, Some c, Some d =>
                      Some (quadBody this rotX camAngle depth a b c d triangles)
                  | _, _, _, _ => None
                  end)).
    2:{ intros k acc. unfold at2. rewrite H0, H1. reflexivity. }
    rewrite (@inner_loop_kept r0 r1) by lia.
    rewrite IH by lia.
    rewrite (skipn_nth_error _ _ H0), (skipn_nth_error _ _ H1).
    cbn [quadsOfGrid skipn].
    rewrite kept_app, app_assoc. reflexivity.
Qed.

(** On a rectangular grid the two loops raise nothing and build exactly the
    survivors, quad by quad. *)
Lemma buildTriangles_rectangular (g : list (list (Point num))) (n : nat) :
  Forall (fun row => length row = n) g ->
  buildTriangles this rotX camAngle depth g =
  Some (survivors this rotX camAngle depth g).
Proof.
  intros Hrect. unfold buildTriangles.
  rewrite (outer_loop_kept Hrect) by lia. reflexivity.
Qed.

End DrawLoops.

(** ** [triangles.sort]: a rearrangement *)

Section SortPermutation.
Context {num : Type} {arith : JsArith num}.
Variable A : Type.
Variable cmp : A -> A -> num.

Lemma insertSorted_perm (t : A) (l : list A) :
  Permutation (insertSorted cmp t l) (t :: l).
Proof.
  induction l as [|u l IH]; simpl.
  - apply Permutation_refl.
  - destruct (lt (ofZ 0) (cmp t u)).
    + apply perm_trans with (u :: t :: l).
      * apply perm_skip. exact IH.
      * apply perm_swap.
    + apply Permutation_refl.
Qed.

Lemma sortBy_perm (l : list A) : Permutation (sortBy cmp l) l.
Proof.
  induction l as [|t l IH]; simpl.
  - apply perm_nil.
  - apply perm_trans with (t :: sortBy cmp l).
    + apply insertSorted_perm.
    + apply perm_skip. exact IH.
Qed.

End SortPermutation.

(** ** [calculateNormal]: a unit vector *)

Section UnitNormal.
Import Exact ExactFacts.
Local Open Scope js_scope.

(** On finite points with a non-zero cross product, [calculateNormal] is the
    cross product scaled to length 1, and its z component has the sign of
    the cross product's. *)
Lemma calculateNormal_unit (p1 p2 p3 : Point xreal) (cx cy cz : R) :
  crossProduct p1 p2 p3 = mkPoint (Fin cx) (Fin cy) (Fin cz) ->
  (cx * cx + cy * cy + cz * cz <> 0)%R ->
  exists nx ny nz : R,
    calculateNormal p1 p2 p3 = mkPoint (Fin nx) (Fin ny) (Fin nz) /\
    (nx * nx + ny * ny + nz * nz = 1)%R /\
    lt (Fin nz) (ofZ 0) = Rltb cz 0.
Proof.
  intros Hc Hs. unfold calculateNormal. cbv zeta. rewrite Hc.
  cbn [px py pz]. unfold sq. cbn.
  set (s := (cx * cx + cy * cy + cz * cz)%R) in *.
  assert (Hpos : (0 < s)%R) by (unfold s in *; nra).
  rewrite Rltb_false by lra.
  assert (HL : (0 < R_sqrt.sqrt s)%R) by (apply sqrt_lt_R0; exact Hpos).
  rewrite Reqb_false by lra.
  exists (cx / R_sqrt.sqrt s)%R, (cy / R_sqrt.sqrt s)%R, (cz / R_sqrt.sqrt s)%R.
  split; [reflexivity|]. split.
  - assert (Hsq : (R_sqrt.sqrt s * R_sqrt.sqrt s = s)%R)
      by (apply sqrt_sqrt; lra).
    set (L := R_sqrt.sqrt s) in *.
    replace (cx / L * (cx / L) + cy / L * (cy / L) + cz / L * (cz / L))%R
      with ((cx * cx + cy * cy + cz * cz) / (L * L))%R by (field; lra).
    fold s. rewrite Hsq. field. lra.
  - unfold Rltb.
    destruct (Rlt_dec (cz / R_sqrt.sqrt s) 0) as [H1|H1];
      destruct (Rlt_dec cz 0) as [H2|H2]; try reflexivity; exfalso.
    + apply H2. apply Rmult_lt_reg_r with (/ R_sqrt.sqrt s)%R.
      * apply Rinv_0_lt_compat. exact HL.
      * rewrite Rmult_0_l. exact H1.
    + apply H1. unfold Rdiv.
      replace 0%R with (0 * / R_sqrt.sqrt s)%R by ring.
      apply Rmult_lt_compat_r; [apply Rinv_0_lt_compat; exact HL | exact H2].
Qed.

End UnitNormal.

(** ** [draw]: backface culling *)

Section Cull.
Context {num : Type} {arith : JsArith num} {math : JsMath num}.

(** On the mesh of [createDeformedSphere], [draw] raises nothing and paints
    the survivors of the cull, reordered by the sort. *)
Lemma draw_paints_survivors (this : Renderer num) (rotX camAngle depth : num)
    (nT nP : Z) :
  draw this rotX camAngle depth nT nP =
  Some (sortBy compareAvgZ
          (survivors this rotX camAngle depth
             (createDeformedSphere (shapeDeformer this) nT nP))).
Proof.
  unfold draw.
  rewrite (@buildTriangles_rectangular _ _ _ this rotX camAngle depth _
             (Z.to_nat (nT + 1))).
  - reflexivity.
  - apply Forall_forall. intros row. apply createDeformedSphere_columns.
Qed.

End Cull.

(** ** [triangles.sort]: ascending [avgZ] *)

Section SortAscending.
Import Exact ExactFacts.

Lemma compareAvgZ_finite (a b : Triangle xreal) (x y : R) :
  avgZ a = Fin x -> avgZ b = Fin y ->
  lt (ofZ 0) (compareAvgZ a b) = Rltb y x.
Proof.
  intros Ha Hb. unfold compareAvgZ. rewrite Ha, Hb. cbn.
  unfold Rltb. destruct (Rlt_dec 0 (x + - y)), (Rlt_dec y x);
    try reflexivity; lra.
Qed.

Lemma avgZ_le_trans a b c : avgZ_le a b -> avgZ_le b c -> avgZ_le a c.
Proof.
  intros [x [y [Hx [Hy Hxy]]]] [y' [z [Hy' [Hz Hyz]]]].
  assert (y' = y) by congruence. subst y'.
  exists x, z. repeat split; try assumption. lra.
Qed.

Lemma insertSorted_ascending (t : Triangle xreal) (l : list (Triangle xreal)) :
  finiteAvgZ t -> Forall finiteAvgZ l ->
  StronglySorted avgZ_le l ->
  StronglySorted avgZ_le (insertSorted compareAvgZ t l).
Proof.
  intros [x Hx] Hfin Hs. induction Hs as [|u l Hs IH Hu]; cbn [insertSorted].
  - constructor; constructor.
  - inversion Hfin as [|? ? [y Hy] Hfin']; subst.
    rewrite (compareAvgZ_finite _ _ Hx Hy).
    unfold Rltb. destruct (Rlt_dec y x) as [Hlt|Hge].
    + constructor; [apply IH; exact Hfin'|].
      apply (Permutation_Forall
               (Permutation_sym (insertSorted_perm compareAvgZ t l))).
      constructor; [|exact Hu].
      exists y, x. repeat split; try assumption. lra.
    + assert (Htu : avgZ_le t u)
        by (exists x, y; repeat split; try assumption; lra).
      constructor; [constructor; assumption|].
      constructor; [exact Htu|].
      apply Forall_forall. intros v Hv.
      apply (avgZ_le_trans Htu).
      apply (proj1 (Forall_forall _ _) Hu). exact Hv.
Qed.

Lemma sortBy_finite (l : list (Triangle xreal)) :
  Forall finiteAvgZ l -> Forall finiteAvgZ (sortBy compareAvgZ l).
Proof.
  intros Hfin.
  apply (Permutation_Forall (Permutation_sym (sortBy_perm compareAvgZ l))).
  exact Hfin.
Qed.

Lemma sortBy_ascending (l : list (Triangle xreal)) :
  Forall finiteAvgZ l -> StronglySorted avgZ_le (sortBy compareAvgZ l).
Proof.
  induction l as [|t l IH]; intros Hfin; simpl.
  - constructor.
  - inversion Hfin as [|? ? Ht Hl]; subst.
    apply insertSorted_ascending.
    + exact Ht.
    + apply sortBy_finite. exact Hl.
    + apply IH. exact Hl.
Qed.

(** In an ascending list, an element at a later position is not smaller. *)
Lemma ascending_positions (l : list (Triangle xreal)) :
  StronglySorted avgZ_le l ->
  forall i j a b, (i < j)%nat ->
  nth_error l i = Some a -> nth_error l j = Some b -> avgZ_le a b.
Proof.
  intros Hs. induction Hs as [|u l Hs IH Hu]; intros i j a b Hij Ha Hb.
  - destruct i; discriminate.
  - destruct j as [|j]; [lia|]. destruct i as [|i]; simpl in Ha, Hb.
    + injection Ha as <-.
      apply (proj1 (Forall_forall _ _) Hu). apply (nth_error_In _ _ Hb).
    + apply (IH i j); [lia | assumption | assumption].
Qed.

(** A triangle with a strictly smaller [avgZ] comes strictly earlier. *)
Lemma ascending_paint_order (l : list (Triangle xreal)) :
  StronglySorted avgZ_le l ->
  forall i j a b,
  nth_error l i = Some a -> nth_error l j = Some b ->
  lt (avgZ a) (avgZ b) = true -> (i < j)%nat.
Proof.
  intros Hs i j a b Ha Hb Hlt.
  destruct (Nat.lt_trichotomy i j) as [H|[H|H]]; [exact H | exfalso | exfalso].
  - subst j. assert (a = b) by congruence. subst b.
    cbn in Hlt. destruct (avgZ a) as [x|[]|]; try discriminate.
    unfold xlt, Rltb in Hlt. destruct (Rlt_dec x x); [lra | discriminate].
  - destruct (ascending_positions Hs H Hb Ha) as [y [x [Hy [Hx Hle]]]].
    cbn in Hlt. rewrite Hx, Hy in Hlt.
    unfold xlt, Rltb in Hlt. destruct (Rlt_dec x y); [lra | discriminate].
Qed.

End SortAscending.

(** ** Finite meshes *)

Section FiniteMesh.
Import Exact ExactFacts.
Local Open Scope js_scope.

Lemma applyDeformation_finite m (t p bx by_ bz : R) :
  finiteMode m = true ->
  exists r : R,
    applyDeformation m (Fin t) (Fin p)
      (Some (mkPoint (Fin bx) (Fin by_) (Fin bz))) = Fin r.
Proof.
  destruct m as [n d da amp c]. unfold finiteMode. cbn [amplitude class].
  intros Hm. apply andb_true_iff in Hm. destruct Hm as [Ha Hc].
  destruct amp as [a| |]; try discriminate.
  unfold applyDeformation. cbn [amplitude class].
  destruct c as [|[f1| |] [f2| |]|[f1| |] [f2| |]| |[s| |]];
    try discriminate; cbn; eexists; reflexivity.
Qed.

Lemma totalDeformation_finite ms (t p bx by_ bz : R) :
  forallb finiteMode ms = true ->
  exists r : R,
    totalDeformation ms (Fin t) (Fin p) (mkPoint (Fin bx) (Fin by_) (Fin bz))
    = Fin r.
Proof.
  intros Hms. rewrite totalDeformation_sum.
  induction ms as [|m ms IH]; cbn [map xsum fold_right].
  - eexists. reflexivity.
  - cbn [forallb] in Hms. apply andb_true_iff in Hms. destruct Hms as [Hm Hms].
    destruct (IH Hms) as [r Hr]. unfold xsum in Hr. rewrite Hr.
    destruct (@applyDeformation_finite m t p bx by_ bz Hm) as [r' Hr'].
    rewrite Hr'. eexists. reflexivity.
Qed.

Lemma spherePoint_finite (sd : ShapeDeformer xreal) (t p : R) :
  finiteDeformer sd = true -> finitePoint (spherePoint sd (Fin t) (Fin p)).
Proof.
  unfold finiteDeformer. intros Hsd. apply andb_true_iff in Hsd.
  destruct Hsd as [HR Hms]. unfold spherePoint. cbn.
  destruct (@totalDeformation_finite (modes sd) t p (sin p * cos t)
              (sin p * sin t) (cos p) Hms)
    as [r Hr].
  rewrite Hr. destruct (baseRadius sd) as [R0| |]; try discriminate.
  cbn. do 3 eexists. reflexivity.
Qed.

Lemma rotatePoint_finite (p : Point xreal) (ax ay : R) :
  finitePoint p -> finitePoint (rotatePoint p (Fin ax) (Fin ay)).
Proof.
  intros [x [y [z ->]]]. unfold rotatePoint. cbn.
  rewrite Reqb_false by lra. cbn. do 3 eexists. reflexivity.
Qed.

Lemma createDeformedSphere_finite (sd : ShapeDeformer xreal) (nT nP : Z) :
  (1 <= nT)%Z -> (1 <= nP)%Z -> finiteDeformer sd = true ->
  forall p, In p (concat (createDeformedSphere sd nT nP)) -> finitePoint p.
Proof.
  intros HT HP Hsd p Hin. apply in_concat in Hin.
  destruct Hin as [row [Hrow Hp]]. unfold createDeformedSphere in Hrow.
  apply in_map_iff in Hrow. destruct Hrow as [j [<- _]].
  apply in_map_iff in Hp. destruct Hp as [i [<- _]].
  rewrite (grid_theta i HT), (grid_phi j HP).
  apply spherePoint_finite. exact Hsd.
Qed.

End FiniteMesh.

(** ** The quads of a grid *)

Section Quads.
Context {num : Type}.
Implicit Types (r : list (Point num)) (g : list (list (Point num))).

Lemma quadsOfRows_In r0 : forall r1 a b c d,
  In (a, b, c, d) (quadsOfRows r0 r1) ->
  In a r0 /\ In b r0 /\ In c r1 /\ In d r1.
Proof.
  induction r0 as [|a0 r0 IH]; intros r1 a b c d Hin; [destruct Hin|].
  destruct r0 as [|b0 r0]; [destruct Hin|].
  destruct r1 as [|c0 [|d0 r1]]; try destruct Hin as [].
  - injection H as <- <- <- <-. simpl. tauto.
  - apply IH in H. simpl in *. tauto.
Qed.

Lemma quadsOfGrid_In g : forall a b c d,
  In (a, b, c, d) (quadsOfGrid g) ->
  In a (concat g) /\ In b (concat g) /\ In c (concat g) /\ In d (concat g).
Proof.
  induction g as [|r0 g IH]; intros a b c d Hin; [destruct Hin|].
  destruct g as [|r1 g]; [destruct Hin|].
  cbn [quadsOfGrid] in Hin. apply in_app_or in Hin. destruct Hin as [Hin|Hin].
  - apply quadsOfRows_In in Hin. cbn [concat]. rewrite !in_app_iff. tauto.
  - apply IH in Hin. cbn [concat] in *. rewrite !in_app_iff in *. tauto.
Qed.

Lemma quadsOfRows_short r0 r1 : (length r0 <= 1)%nat -> quadsOfRows r0 r1 = [].
Proof. destruct r0 as [|a [|b r0]]; simpl; intros; try reflexivity; lia. Qed.

Lemma quadsOfGrid_narrow g :
  Forall (fun r => (length r <= 1)%nat) g -> quadsOfGrid g = [].
Proof.
  induction g as [|r0 g IH]; intros Hg; [reflexivity|].
  inversion Hg as [|? ? H0 Hg']; subst.
  destruct g as [|r1 g]; [reflexivity|].
  change (quadsOfGrid (r0 :: r1 :: g))
    with (quadsOfRows r0 r1 ++ quadsOfGrid (r1 :: g)).
  rewrite (@quadsOfRows_short r0 r1 H0), (IH Hg'). reflexivity.
Qed.

Lemma quadsOfGrid_short g : (length g <= 1)%nat -> quadsOfGrid g = [].
Proof. destruct g as [|a [|b g]]; simpl; intros; try reflexivity; lia. Qed.

End Quads.

(** Without a positive resolution in both directions the mesh has no quad. *)
Lemma createDeformedSphere_no_quads (num : Type) (arith : JsArith num)
    (math : JsMath num) (sd : ShapeDeformer num) (nT nP : Z) :
  (nT < 1 \/ nP < 1)%Z -> quadsOfGrid (createDeformedSphere sd nT nP) = [].
Proof.
  intros [H|H].
  - apply quadsOfGrid_narrow. apply Forall_forall. intros row Hrow.
    rewrite (@createDeformedSphere_columns _ _ _ sd nT nP row Hrow). lia.
  - apply quadsOfGrid_short. rewrite createDeformedSphere_rows. lia.
Qed.

(** ** [createDeformedSphere]: non-positive resolutions *)

(** C2 (as the code has it): with [numPointsTheta <= 0] or
    [numPointsPhi <= 0], [createDeformedSphere] checks nothing and returns a
    grid all the same: [numPointsPhi + 1] rows (none when [numPointsPhi] is
    negative) of [numPointsTheta + 1] points each (none when
    [numPointsTheta] is negative); when [numPointsPhi] is 0 every point of
    the single row is NaN in all coordinates, and when [numPointsTheta] is 0
    every point has NaN [x] and [y].  Such a grid has no quad, and [draw]
    paints nothing. *)
Theorem createDeformedSphere_nonpositive_resolution
    (sd : ShapeDeformer Exact.xreal) (nT nP : Z) :
  (nT <= 0 \/ nP <= 0)%Z ->
  let g := createDeformedSphere sd nT nP in
  length g = Z.to_nat (nP + 1) /\
  Forall (fun row => length row = Z.to_nat (nT + 1)) g /\
  ((nP < 0)%Z -> g = []) /\
  ((nT < 0)%Z -> Forall (fun row => row = []) g) /\
  (nP = 0%Z -> Forall (Forall (fun p => p = nanPoint)) g) /\
  (nT = 0%Z ->
   Forall (Forall (fun p => px p = Exact.NaN /\ py p = Exact.NaN)) g) /\
  quadsOfGrid g = [] /\
  (forall (cv : Canvas Exact.xreal) (light : Point Exact.xreal)
          (rotX camAngle depth : Exact.xreal),
     draw (mkRenderer cv sd light) rotX camAngle depth nT nP = Some []).
Proof.
  intros Hres g. unfold g.
  assert (Hq : quadsOfGrid (createDeformedSphere sd nT nP) = [])
    by (apply createDeformedSphere_no_quads; lia).
  split; [apply createDeformedSphere_rows|].
  split; [apply Forall_forall; intros row; apply createDeformedSphere_columns|].
  split; [apply createDeformedSphere_negative_phi|].
  split; [|split; [|split; [|split; [exact Hq|]]]].
  4:{ intros cv light rotX camAngle depth.
      rewrite draw_paints_survivors. unfold survivors.
      cbn [shapeDeformer]. rewrite Hq. reflexivity. }
  - intros Hn. rewrite (createDeformedSphere_negative_theta sd nP Hn).
    apply Forall_forall. intros row Hin. apply in_map_iff in Hin.
    destruct Hin as [j [<- _]]. reflexivity.
  - intros ->. rewrite createDeformedSphere_phi_resolution_0.
    constructor; [|constructor].
    apply Forall_forall. intros p Hin. apply in_map_iff in Hin.
    destruct Hin as [i [<- _]]. reflexivity.
  - intros ->. unfold createDeformedSphere.
    apply Forall_forall. intros row Hin. apply in_map_iff in Hin.
    destruct Hin as [j [<- _]]. rewrite upTo_zero. cbn [map].
    constructor; [|constructor].
    rewrite (theta_zero_resolution eq_refl). apply spherePoint_theta_NaN.
Qed.

Lemma createDeformedSphere_nonpositive_resolution_witness :
  length (createDeformedSphere exactSphere200 4 (-1)) = 0%nat /\
  Forall (Forall (fun p => p = nanPoint)) (createDeformedSphere exactSphere200 4 0).
Proof.
  split.
  - apply (@createDeformedSphere_nonpositive_resolution exactSphere200 4 (-1)).
    right. lia.
  - apply (@createDeformedSphere_nonpositive_resolution exactSphere200 4 0).
    + right. lia.
    + reflexivity.
Defined.

(** C2, as stated, fails: calls with a non-positive resolution return. *)
Lemma createDeformedSphere_returns_degenerate_grid :
  createDeformedSphere exactSphere200 4 (-1) = [] /\
  createDeformedSphere exactSphere200 (-1) 1 = [[]; []] /\
  createDeformedSphere exactSphere200 1 0 = [[nanPoint; nanPoint]].
Proof.
  split; [|split].
  - apply createDeformedSphere_negative_phi. lia.
  - rewrite createDeformedSphere_negative_theta by lia. reflexivity.
  - rewrite createDeformedSphere_phi_resolution_0. reflexivity.
Qed.

(** ** [draw]: depth of a triangle and painting order *)

Section PaintOrder.
Import Exact ExactFacts.
Local Open Scope js_scope.

Lemma xadd_Fin_inv x y r :
  xadd x y = Fin r -> exists a b : R, x = Fin a /\ y = Fin b.
Proof.
  destruct x as [a|[]|], y as [b|[]|]; simpl; try discriminate.
  intros _. exists a, b. split; reflexivity.
Qed.

Lemma xsub_Fin_inv x y r :
  xsub x y = Fin r -> exists a b : R, x = Fin a /\ y = Fin b.
Proof.
  destruct x as [a|[]|], y as [b|[]|]; simpl; try discriminate.
  intros _. exists a, b. split; reflexivity.
Qed.

Lemma xmul_Fin_inv x y r :
  xmul x y = Fin r -> exists a b : R, x = Fin a /\ y = Fin b.
Proof.
  destruct x as [a|s|], y as [b|t|]; simpl; try discriminate.
  - intros _. exists a, b. split; reflexivity.
  - destruct (Reqb a 0); discriminate.
  - destruct (Reqb b 0); discriminate.
Qed.

Lemma xsqrt_Fin_inv x r : xsqrt x = Fin r -> exists a : R, x = Fin a.
Proof.
  destruct x as [a|[]|]; simpl; try discriminate.
  intros _. exists a. reflexivity.
Qed.

(** A quotient below zero has a finite divisor. *)
Lemma xdiv_negative_divisor x y :
  xlt (xdiv x y) (Fin 0) = true -> exists b : R, y = Fin b.
Proof.
  destruct x as [a|s|], y as [b|t|]; simpl; try discriminate;
    try (intros _; exists b; reflexivity).
  rewrite Rltb_false by lra. discriminate.
Qed.

(** A triangle that passes the cull has three finite z coordinates. *)
Lemma facing_finite_z (p1 p2 p3 : Point xreal) :
  (pz (calculateNormal p1 p2 p3) <? ofZ 0) = true ->
  exists z1 z2 z3 : R, pz p1 = Fin z1 /\ pz p2 = Fin z2 /\ pz p3 = Fin z3.
Proof.
  unfold calculateNormal. cbv zeta. cbn [pz]. intros Hf.
  apply xdiv_negative_divisor in Hf. destruct Hf as [len Hlen].
  apply xsqrt_Fin_inv in Hlen. destruct Hlen as [s Hs].
  apply xadd_Fin_inv in Hs. destruct Hs as [s' [cz2 [Hs _]]].
  apply xadd_Fin_inv in Hs. destruct Hs as [cx2 [cy2 [Hcx _]]].
  apply xmul_Fin_inv in Hcx. destruct Hcx as [cx [_ [Hcx _]]].
  unfold crossProduct in Hcx. cbn [px py pz] in Hcx.
  apply xsub_Fin_inv in Hcx. destruct Hcx as [u [v [Hu Hv]]].
  apply xmul_Fin_inv in Hu. destruct Hu as [_ [v2z [_ Hv2z]]].
  apply xmul_Fin_inv in Hv. destruct Hv as [v1z [_ [Hv1z _]]].
  apply xsub_Fin_inv in Hv2z. destruct Hv2z as [z3 [z1 [H3 H1]]].
  apply xsub_Fin_inv in Hv1z. destruct Hv1z as [z2 [_ [H2 _]]].
  exists z1, z2, z3. repeat split; assumption.
Qed.

Lemma mean_of_three (p q r : Point xreal) (z1 z2 z3 : R) :
  pz p = Fin z1 -> pz q = Fin z2 -> pz r = Fin z3 ->
  (pz p + pz q + pz r) / ofZ 3 = Fin ((z1 + z2 + z3) / 3).
Proof.
  intros -> -> ->. cbn. rewrite Reqb_false by lra. reflexivity.
Qed.

Variable this : Renderer xreal.
Variables rotX camAngle depth : xreal.

(** Every survivor is a triangle on three rotated points of the grid and
    carries the mean of their z coordinates, which are finite. *)
Lemma survivor_mean (g : list (list (Point xreal))) (t : Triangle xreal) :
  In t (survivors this rotX camAngle depth g) ->
  exists a b c : Point xreal, exists z1 z2 z3 : R,
    In a (concat g) /\ In b (concat g) /\ In c (concat g) /\
    points t = (projectPoint this (rotatePoint a rotX camAngle) depth,
                projectPoint this (rotatePoint b rotX camAngle) depth,
                projectPoint this (rotatePoint c rotX camAngle) depth) /\
    pz (rotatePoint a rotX camAngle) = Fin z1 /\
    pz (rotatePoint b rotX camAngle) = Fin z2 /\
    pz (rotatePoint c rotX camAngle) = Fin z3 /\
    avgZ t = Fin ((z1 + z2 + z3) / 3).
Proof.
  unfold survivors, kept. intros Hin.
  apply in_map_iff in Hin. destruct Hin as [[n t'] [Ht Hin]].
  cbn in Ht. subst t'. apply filter_In in Hin. destruct Hin as [Hin Hf].
  apply in_flat_map in Hin. destruct Hin as [[[[a b] c] d] [Hq Hc]].
  apply quadsOfGrid_In in Hq. destruct Hq as [Ha [Hb [Hc' Hd]]].
  unfold facesViewer in Hf. cbn [fst] in Hf.
  cbn [quadCandidates In] in Hc. destruct Hc as [Hc|[Hc|[]]].
  - injection Hc as <- <-.
    destruct (facing_finite_z _ _ _ Hf) as [z1 [z2 [z3 [H1 [H2 H3]]]]].
    exists a, b, c, z1, z2, z3. repeat split; try assumption.
    unfold triangle1. cbn [avgZ]. apply mean_of_three; assumption.
  - injection Hc as <- <-.
    destruct (facing_finite_z _ _ _ Hf) as [z2 [z4 [z3 [H2 [H4 H3]]]]].
    exists b, d, c, z2, z4, z3. repeat split; try assumption.
    unfold triangle2. cbn [avgZ].
    rewrite (@mean_of_three _ _ _ _ _ _ H2 H3 H4). f_equal. lra.
Qed.

Lemma survivors_finiteAvgZ (g : list (list (Point xreal))) :
  Forall finiteAvgZ (survivors this rotX camAngle depth g).
Proof.
  apply Forall_forall. intros t Ht.
  destruct (@survivor_mean g t Ht)
    as [a [b [c [z1 [z2 [z3 [_ [_ [_ [_ [_ [_ [_ Havg]]]]]]]]]]]]].
  eexists. exact Havg.
Qed.

End PaintOrder.

(** C5: in every draw call, every painted triangle lies on three rotated
    mesh points, whose z coordinates are finite, and its [avgZ] is the
    arithmetic mean of these z coordinates (before projection); the
    triangles are painted in ascending [avgZ] order, so that of two painted
    triangles the one with the strictly smaller [avgZ] is painted first. *)
Theorem draw_paints_ascending_avgZ
    (this : Renderer Exact.xreal) (rotX camAngle depth : Exact.xreal)
    (nT nP : Z) :
  let g := createDeformedSphere (shapeDeformer this) nT nP in
  exists painted,
    draw this rotX camAngle depth nT nP = Some painted /\
    Permutation painted (survivors this rotX camAngle depth g) /\
    (forall t, In t painted ->
       exists a b c : Point Exact.xreal, exists z1 z2 z3 : R,
         In a (concat g) /\ In b (concat g) /\ In c (concat g) /\
         points t = (projectPoint this (rotatePoint a rotX camAngle) depth,
                     projectPoint this (rotatePoint b rotX camAngle) depth,
                     projectPoint this (rotatePoint c rotX camAngle) depth) /\
         pz (rotatePoint a rotX camAngle) = Exact.Fin z1 /\
         pz (rotatePoint b rotX camAngle) = Exact.Fin z2 /\
         pz (rotatePoint c rotX camAngle) = Exact.Fin z3 /\
         avgZ t = Exact.Fin ((z1 + z2 + z3) / 3)) /\
    StronglySorted avgZ_le painted /\
    (forall i j ta tb,
       nth_error painted i = Some ta -> nth_error painted j = Some tb ->
       lt (avgZ ta) (avgZ tb) = true -> (i < j)%nat).
Proof.
  intros g.
  exists (sortBy compareAvgZ (survivors this rotX camAngle depth g)).
  assert (Hsorted : StronglySorted avgZ_le
            (sortBy compareAvgZ (survivors this rotX camAngle depth g))).
  { apply sortBy_ascending. apply survivors_finiteAvgZ. }
  split; [apply draw_paints_survivors|].
  split; [apply sortBy_perm|].
  split; [|split].
  - intros t Ht. apply survivor_mean.
    apply (Permutation_in _ (sortBy_perm compareAvgZ _)). exact Ht.
  - exact Hsorted.
  - apply ascending_paint_order. exact Hsorted.
Qed.

Lemma draw_paints_ascending_avgZ_witness :
  exists painted,
    draw exactRenderer (Exact.Fin 0) (Exact.Fin 0) (Exact.Fin 500) 4 2
      = Some painted /\
    StronglySorted avgZ_le painted.
Proof.
  destruct (draw_paints_ascending_avgZ exactRenderer
              (Exact.Fin 0) (Exact.Fin 0) (Exact.Fin 500) 4 2)
    as [painted [Hdraw [_ [_ [Hs _]]]]].
  exists painted. split; [exact Hdraw | exact Hs].
Defined.

(** ** Degenerate triangles *)

Section Degenerate.
Import Exact ExactFacts.
Local Open Scope js_scope.

Lemma xmul_comm x y : xmul x y = xmul y x.
Proof.
  destruct x as [a|[]|], y as [b|[]|]; simpl; try reflexivity.
  f_equal. ring.
Qed.

Lemma xsub_self x : zeroOrNaN (xsub x x).
Proof.
  destruct x as [a|[]|]; [left | right | right | right]; try reflexivity.
  cbn. f_equal. ring.
Qed.

Lemma zeroOrNaN_mul_l x y : zeroOrNaN x -> zeroOrNaN (xmul x y).
Proof.
  intros [->| ->]; [|right; reflexivity].
  destruct y as [b|s|]; [left | right | right].
  - cbn. f_equal. ring.
  - cbn. rewrite Reqb_true; reflexivity.
  - reflexivity.
Qed.

Lemma zeroOrNaN_mul_r x y : zeroOrNaN y -> zeroOrNaN (xmul x y).
Proof. rewrite xmul_comm. apply zeroOrNaN_mul_l. Qed.

Lemma zeroOrNaN_sub x y : zeroOrNaN x -> zeroOrNaN y -> zeroOrNaN (xsub x y).
Proof.
  intros [->| ->] [->| ->]; [left | right | right | right]; try reflexivity.
  cbn. f_equal. ring.
Qed.

Lemma zeroOrNaN_add x y : zeroOrNaN x -> zeroOrNaN y -> zeroOrNaN (xadd x y).
Proof.
  intros [->| ->] [->| ->]; [left | right | right | right]; try reflexivity.
  cbn. f_equal. ring.
Qed.

Lemma zeroOrNaN_sqrt x : zeroOrNaN x -> zeroOrNaN (xsqrt x).
Proof.
  intros [->| ->]; [left | right; reflexivity].
  cbn. rewrite Rltb_false by lra. f_equal. apply sqrt_0.
Qed.

Lemma zeroOrNaN_div x y : zeroOrNaN x -> zeroOrNaN y -> xdiv x y = NaN.
Proof.
  intros [->| ->] [->| ->]; try reflexivity. apply xdiv_zero_zero.
Qed.

(** A cross product whose components are zero (or NaN) has no direction:
    every component of the normal is NaN. *)
Lemma calculateNormal_degenerate (p1 p2 p3 : Point xreal) :
  zeroOrNaN (px (crossProduct p1 p2 p3)) ->
  zeroOrNaN (py (crossProduct p1 p2 p3)) ->
  zeroOrNaN (pz (crossProduct p1 p2 p3)) ->
  calculateNormal p1 p2 p3 = nanPoint.
Proof.
  intros Hx Hy Hz. unfold calculateNormal. cbv zeta.
  assert (Hl : zeroOrNaN
            (Math_sqrt (sq (px (crossProduct p1 p2 p3))
                        + sq (py (crossProduct p1 p2 p3))
                        + sq (pz (crossProduct p1 p2 p3))))).
  { apply zeroOrNaN_sqrt.
    repeat apply zeroOrNaN_add; apply zeroOrNaN_mul_l; assumption. }
  unfold nanPoint. f_equal; apply zeroOrNaN_div; assumption.
Qed.

(** Two coinciding first corners. *)
Lemma calculateNormal_first_twice (p q : Point xreal) :
  calculateNormal p p q = nanPoint.
Proof.
  apply calculateNormal_degenerate; unfold crossProduct; cbn [px py pz];
    apply zeroOrNaN_sub;
    try (apply zeroOrNaN_mul_l; apply xsub_self);
    try (apply zeroOrNaN_mul_r; apply xsub_self).
Qed.

(** Two coinciding last corners. *)
Lemma calculateNormal_last_twice (p q : Point xreal) :
  calculateNormal p q q = nanPoint.
Proof.
  apply calculateNormal_degenerate; unfold crossProduct; cbn [px py pz].
  - rewrite (xmul_comm (pz q - pz p) (py q - py p)). apply xsub_self.
  - rewrite (xmul_comm (px q - px p) (pz q - pz p)). apply xsub_self.
  - rewrite (xmul_comm (py q - py p) (px q - px p)). apply xsub_self.
Qed.

Lemma nanPoint_not_facing : lt (pz nanPoint) (ofZ 0) = false.
Proof. reflexivity. Qed.

Lemma totalDeformation_cong (ms : list (DeformationMode xreal))
    (t t' p : xreal) (bp : Point xreal) :
  (forall m, In m ms ->
     applyDeformation m t p (Some bp) = applyDeformation m t' p (Some bp)) ->
  totalDeformation ms t p bp = totalDeformation ms t' p bp.
Proof.
  unfold totalDeformation. generalize (ofZ (num := xreal) 0).
  induction ms as [|m ms IH]; intros acc Hms; [reflexivity|].
  cbn [fold_left]. rewrite (Hms m (or_introl eq_refl)).
  apply IH. intros m' Hm'. apply Hms. right. exact Hm'.
Qed.

(** At the north pole the sample does not depend on [theta]. *)
Lemma spherePoint_north (sd : ShapeDeformer xreal) (t t' p : R) :
  p = 0%R -> Forall thetaFreeAtPoles (modes sd) ->
  spherePoint sd (Fin t) (Fin p) = spherePoint sd (Fin t') (Fin p).
Proof.
  intros -> Hms. unfold spherePoint. cbn.
  rewrite sin_0, cos_0, !Rmult_0_l.
  fold northPole.
  rewrite (@totalDeformation_cong (modes sd) (Fin t) (Fin t') (Fin 0) northPole).
  - reflexivity.
  - intros m Hm.
    apply (proj1 (proj1 (Forall_forall _ _) Hms m Hm t t')).
Qed.

(** At the south pole the sample does not depend on [theta]. *)
Lemma spherePoint_south (sd : ShapeDeformer xreal) (t t' p : R) :
  p = PI -> Forall thetaFreeAtPoles (modes sd) ->
  spherePoint sd (Fin t) (Fin p) = spherePoint sd (Fin t') (Fin p).
Proof.
  intros -> Hms. unfold spherePoint. cbn.
  rewrite sin_PI, cos_PI, !Rmult_0_l.
  fold southPole.
  rewrite (@totalDeformation_cong (modes sd) (Fin t) (Fin t') (Fin PI) southPole).
  - reflexivity.
  - intros m Hm.
    apply (proj2 (proj1 (Forall_forall _ _) Hms m Hm t t')).
Qed.

Lemma atRest_thetaFreeAtPoles m : atRest m -> thetaFreeAtPoles m.
Proof.
  intros Hm t t'. unfold northPole, southPole.
  rewrite !(@applyDeformation_atRest m _ _ _ _ _ Hm). split; reflexivity.
Qed.

End Degenerate.

(** In doubles: a cross product of signed zeros gives a NaN normal. *)
Lemma calculateNormal_zero_cross_doubles (p1 p2 p3 : Point Ieee.float) :
  (px (crossProduct p1 p2 p3) = 0%float \/
   px (crossProduct p1 p2 p3) = neg_zero) ->
  (py (crossProduct p1 p2 p3) = 0%float \/
   py (crossProduct p1 p2 p3) = neg_zero) ->
  (pz (crossProduct p1 p2 p3) = 0%float \/
   pz (crossProduct p1 p2 p3) = neg_zero) ->
  calculateNormal p1 p2 p3 = mkPoint nan nan nan.
Proof.
  intros [Hx|Hx] [Hy|Hy] [Hz|Hz]; unfold calculateNormal; cbv zeta;
    rewrite Hx, Hy, Hz; vm_compute; reflexivity.
Qed.

Section PoleRows.
Import Exact ExactFacts.
Local Open Scope js_scope.

Lemma zero_cross_degenerate (p1 p2 p3 : Point xreal) :
  crossProduct p1 p2 p3 = zeroVector -> calculateNormal p1 p2 p3 = nanPoint.
Proof.
  intros Hc. apply calculateNormal_degenerate; rewrite Hc; left; reflexivity.
Qed.

Lemma crossProduct_first_twice (p q : Point xreal) :
  finitePoint p -> finitePoint q -> crossProduct p p q = zeroVector.
Proof.
  intros [x [y [z ->]]] [x' [y' [z' ->]]].
  unfold crossProduct, zeroVector. cbn. f_equal; f_equal; ring.
Qed.

Lemma crossProduct_last_twice (p q : Point xreal) :
  finitePoint p -> finitePoint q -> crossProduct p q q = zeroVector.
Proof.
  intros [x [y [z ->]]] [x' [y' [z' ->]]].
  unfold crossProduct, zeroVector. cbn. f_equal; f_equal; ring.
Qed.

(** The body of the loop when the first triangle has a NaN normal. *)
Lemma quadBody_first_degenerate (this : Renderer xreal)
    (rotX camAngle depth : xreal) (a b c d : Point xreal) :
  calculateNormal (rotatePoint a rotX camAngle) (rotatePoint b rotX camAngle)
                  (rotatePoint c rotX camAngle) = nanPoint ->
  forall triangles,
    quadBody this rotX camAngle depth a b c d triangles =
    triangles ++
    (if pz (calculateNormal (rotatePoint b rotX camAngle)
              (rotatePoint d rotX camAngle) (rotatePoint c rotX camAngle))
        <? ofZ 0
     then [triangle2 this depth (rotatePoint b rotX camAngle)
             (rotatePoint c rotX camAngle) (rotatePoint d rotX camAngle)]
     else []).
Proof.
  intros Hn triangles. unfold quadBody. cbv zeta. rewrite Hn.
  rewrite nanPoint_not_facing.
  destruct (pz (calculateNormal _ _ _) <? ofZ 0);
    [reflexivity | rewrite app_nil_r; reflexivity].
Qed.

(** The body of the loop when the second triangle has a NaN normal. *)
Lemma quadBody_second_degenerate (this : Renderer xreal)
    (rotX camAngle depth : xreal) (a b c d : Point xreal) :
  calculateNormal (rotatePoint b rotX camAngle) (rotatePoint d rotX camAngle)
                  (rotatePoint c rotX camAngle) = nanPoint ->
  forall triangles,
    quadBody this rotX camAngle depth a b c d triangles =
    triangles ++
    (if pz (calculateNormal (rotatePoint a rotX camAngle)
              (rotatePoint b rotX camAngle) (rotatePoint c rotX camAngle))
        <? ofZ 0
     then [triangle1 this depth (rotatePoint a rotX camAngle)
             (rotatePoint b rotX camAngle) (rotatePoint c rotX camAngle)]
     else []).
Proof.
  intros Hn triangles. unfold quadBody. cbv zeta. rewrite Hn.
  rewrite nanPoint_not_facing.
  destruct (pz (calculateNormal _ _ _) <? ofZ 0);
    [reflexivity | rewrite app_nil_r; reflexivity].
Qed.

Lemma grid_entry (sd : ShapeDeformer xreal) (nT nP : Z) (j i : nat) :
  (1 <= nT)%Z -> (1 <= nP)%Z ->
  (j <= Z.to_nat nP)%nat -> (i <= Z.to_nat nT)%nat ->
  at2 (createDeformedSphere sd nT nP) j i =
  Some (spherePoint sd (Fin (IZR (Z.of_nat i) * 2 * PI / IZR nT))
                       (Fin (IZR (Z.of_nat j) * PI / IZR nP))).
Proof.
  intros HT HP Hj Hi. rewrite createDeformedSphere_at by lia.
  rewrite (grid_theta _ HT), (grid_phi _ HP). reflexivity.
Qed.

Lemma phi_north (nP : Z) : (IZR (Z.of_nat 0) * PI / IZR nP = 0)%R.
Proof. cbn. unfold Rdiv. ring. Qed.

Lemma phi_south (nP : Z) :
  (1 <= nP)%Z -> (IZR (Z.of_nat (Z.to_nat nP)) * PI / IZR nP = PI)%R.
Proof.
  intros HP. rewrite Z2Nat.id by lia. field. apply not_0_IZR. lia.
Qed.

End PoleRows.



Section PolesInDoubles.
#[local] Existing Instance sampledMath.


End PolesInDoubles.

(* ================================================================= *)
(** * Further properties *)

(** ** The mode list as a container *)

Section ModeContainer.
Context {num : Type}.
Implicit Types (ms : list (DeformationMode num)) (m : DeformationMode num)
               (sd : ShapeDeformer num).

Lemma splice1_last ms m : splice1 (length ms) (ms ++ [m]) = ms.
Proof. induction ms as [|m' ms IH]; simpl; [reflexivity | rewrite IH; reflexivity]. Qed.

Lemma withAmplitude_same m : withAmplitude m (amplitude m) = m.
Proof. destruct m. reflexivity. Qed.

Lemma deformer_eta sd : mkDeformer (baseRadius sd) (modes sd) = sd.
Proof. destruct sd. reflexivity. Qed.

(** What [applyPreset] leaves at every index. *)
Lemma applyPreset_nth sd (p : Preset num) k :
  nth_error (modes (applyPreset sd p)) k =
  match nth_error (modes sd) k with
  | Some m => Some match nth_error (amplitudes p) k with
                   | Some a => withAmplitude m a
                   | None => m
                   end
  | None => None
  end.
Proof.
  unfold applyPreset. cbn [modes].
  rewrite applyPresetFrom_nth by lia. reflexivity.
Qed.

Lemma nth_error_same_length (A B : Type) (l1 : list A) (l2 : list B) :
  (forall k, nth_error l1 k = None <-> nth_error l2 k = None) ->
  length l1 = length l2.
Proof.
  intros H.
  destruct (Nat.lt_trichotomy (length l1) (length l2)) as [Hlt|[Heq|Hgt]];
    [exfalso | exact Heq | exfalso].
  - assert (E : nth_error l2 (length l1) = None)
      by (apply H, nth_error_None; lia).
    apply nth_error_None in E. lia.
  - assert (E : nth_error l1 (length l2) = None)
      by (apply H, nth_error_None; lia).
    apply nth_error_None in E. lia.
Qed.

Lemma applyPreset_length sd (p : Preset num) :
  length (modes (applyPreset sd p)) = length (modes sd).
Proof.
  apply nth_error_same_length. intros k. rewrite applyPreset_nth.
  destruct (nth_error (modes sd) k); split; intros; try discriminate;
    reflexivity.
Qed.

Lemma assignAmplitude_twice i (v w : num) ms :
  assignAmplitude i w (assignAmplitude i v ms) = assignAmplitude i w ms.
Proof.
  apply nth_error_ext. intros k. rewrite !assignAmplitude_nth.
  destruct (Nat.eqb k i); [|reflexivity].
  destruct (nth_error ms k); reflexivity.
Qed.

Lemma assignAmplitude_swap i j (v w : num) ms :
  i <> j ->
  assignAmplitude j w (assignAmplitude i v ms) =
  assignAmplitude i v (assignAmplitude j w ms).
Proof.
  intros Hij. apply nth_error_ext. intros k. rewrite !assignAmplitude_nth.
  destruct (Nat.eqb k j) eqn:Ej, (Nat.eqb k i) eqn:Ei; try reflexivity.
  apply Nat.eqb_eq in Ej, Ei. congruence.
Qed.

Lemma assignAmplitude_same i ms m :
  nth_error ms i = Some m -> assignAmplitude i (amplitude m) ms = ms.
Proof.
  intros Hm. apply nth_error_ext. intros k. rewrite assignAmplitude_nth.
  destruct (Nat.eqb k i) eqn:E; [|reflexivity].
  apply Nat.eqb_eq in E. subst k. rewrite Hm. cbn.
  rewrite withAmplitude_same. reflexivity.
Qed.

Lemma assignAmplitude_names i (v : num) ms :
  map name (assignAmplitude i v ms) = map name ms.
Proof.
  revert i; induction ms as [|m ms IH]; intros [|i]; simpl; try reflexivity.
  rewrite IH. reflexivity.
Qed.

Lemma setAmplitude_modes sd (index : Z) (v : num) :
  modes (fst (setAmplitude sd index v)) =
  if inRange index (modes sd)
  then assignAmplitude (Z.to_nat index) v (modes sd) else modes sd.
Proof. unfold setAmplitude. destruct (inRange index (modes sd)); reflexivity. Qed.

Lemma setAmplitude_baseRadius sd (index : Z) (v : num) :
  baseRadius (fst (setAmplitude sd index v)) = baseRadius sd.
Proof. unfold setAmplitude. destruct (inRange index (modes sd)); reflexivity. Qed.

Lemma setAmplitude_inRange sd (index j : Z) (v : num) :
  inRange j (modes (fst (setAmplitude sd index v))) = inRange j (modes sd).
Proof.
  rewrite setAmplitude_modes. unfold inRange.
  destruct ((0 <=? index)%Z && (index <? Z.of_nat (length (modes sd)))%Z);
    [rewrite assignAmplitude_length|]; reflexivity.
Qed.

Lemma deformer_ext sd sd' :
  baseRadius sd = baseRadius sd' -> modes sd = modes sd' -> sd = sd'.
Proof. destruct sd, sd'. cbn. intros -> ->. reflexivity. Qed.

End ModeContainer.

(** X1: [addMode] appends: it returns the former mode count as the index,
    the new mode is found at that index and the earlier modes keep theirs;
    [removeMode] at the returned index gives back the deformer as it was. *)
Theorem addMode_then_removeMode (num : Type)
    (sd : ShapeDeformer num) (m : DeformationMode num) :
  let sd' := fst (addMode sd m) in
  let index := snd (addMode sd m) in
  index = Z.of_nat (length (modes sd)) /\
  length (modes sd') = S (length (modes sd)) /\
  nth_error (modes sd') (Z.to_nat index) = Some m /\
  (forall k, (k < length (modes sd))%nat ->
     nth_error (modes sd') k = nth_error (modes sd) k) /\
  getModeNames sd' = getModeNames sd ++ [name m] /\
  removeMode sd' index = (sd, true).
Proof.
  intros sd' index. unfold sd', index, addMode. cbn [fst snd modes baseRadius].
  rewrite length_app. cbn [length].
  assert (Hidx : (Z.of_nat (length (modes sd) + 1) - 1)%Z
                 = Z.of_nat (length (modes sd))) by lia.
  rewrite Hidx, Nat2Z.id.
  split; [reflexivity|]. split; [lia|]. split.
  { rewrite nth_error_app2 by lia. rewrite Nat.sub_diag. reflexivity. }
  split.
  { intros k Hk. apply nth_error_app1. exact Hk. }
  split.
  { unfold getModeNames. cbn [modes]. rewrite map_app. reflexivity. }
  unfold removeMode. cbn [modes baseRadius].
  replace (inRange (Z.of_nat (length (modes sd))) (modes sd ++ [m])) with true.
  - rewrite Nat2Z.id, splice1_last, deformer_eta. reflexivity.
  - symmetry. apply inRange_true. rewrite length_app. cbn [length]. lia.
Qed.

(** X2: [getCurrentPreset] and [applyPreset] round-trip: applying the
    current preset changes nothing, and a preset saved before any other
    preset was applied restores the deformer when it is applied again. *)
Theorem applyPreset_restores_saved (num : Type)
    (sd : ShapeDeformer num) (p : Preset num) (n : string) :
  applyPreset sd (getCurrentPreset sd n) = sd /\
  applyPreset (applyPreset sd p) (getCurrentPreset sd n) = sd.
Proof.
  split.
  - apply deformer_ext; [reflexivity|].
    apply nth_error_ext. intros k. rewrite applyPreset_nth.
    cbn [getCurrentPreset amplitudes]. rewrite nth_error_map.
    destruct (nth_error (modes sd) k) as [m|]; [|reflexivity].
    cbn. rewrite withAmplitude_same. reflexivity.
  - apply deformer_ext; [reflexivity|].
    apply nth_error_ext. intros k. rewrite !applyPreset_nth.
    cbn [getCurrentPreset amplitudes]. rewrite nth_error_map.
    destruct (nth_error (modes sd) k) as [m|]; [|reflexivity].
    cbn. destruct (nth_error (amplitudes p) k) as [a|];
      destruct m; reflexivity.
Qed.

(** X3: of two presets applied in a row the later one wins when it is at
    least as long as the earlier; in particular [applyPreset] is
    idempotent.  A preset at least as long as the mode list fixes every
    amplitude, whatever the amplitudes were before. *)
Theorem applyPreset_later_wins (num : Type)
    (sd : ShapeDeformer num) (p q : Preset num) (n : string) :
  applyPreset (applyPreset sd p) p = applyPreset sd p /\
  ((length (amplitudes p) <= length (amplitudes q))%nat ->
   applyPreset (applyPreset sd p) q = applyPreset sd q) /\
  ((length (modes sd) <= length (amplitudes q))%nat ->
   amplitudes (getCurrentPreset (applyPreset sd q) n) =
   firstn (length (modes sd)) (amplitudes q)).
Proof.
  assert (Hwins : forall p' q' : Preset num,
            (length (amplitudes p') <= length (amplitudes q'))%nat ->
            applyPreset (applyPreset sd p') q' = applyPreset sd q').
  { intros p' q' Hlen. apply deformer_ext; [reflexivity|].
    apply nth_error_ext. intros k. rewrite !applyPreset_nth.
    destruct (nth_error (modes sd) k) as [m|]; [|reflexivity].
    destruct (nth_error (amplitudes q') k) as [b|] eqn:Eq.
    - destruct (nth_error (amplitudes p') k); reflexivity.
    - apply nth_error_None in Eq.
      replace (nth_error (amplitudes p') k) with (@None num)
        by (symmetry; apply nth_error_None; lia).
      reflexivity. }
  split; [apply Hwins; lia|]. split; [apply Hwins|].
  intros Hlen. cbn [getCurrentPreset amplitudes].
  apply nth_error_ext. intros k.
  rewrite nth_error_map, applyPreset_nth, nth_error_firstn.
  destruct (Nat.ltb k (length (modes sd))) eqn:Hk.
  - apply Nat.ltb_lt in Hk.
    destruct (nth_error (modes sd) k) as [m|] eqn:Em;
      [|apply nth_error_None in Em; lia].
    destruct (nth_error (amplitudes q) k) as [b|] eqn:Eq;
      [reflexivity | apply nth_error_None in Eq; lia].
  - apply Nat.ltb_ge in Hk.
    replace (nth_error (modes sd) k) with (@None (DeformationMode num))
      by (symmetry; apply nth_error_None; lia).
    reflexivity.
Qed.

Lemma applyPreset_later_wins_witness :
  amplitudes
    (getCurrentPreset
       (applyPreset (fst (setAmplitude sphere200 1 7%float))
          (mkPreset "Star" (map ofZ [30; 0; 0; 0; 0; 0; 0]%Z))) "Custom")
  = [30%float; 0%float; 0%float; 0%float; 0%float; 0%float; 0%float].
Proof.
  rewrite (proj2 (proj2 (applyPreset_later_wins
                           (fst (setAmplitude sphere200 1 7%float))
                           (mkPreset "Star" (map ofZ [30; 0; 0; 0; 0; 0; 0]%Z))
                           (mkPreset "Star" (map ofZ [30; 0; 0; 0; 0; 0; 0]%Z))
                           "Custom"))).
  - reflexivity.
  - vm_compute. lia.
Defined.

(** X4: writes of amplitudes through [setAmplitude]: a second write at the
    same index replaces the first, writes at different indices commute, a
    write never changes which indices are valid, and writing the amplitude a
    mode already has changes nothing. *)
Theorem setAmplitude_writes (num : Type)
    (sd : ShapeDeformer num) (i j : Z) (v w : num) :
  fst (setAmplitude (fst (setAmplitude sd i v)) i w) = fst (setAmplitude sd i w) /\
  (i <> j ->
   fst (setAmplitude (fst (setAmplitude sd i v)) j w) =
   fst (setAmplitude (fst (setAmplitude sd j w)) i v)) /\
  snd (setAmplitude (fst (setAmplitude sd i v)) j w) = snd (setAmplitude sd j w) /\
  (forall m, (0 <= i)%Z -> nth_error (modes sd) (Z.to_nat i) = Some m ->
     setAmplitude sd i (amplitude m) = (sd, true)).
Proof.
  split; [|split; [|split]].
  - apply deformer_ext; [rewrite !setAmplitude_baseRadius; reflexivity|].
    rewrite (setAmplitude_modes (fst (setAmplitude sd i v)) i w).
    rewrite setAmplitude_inRange, !setAmplitude_modes.
    destruct (inRange i (modes sd)); [|reflexivity].
    apply assignAmplitude_twice.
  - intros Hij. apply deformer_ext;
      [rewrite !setAmplitude_baseRadius; reflexivity|].
    rewrite (setAmplitude_modes (fst (setAmplitude sd i v)) j w).
    rewrite (setAmplitude_modes (fst (setAmplitude sd j w)) i v).
    rewrite !setAmplitude_inRange, !setAmplitude_modes.
    destruct (inRange i (modes sd)) eqn:Hi, (inRange j (modes sd)) eqn:Hj;
      try reflexivity.
    apply assignAmplitude_swap.
    apply inRange_true in Hi, Hj. lia.
  - unfold setAmplitude at 1 3. rewrite setAmplitude_inRange.
    destruct (inRange j (modes sd)); reflexivity.
  - intros m Hi Hm. unfold setAmplitude.
    assert (Hlt : (Z.to_nat i < length (modes sd))%nat)
      by (apply nth_error_Some; congruence).
    replace (inRange i (modes sd)) with true
      by (symmetry; apply inRange_true; lia).
    rewrite (assignAmplitude_same _ _ Hm), deformer_eta. reflexivity.
Qed.

Lemma setAmplitude_writes_witness :
  fst (setAmplitude (fst (setAmplitude sphere200 1 7%float)) 3 9%float) =
  fst (setAmplitude (fst (setAmplitude sphere200 3 9%float)) 1 7%float).
Proof.
  apply (proj1 (proj2 (setAmplitude_writes sphere200 1 3 7%float 9%float))).
  lia.
Defined.

(** ** Mode metadata *)

Section Metadata.
Context {num : Type}.

Lemma applyPreset_names (sd : ShapeDeformer num) (p : Preset num) :
  map name (modes (applyPreset sd p)) = map name (modes sd).
Proof.
  apply nth_error_ext. intros k. rewrite !nth_error_map, applyPreset_nth.
  destruct (nth_error (modes sd) k) as [m|]; [|reflexivity].
  destruct (nth_error (amplitudes p) k); reflexivity.
Qed.

Lemma applyPreset_defaults (sd : ShapeDeformer num) (p : Preset num) :
  map defaultAmplitude (modes (applyPreset sd p)) =
  map defaultAmplitude (modes sd).
Proof.
  apply nth_error_ext. intros k. rewrite !nth_error_map, applyPreset_nth.
  destruct (nth_error (modes sd) k) as [m|]; [|reflexivity].
  destruct (nth_error (amplitudes p) k); reflexivity.
Qed.

End Metadata.


(** ** [draw]: how many triangles *)

Section TriangleCount.
Context {num : Type} {arith : JsArith num} {math : JsMath num}.

Lemma quadsOfRows_length (r0 : list (Point num)) : forall r1,
  length r1 = length r0 ->
  length (quadsOfRows r0 r1) = (length r0 - 1)%nat.
Proof.
  induction r0 as [|a r0 IH]; intros r1 Hlen; [reflexivity|].
  destruct r0 as [|b r0]; [reflexivity|].
  destruct r1 as [|c [|d r1]]; try discriminate.
  change (S (length (quadsOfRows (b :: r0) (d :: r1))) =
          (length (a :: b :: r0) - 1)%nat).
  rewrite IH by (simpl in *; lia). simpl. lia.
Qed.

Lemma quadsOfGrid_length (g : list (list (Point num))) (n : nat) :
  Forall (fun row => length row = n) g ->
  length (quadsOfGrid g) = ((length g - 1) * (n - 1))%nat.
Proof.
  induction g as [|r0 g IH]; intros Hg; [reflexivity|].
  inversion Hg as [|? ? H0 Hg']; subst.
  destruct g as [|r1 g]; [reflexivity|].
  change (quadsOfGrid (r0 :: r1 :: g))
    with (quadsOfRows r0 r1 ++ quadsOfGrid (r1 :: g)).
  rewrite length_app, (IH Hg').
  inversion Hg' as [|? ? H1 _]; subst.
  rewrite quadsOfRows_length by congruence.
  simpl. lia.
Qed.

Lemma candidates_length (this : Renderer num) (rotX camAngle depth : num)
    (qs : list (Point num * Point num * Point num * Point num)) :
  length (flat_map (quadCandidates this rotX camAngle depth) qs) =
  (2 * length qs)%nat.
Proof.
  induction qs as [|[[[a b] c] d] qs IH]; [reflexivity|].
  cbn [flat_map]. rewrite length_app, IH. simpl. lia.
Qed.

End TriangleCount.

(** X6: [draw] examines exactly [2 * numPointsTheta * numPointsPhi]
    candidate triangles (none for a negative resolution) and paints at most
    that many. *)
Theorem draw_triangle_count (num : Type) (arith : JsArith num)
    (math : JsMath num) (this : Renderer num) (rotX camAngle depth : num)
    (nT nP : Z) :
  let g := createDeformedSphere (shapeDeformer this) nT nP in
  length (flat_map (quadCandidates this rotX camAngle depth) (quadsOfGrid g))
    = (2 * (Z.to_nat nP * Z.to_nat nT))%nat /\
  exists painted,
    draw this rotX camAngle depth nT nP = Some painted /\
    (length painted <= 2 * (Z.to_nat nP * Z.to_nat nT))%nat.
Proof.
  intros g.
  assert (Hq : length (quadsOfGrid g) = (Z.to_nat nP * Z.to_nat nT)%nat).
  { unfold g. rewrite (@quadsOfGrid_length _ _ (Z.to_nat (nT + 1))).
    - rewrite createDeformedSphere_rows.
      replace (Z.to_nat (nP + 1) - 1)%nat with (Z.to_nat nP) by lia.
      replace (Z.to_nat (nT + 1) - 1)%nat with (Z.to_nat nT) by lia.
      reflexivity.
    - apply Forall_forall. intros row. apply createDeformedSphere_columns. }
  split; [rewrite candidates_length, Hq; reflexivity|].
  eexists. split; [apply draw_paints_survivors|].
  rewrite (Permutation_length (sortBy_perm compareAvgZ _)).
  unfold survivors, kept. fold g. rewrite length_map.
  eapply Nat.le_trans; [apply filter_length_le|].
  rewrite candidates_length, Hq. lia.
Qed.

(** ** The controls: [resetDeformationUI], [updateDeformationUI] *)

Section ControlLoops.
Context {num : Type} {arith : JsArith num}.
Implicit Types (s : UiState num) (array : list (option (Shown num))).

Lemma assignField_present i (v : Shown num) array :
  present array i = true ->
  exists array', assignField i v array = Some array' /\
    forall k, nth_error array' k =
              if Nat.eqb k i then Some (Some v) else nth_error array k.
Proof.
  revert i; induction array as [|e array IH]; intros [|i] Hp;
    unfold present in Hp; cbn in Hp; try discriminate.
  - destruct e as [x|]; [|discriminate]. eexists. split; [reflexivity|].
    intros [|k]; reflexivity.
  - destruct (IH i) as [array' [Ha Hn]]; [exact Hp|].
    cbn [assignField]. rewrite Ha. destruct e; eexists;
      (split; [reflexivity|]); intros [|k]; cbn; try reflexivity; apply Hn.
Qed.

Lemma assignField_absent i (v : Shown num) array :
  present array i = false -> assignField i v array = None.
Proof.
  revert i; induction array as [|e array IH]; intros [|i] Hp;
    unfold present in Hp; cbn in Hp; try reflexivity.
  - destruct e; [discriminate | reflexivity].
  - cbn [assignField]. rewrite (IH i Hp). destruct e; reflexivity.
Qed.

(** A loop whose every round keeps an invariant and completes, completes and
    ends in the invariant. *)
Lemma uiLoop_invariant (body : nat -> UiState num -> UiState num * bool)
    (Inv : nat -> UiState num -> Prop) (count : nat) :
  forall start s,
  Inv start s ->
  (forall i s', (start <= i < start + count)%nat -> Inv i s' ->
     snd (body i s') = true /\ Inv (S i) (fst (body i s'))) ->
  snd (uiLoop body start count s) = true /\
  Inv (start + count)%nat (fst (uiLoop body start count s)).
Proof.
  induction count as [|count IH]; intros start s Hinv Hstep.
  - cbn. rewrite Nat.add_0_r. split; [reflexivity | exact Hinv].
  - cbn [uiLoop].
    destruct (Hstep start s) as [Hok Hnext]; [lia | exact Hinv |].
    destruct (body start s) as [s' ok]. cbn in Hok, Hnext. subst ok.
    replace (start + S count)%nat with (S start + count)%nat by lia.
    apply IH; [exact Hnext|].
    intros i s'' Hi. apply Hstep. lia.
Qed.

End ControlLoops.

Section ControlRounds.
Context {num : Type} {arith : JsArith num}.
Implicit Types (s : UiState num).

Lemma resetDone_length s0 i s :
  resetDone s0 i s ->
  length (modes (uiDeformer s)) = length (modes (uiDeformer s0)).
Proof.
  intros [_ [R2 _]]. apply nth_error_same_length. intros k. rewrite R2.
  destruct (nth_error (modes (uiDeformer s0)) k); cbn; split; intros;
    try discriminate; reflexivity.
Qed.

Lemma resetDone_present s0 i s :
  resetDone s0 i s ->
  present (modeSliders s) i = present (modeSliders s0) i /\
  present (modeValues s) i = present (modeValues s0) i.
Proof.
  intros [_ [_ [R3 R4]]]. unfold present at 1 3. rewrite R3, R4.
  rewrite Nat.ltb_irrefl, andb_false_r. split; reflexivity.
Qed.

Lemma resetRound_step s0 i s :
  widgetsPaired s0 -> (i < length (modes (uiDeformer s0)))%nat ->
  resetDone s0 i s ->
  snd (resetRound i s) = true /\ resetDone s0 (S i) (fst (resetRound i s)).
Proof.
  intros Hpair Hi Hinv.
  pose proof (resetDone_length Hinv) as Hlen.
  destruct (resetDone_present Hinv) as [Hps Hpv].
  destruct Hinv as [R1 [R2 [R3 R4]]].
  assert (Hmodes : forall k,
            nth_error (modes (fst (setAmplitude (uiDeformer s) (Z.of_nat i)
                                     (ofZ 0)))) k =
            option_map (fun m => if Nat.ltb k (S i)
                                 then withAmplitude m (ofZ 0) else m)
                       (nth_error (modes (uiDeformer s0)) k)).
  { intros k. rewrite setAmplitude_modes.
    replace (inRange (Z.of_nat i) (modes (uiDeformer s))) with true
      by (symmetry; apply inRange_true; lia).
    rewrite Nat2Z.id, assignAmplitude_nth, R2.
    destruct (nth_error (modes (uiDeformer s0)) k) as [m|];
      [|destruct (Nat.eqb k i); reflexivity].
    cbn [option_map].
    destruct (Nat.eqb_spec k i), (Nat.ltb_spec k i), (Nat.ltb_spec k (S i));
      subst; try lia; reflexivity. }
  assert (Hkeep : forall (A : Type) (x y : A) k, k <> i \/
            present (modeSliders s0) k = false ->
            (if present (modeSliders s0) k && Nat.ltb k (S i) then x else y) =
            (if present (modeSliders s0) k && Nat.ltb k i then x else y)).
  { intros A x y k [Hk|Hk].
    - destruct (Nat.ltb_spec k i), (Nat.ltb_spec k (S i)); try lia; reflexivity.
    - rewrite Hk. reflexivity. }
  unfold resetRound. rewrite Hps.
  destruct (present (modeSliders s0) i) eqn:Hp.
  - destruct (@assignField_present num i (ShownNumber (ofZ 0)) (modeSliders s))
      as [sliders [Es Hs]]; [exact Hps|].
    destruct (@assignField_present num i (@ShownText num "0") (modeValues s))
      as [values [Ev Hv]]; [rewrite Hpv; apply Hpair; assumption|].
    rewrite Es, Ev. cbn [fst snd]. split; [reflexivity|].
    unfold resetDone. cbn [uiDeformer modeSliders modeValues].
    split; [rewrite setAmplitude_baseRadius; exact R1|].
    split; [exact Hmodes|]. split.
    + intros k. rewrite Hs, R3.
      destruct (Nat.eqb_spec k i) as [->|Hk].
      * rewrite Hp. replace (Nat.ltb i (S i)) with true
          by (symmetry; apply Nat.ltb_lt; lia).
        reflexivity.
      * symmetry. apply Hkeep. left. exact Hk.
    + intros k. rewrite Hv, R4.
      destruct (Nat.eqb_spec k i) as [->|Hk].
      * rewrite Hp. replace (Nat.ltb i (S i)) with true
          by (symmetry; apply Nat.ltb_lt; lia).
        reflexivity.
      * symmetry. apply Hkeep. left. exact Hk.
  - cbn [fst snd]. split; [reflexivity|].
    unfold resetDone. cbn [uiDeformer modeSliders modeValues].
    split; [rewrite setAmplitude_baseRadius; exact R1|].
    split; [exact Hmodes|]. split.
    + intros k. rewrite R3. symmetry. apply Hkeep.
      destruct (Nat.eqb_spec k i) as [->|Hk]; [right; exact Hp | left; exact Hk].
    + intros k. rewrite R4. symmetry. apply Hkeep.
      destruct (Nat.eqb_spec k i) as [->|Hk]; [right; exact Hp | left; exact Hk].
Qed.

Lemma resetDone_start s0 : resetDone s0 0 s0.
Proof.
  unfold resetDone. split; [reflexivity|]. split; [|split].
  - intros k. destruct (nth_error (modes (uiDeformer s0)) k); reflexivity.
  - intros k. rewrite andb_false_r. reflexivity.
  - intros k. rewrite andb_false_r. reflexivity.
Qed.

End ControlRounds.

Section UpdateRounds.
Context {num : Type} {arith : JsArith num}.
Implicit Types (s : UiState num).

Lemma updateDone_present s0 i s :
  updateDone s0 i s ->
  present (modeSliders s) i = present (modeSliders s0) i /\
  present (modeValues s) i = present (modeValues s0) i.
Proof.
  intros [_ [U2 U3]]. unfold present at 1 3. rewrite U2, U3.
  rewrite Nat.ltb_irrefl, andb_false_r. split; reflexivity.
Qed.

Lemma updateRound_step s0 i s :
  widgetsPaired s0 -> (i < length (modes (uiDeformer s0)))%nat ->
  updateDone s0 i s ->
  snd (updateRound i s) = true /\ updateDone s0 (S i) (fst (updateRound i s)).
Proof.
  intros Hpair Hi Hinv.
  destruct (updateDone_present Hinv) as [Hps Hpv].
  destruct Hinv as [U1 [U2 U3]].
  assert (Hkeep : forall (A : Type) (x y : A) k, k <> i \/
            present (modeSliders s0) k = false ->
            (if present (modeSliders s0) k && Nat.ltb k (S i) then x else y) =
            (if present (modeSliders s0) k && Nat.ltb k i then x else y)).
  { intros A x y k [Hk|Hk].
    - destruct (Nat.ltb_spec k i), (Nat.ltb_spec k (S i)); try lia; reflexivity.
    - rewrite Hk. reflexivity. }
  unfold updateRound. rewrite Hps, U1.
  destruct (present (modeSliders s0) i) eqn:Hp.
  - destruct (@nth_error_in_range _ (modes (uiDeformer s0)) i Hi) as [m Hm].
    rewrite Hm.
    destruct (@assignField_present num i (ShownNumber (amplitude m))
                (modeSliders s)) as [sliders [Es Hs]]; [exact Hps|].
    destruct (@assignField_present num i (ShownSliderValue (amplitude m))
                (modeValues s)) as [values [Ev Hv]];
      [rewrite Hpv; apply Hpair; assumption|].
    rewrite Es, Ev. cbn [fst snd]. split; [reflexivity|].
    unfold updateDone. cbn [uiDeformer modeSliders modeValues].
    split; [reflexivity|]. split.
    + intros k. rewrite Hs, U2.
      destruct (Nat.eqb_spec k i) as [->|Hk].
      * rewrite Hp, Hm. replace (Nat.ltb i (S i)) with true
          by (symmetry; apply Nat.ltb_lt; lia).
        reflexivity.
      * symmetry. apply Hkeep. left. exact Hk.
    + intros k. rewrite Hv, U3.
      destruct (Nat.eqb_spec k i) as [->|Hk].
      * rewrite Hp, Hm. replace (Nat.ltb i (S i)) with true
          by (symmetry; apply Nat.ltb_lt; lia).
        reflexivity.
      * symmetry. apply Hkeep. left. exact Hk.
  - cbn [fst snd]. split; [reflexivity|].
    unfold updateDone. split; [exact U1|]. split.
    + intros k. rewrite U2. symmetry. apply Hkeep.
      destruct (Nat.eqb_spec k i) as [->|Hk]; [right; exact Hp | left; exact Hk].
    + intros k. rewrite U3. symmetry. apply Hkeep.
      destruct (Nat.eqb_spec k i) as [->|Hk]; [right; exact Hp | left; exact Hk].
Qed.

Lemma updateDone_start s0 : updateDone s0 0 s0.
Proof.
  unfold updateDone. split; [reflexivity|]. split.
  - intros k. rewrite andb_false_r. reflexivity.
  - intros k. rewrite andb_false_r. reflexivity.
Qed.

(** [updateDeformationUI] on paired widgets completes and ends with every
    round done. *)
Lemma updateDeformationUI_done s :
  widgetsPaired s ->
  snd (updateDeformationUI s) = true /\
  updateDone s (length (modes (uiDeformer s))) (fst (updateDeformationUI s)).
Proof.
  intros Hpair. unfold updateDeformationUI.
  apply (@uiLoop_invariant num updateRound (updateDone s)
           (length (modes (uiDeformer s))) 0 s).
  - apply updateDone_start.
  - intros i s' Hi Hinv. apply updateRound_step; [exact Hpair | lia | exact Hinv].
Qed.

(** [resetDeformationUI] on paired widgets completes and ends with every
    round done. *)
Lemma resetDeformationUI_done s :
  widgetsPaired s ->
  snd (resetDeformationUI s) = true /\
  resetDone s (length (modes (uiDeformer s))) (fst (resetDeformationUI s)).
Proof.
  intros Hpair. unfold resetDeformationUI.
  apply (@uiLoop_invariant num resetRound (resetDone s)
           (length (modes (uiDeformer s))) 0 s).
  - apply resetDone_start.
  - intros i s' Hi Hinv. apply resetRound_step; [exact Hpair | lia | exact Hinv].
Qed.

End UpdateRounds.

Lemma sevenSliders_paired : widgetsPaired sevenSliders.
Proof.
  intros i Hi _.
  do 7 (destruct i as [|i]; [reflexivity|]).
  exfalso. vm_compute in Hi. lia.
Qed.

(** X7: [resetDeformationUI], when every slider has its display, completes
    without raising and sets every amplitude to 0 (not to the default
    amplitude), keeping the base radius, the mode count and every other
    field of every mode; each slider of a mode is assigned 0 and its display
    the text "0", and the holes of the two arrays stay holes. *)
Theorem resetDeformationUI_zeroes (num : Type) (arith : JsArith num)
    (s : UiState num) :
  widgetsPaired s ->
  let s' := fst (resetDeformationUI s) in
  let count := length (modes (uiDeformer s)) in
  snd (resetDeformationUI s) = true /\
  baseRadius (uiDeformer s') = baseRadius (uiDeformer s) /\
  modes (uiDeformer s') =
    map (fun m => withAmplitude m (ofZ 0)) (modes (uiDeformer s)) /\
  (forall k, nth_error (modeSliders s') k =
     if present (modeSliders s) k && Nat.ltb k count
     then Some (Some (ShownNumber (ofZ 0)))
     else nth_error (modeSliders s) k) /\
  (forall k, nth_error (modeValues s') k =
     if present (modeSliders s) k && Nat.ltb k count
     then Some (Some (@ShownText num "0"))
     else nth_error (modeValues s) k).
Proof.
  intros Hpair s' count.
  destruct (resetDeformationUI_done Hpair) as [Hok [R1 [R2 [R3 R4]]]].
  split; [exact Hok|]. split; [exact R1|]. split; [|split; assumption].
  apply nth_error_ext. intros k. unfold s'. rewrite R2, nth_error_map.
  destruct (nth_error (modes (uiDeformer s)) k) as [m|] eqn:Em; [|reflexivity].
  assert (k < length (modes (uiDeformer s)))%nat
    by (apply nth_error_Some; congruence).
  replace (Nat.ltb k (length (modes (uiDeformer s)))) with true
    by (symmetry; apply Nat.ltb_lt; assumption).
  reflexivity.
Qed.

Lemma resetDeformationUI_zeroes_witness :
  snd (resetDeformationUI sevenSliders) = true /\
  map amplitude (modes (uiDeformer (fst (resetDeformationUI sevenSliders)))) =
  [0%float; 0%float; 0%float; 0%float; 0%float; 0%float; 0%float].
Proof.
  destruct (@resetDeformationUI_zeroes _ _ sevenSliders sevenSliders_paired)
    as [Hok [_ [Hmodes _]]].
  split; [exact Hok|]. rewrite Hmodes. reflexivity.
Defined.



(** ** [rotatePoint]: the two rotations *)

Section Rotation.
Import Exact ExactFacts.
Local Open Scope js_scope.

(** [rotatePoint] on finite numbers, with the angles in radians. *)
Lemma rotatePoint_exact (x y z ax ay : R) :
  rotatePoint (mkPoint (Fin x) (Fin y) (Fin z)) (Fin ax) (Fin ay) =
  mkPoint
    (Fin (x * cos (ay / 100 * PI)
          + (y * sin (ax / 100 * PI) + z * cos (ax / 100 * PI))
            * sin (ay / 100 * PI)))
    (Fin (y * cos (ax / 100 * PI) - z * sin (ax / 100 * PI)))
    (Fin (- x * sin (ay / 100 * PI)
          + (y * sin (ax / 100 * PI) + z * cos (ax / 100 * PI))
            * cos (ay / 100 * PI))).
Proof.
  unfold rotatePoint. cbn. rewrite Reqb_false by lra. cbn. reflexivity.
Qed.

(** The two rotations keep the distance to the origin. *)
Lemma rotation_norm (x y z sx cx sy cy : R) :
  (sx * sx + cx * cx = 1)%R -> (sy * sy + cy * cy = 1)%R ->
  ((x * cy + (y * sx + z * cx) * sy) * (x * cy + (y * sx + z * cx) * sy)
   + (y * cx - z * sx) * (y * cx - z * sx)
   + (- x * sy + (y * sx + z * cx) * cy) * (- x * sy + (y * sx + z * cx) * cy)
   = x * x + y * y + z * z)%R.
Proof.
  intros Hx Hy.
  replace ((x * cy + (y * sx + z * cx) * sy) * (x * cy + (y * sx + z * cx) * sy)
   + (y * cx - z * sx) * (y * cx - z * sx)
   + (- x * sy + (y * sx + z * cx) * cy) * (- x * sy + (y * sx + z * cx) * cy))%R
    with (x * x * (sy * sy + cy * cy)
          + (y * sx + z * cx) * (y * sx + z * cx) * (sy * sy + cy * cy)
          + (y * cx - z * sx) * (y * cx - z * sx))%R by ring.
  rewrite Hy.
  replace (x * x * 1 + (y * sx + z * cx) * (y * sx + z * cx) * 1
           + (y * cx - z * sx) * (y * cx - z * sx))%R
    with (x * x + (y * y + z * z) * (sx * sx + cx * cx))%R by ring.
  rewrite Hx. ring.
Qed.

Lemma rotatePoint_norm (x y z ax ay : R) :
  exists x' y' z' : R,
    rotatePoint (mkPoint (Fin x) (Fin y) (Fin z)) (Fin ax) (Fin ay) =
      mkPoint (Fin x') (Fin y') (Fin z') /\
    (x' * x' + y' * y' + z' * z' = x * x + y * y + z * z)%R.
Proof.
  rewrite rotatePoint_exact. do 3 eexists. split; [reflexivity|].
  apply rotation_norm.
  - pose proof (sin2_cos2 (ax / 100 * PI)) as H. unfold Rsqr in H. exact H.
  - pose proof (sin2_cos2 (ay / 100 * PI)) as H. unfold Rsqr in H. exact H.
Qed.

Lemma full_turn (a : R) : ((a + 200) / 100 * PI = a / 100 * PI + 2 * PI)%R.
Proof. field. Qed.

Lemma angle_sum (a b : R) : ((a + b) / 100 * PI = a / 100 * PI + b / 100 * PI)%R.
Proof. field. Qed.

Lemma zero_angle : (0 / 100 * PI = 0)%R.
Proof. field. Qed.

End Rotation.

(** X9: in exact arithmetic [rotatePoint] on finite numbers is a rotation.
    It keeps the distance of a point to the origin; angles 0, 0 leave the
    point as it is; the angle unit is a hundredth of a half turn, so adding
    200 to either angle changes nothing; and two successive rotations about
    the same axis are the one rotation by the sum of the angles. *)
Theorem rotatePoint_rotation (x y z ax ay bx by_ : R) :
  let p := mkPoint (Exact.Fin x) (Exact.Fin y) (Exact.Fin z) in
  (exists x' y' z' : R,
     rotatePoint p (Exact.Fin ax) (Exact.Fin ay) =
       mkPoint (Exact.Fin x') (Exact.Fin y') (Exact.Fin z') /\
     (x' * x' + y' * y' + z' * z' = x * x + y * y + z * z)%R) /\
  rotatePoint p (Exact.Fin 0) (Exact.Fin 0) = p /\
  rotatePoint p (Exact.Fin (ax + 200)) (Exact.Fin ay) =
    rotatePoint p (Exact.Fin ax) (Exact.Fin ay) /\
  rotatePoint p (Exact.Fin ax) (Exact.Fin (ay + 200)) =
    rotatePoint p (Exact.Fin ax) (Exact.Fin ay) /\
  rotatePoint (rotatePoint p (Exact.Fin ax) (Exact.Fin 0))
              (Exact.Fin bx) (Exact.Fin 0) =
    rotatePoint p (Exact.Fin (ax + bx)) (Exact.Fin 0) /\
  rotatePoint (rotatePoint p (Exact.Fin 0) (Exact.Fin ay))
              (Exact.Fin 0) (Exact.Fin by_) =
    rotatePoint p (Exact.Fin 0) (Exact.Fin (ay + by_)).
Proof.
  intros p. unfold p. split; [apply rotatePoint_norm|].
  repeat split.
  - rewrite rotatePoint_exact, zero_angle, sin_0, cos_0.
    f_equal; f_equal; ring.
  - rewrite !rotatePoint_exact, full_turn.
    replace (ax / 100 * PI + 2 * PI)%R with (ax / 100 * PI + 2 * INR 1 * PI)%R
      by (simpl; ring).
    rewrite sin_period, cos_period. reflexivity.
  - rewrite !rotatePoint_exact, full_turn.
    replace (ay / 100 * PI + 2 * PI)%R with (ay / 100 * PI + 2 * INR 1 * PI)%R
      by (simpl; ring).
    rewrite sin_period, cos_period. reflexivity.
  - rewrite !rotatePoint_exact, angle_sum, zero_angle, sin_0, cos_0,
      sin_plus, cos_plus.
    f_equal; f_equal; ring.
  - rewrite !rotatePoint_exact, angle_sum, zero_angle, sin_0, cos_0,
      sin_plus, cos_plus.
    f_equal; f_equal; ring.
Qed.

(** ** [createDeformedSphere]: how far a deformation moves the surface *)

Section Shell.
Import Exact ExactFacts.
Local Open Scope js_scope.

Lemma Rabs_le_1_sin (x : R) : (Rabs (sin x) <= 1)%R.
Proof. apply Rabs_le. pose proof (SIN_bound x). lra. Qed.

Lemma Rabs_le_1_cos (x : R) : (Rabs (cos x) <= 1)%R.
Proof. apply Rabs_le. pose proof (COS_bound x). lra. Qed.

Lemma Rabs_le_1_mult (u v : R) :
  (Rabs u <= 1)%R -> (Rabs v <= 1)%R -> (Rabs (u * v) <= 1)%R.
Proof.
  intros Hu Hv. rewrite Rabs_mult.
  pose proof (Rabs_pos u). pose proof (Rabs_pos v). nra.
Qed.

Lemma Rabs_le_bounds (a b : R) : (Rabs a <= b)%R -> (- b <= a <= b)%R.
Proof. unfold Rabs. destruct (Rcase_abs a); lra. Qed.

Lemma Rabs_scaled (a u : R) : (Rabs u <= 1)%R -> (Rabs (a * u) <= Rabs a)%R.
Proof.
  intros Hu. rewrite Rabs_mult.
  pose proof (Rabs_pos a). pose proof (Rabs_pos u). nra.
Qed.

(** No mode moves a sample by more than the size of its amplitude. *)
Lemma applyDeformation_bound m (t p bx by_ bz : R) :
  finiteMode m = true ->
  exists r : R,
    applyDeformation m (Fin t) (Fin p)
      (Some (mkPoint (Fin bx) (Fin by_) (Fin bz))) = Fin r /\
    (Rabs r <= amplitudeSize m)%R.
Proof.
  destruct m as [n d da amp c]. unfold finiteMode, amplitudeSize.
  cbn [amplitude class].
  intros Hm. apply andb_true_iff in Hm. destruct Hm as [Ha Hc].
  destruct amp as [a| |]; try discriminate.
  unfold applyDeformation. cbn [amplitude class].
  destruct c as [|[f1| |] [f2| |]|[f1| |] [f2| |]| |[s| |]];
    try discriminate; cbn; eexists; (split; [reflexivity|]).
  - rewrite Rabs_R0. apply Rabs_pos.
  - rewrite Rmult_assoc. apply Rabs_scaled.
    apply Rabs_le_1_mult; apply Rabs_le_1_sin.
  - rewrite Rmult_assoc. apply Rabs_scaled.
    apply Rabs_le_1_mult; [apply Rabs_le_1_cos | apply Rabs_le_1_sin].
  - rewrite Rmult_assoc. apply Rabs_scaled.
    apply Rabs_le_1_mult; [apply Rabs_le_1_sin | apply Rabs_le_1_cos].
  - apply Rabs_scaled.
    apply Rabs_le_1_mult; [apply Rabs_le_1_mult|];
      [apply Rabs_le_1_sin | apply Rabs_le_1_cos | apply Rabs_le_1_sin].
Qed.

Lemma totalDeformation_bound ms (t p bx by_ bz : R) :
  forallb finiteMode ms = true ->
  exists r : R,
    totalDeformation ms (Fin t) (Fin p) (mkPoint (Fin bx) (Fin by_) (Fin bz))
      = Fin r /\
    (Rabs r <= amplitudeBudget ms)%R.
Proof.
  intros Hms. rewrite totalDeformation_sum. unfold amplitudeBudget.
  induction ms as [|m ms IH]; cbn [map xsum fold_right].
  - exists 0%R. split; [reflexivity|]. rewrite Rabs_R0. lra.
  - cbn [forallb] in Hms. apply andb_true_iff in Hms. destruct Hms as [Hm Hms].
    destruct (IH Hms) as [r [Hr Hb]]. unfold xsum in Hr. rewrite Hr.
    destruct (@applyDeformation_bound m t p bx by_ bz Hm) as [r' [Hr' Hb']].
    rewrite Hr'. exists (r' + r)%R. split; [reflexivity|].
    pose proof (Rabs_triang r' r). lra.
Qed.

Lemma amplitudeBudget_nonneg ms : (0 <= amplitudeBudget ms)%R.
Proof.
  induction ms as [|m ms IH]; cbn [amplitudeBudget fold_right]; [lra|].
  assert (0 <= amplitudeSize m)%R.
  { unfold amplitudeSize. destruct (amplitude m); try lra. apply Rabs_pos. }
  unfold amplitudeBudget in IH. lra.
Qed.

(** A sample is the unit direction of its two angles, scaled by a radius
    that differs from the base radius by at most the amplitude budget. *)
Lemma spherePoint_shell (sd : ShapeDeformer xreal) (R0 t p : R) :
  baseRadius sd = Fin R0 -> forallb finiteMode (modes sd) = true ->
  exists r : R,
    spherePoint sd (Fin t) (Fin p) =
      mkPoint (Fin (r * (sin p * cos t))) (Fin (r * (sin p * sin t)))
              (Fin (r * cos p)) /\
    (Rabs (r - R0) <= amplitudeBudget (modes sd))%R.
Proof.
  intros HR Hms. unfold spherePoint. cbn.
  destruct (@totalDeformation_bound (modes sd) t p (sin p * cos t)
              (sin p * sin t) (cos p) Hms) as [r [Hr Hb]].
  rewrite Hr, HR. cbn. exists (R0 + r)%R. split; [reflexivity|].
  replace (R0 + r - R0)%R with r by ring. exact Hb.
Qed.

Lemma square_le (a b : R) : (Rabs a <= b)%R -> (a * a <= b * b)%R.
Proof.
  intros H. pose proof (Rabs_pos a).
  replace (a * a)%R with (Rabs a * Rabs a)%R; [nra|].
  unfold Rabs. destruct (Rcase_abs a); ring.
Qed.

Lemma shell_norm (r t p : R) :
  ((r * (sin p * cos t)) * (r * (sin p * cos t))
   + (r * (sin p * sin t)) * (r * (sin p * sin t))
   + (r * cos p) * (r * cos p) = r * r)%R.
Proof.
  replace ((r * (sin p * cos t)) * (r * (sin p * cos t))
   + (r * (sin p * sin t)) * (r * (sin p * sin t))
   + (r * cos p) * (r * cos p))%R
    with (r * r * ((sin p * cos t) * (sin p * cos t)
                   + (sin p * sin t) * (sin p * sin t) + cos p * cos p))%R
    by ring.
  rewrite unit_direction. ring.
Qed.

(** Every point of the grid of a finite deformer lies within the amplitude
    budget of the sphere of the base radius. *)
Lemma createDeformedSphere_within (sd : ShapeDeformer xreal) (nT nP : Z)
    (R0 : R) :
  (1 <= nT)%Z -> (1 <= nP)%Z ->
  baseRadius sd = Fin R0 -> forallb finiteMode (modes sd) = true ->
  forall q, In q (concat (createDeformedSphere sd nT nP)) ->
  exists x y z : R,
    q = mkPoint (Fin x) (Fin y) (Fin z) /\
    (x * x + y * y + z * z
     <= (Rabs R0 + amplitudeBudget (modes sd))
        * (Rabs R0 + amplitudeBudget (modes sd)))%R /\
    ((amplitudeBudget (modes sd) <= R0)%R ->
     ((R0 - amplitudeBudget (modes sd)) * (R0 - amplitudeBudget (modes sd))
      <= x * x + y * y + z * z)%R).
Proof.
  intros HT HP HR Hms q Hin. apply in_concat in Hin.
  destruct Hin as [row [Hrow Hq]]. unfold createDeformedSphere in Hrow.
  apply in_map_iff in Hrow. destruct Hrow as [j [<- _]].
  apply in_map_iff in Hq. destruct Hq as [i [<- _]].
  rewrite (grid_theta i HT), (grid_phi j HP).
  destruct (@spherePoint_shell sd R0 (IZR i * 2 * PI / IZR nT)
              (IZR j * PI / IZR nP) HR Hms) as [r [Hq Hb]].
  rewrite Hq. do 3 eexists. split; [reflexivity|].
  rewrite shell_norm.
  pose proof (amplitudeBudget_nonneg (modes sd)) as HA.
  set (A := amplitudeBudget (modes sd)) in *.
  assert (Hr : (R0 - A <= r <= R0 + A)%R).
  { apply Rabs_le_bounds in Hb. lra. }
  split.
  - apply square_le. apply Rabs_le. pose proof (Rabs_pos R0).
    pose proof (Rle_abs R0). pose proof (Rle_abs (- R0)).
    rewrite Rabs_Ropp in *. lra.
  - intros HAR. nra.
Qed.

End Shell.

Lemma exactSphere200_finiteMode :
  forallb finiteMode (modes exactSphere200) = true.
Proof. reflexivity. Qed.

(** X10: in exact arithmetic a deformation moves the surface by at most the
    sum of the sizes of the amplitudes.  For positive resolutions, a finite
    base radius [R] and
    finite mode parameters, every point of the grid of [createDeformedSphere]
    is finite and lies no further than [|R| + A] from the origin, [A] being
    that sum, and no nearer than [R - A] when [A <= R]. *)
Theorem createDeformedSphere_within_budget
    (sd : ShapeDeformer Exact.xreal) (nT nP : Z) (R0 : R) :
  (1 <= nT)%Z -> (1 <= nP)%Z ->
  baseRadius sd = Exact.Fin R0 -> forallb finiteMode (modes sd) = true ->
  let A := amplitudeBudget (modes sd) in
  forall j i : nat, (j <= Z.to_nat nP)%nat -> (i <= Z.to_nat nT)%nat ->
  exists x y z : R,
    at2 (createDeformedSphere sd nT nP) j i =
      Some (mkPoint (Exact.Fin x) (Exact.Fin y) (Exact.Fin z)) /\
    (x * x + y * y + z * z <= (Rabs R0 + A) * (Rabs R0 + A))%R /\
    ((A <= R0)%R -> ((R0 - A) * (R0 - A) <= x * x + y * y + z * z)%R).
Proof.
  intros HT HP HR Hms A j i Hj Hi.
  rewrite (@grid_entry sd nT nP j i HT HP Hj Hi).
  destruct (@spherePoint_shell sd R0 (IZR (Z.of_nat i) * 2 * PI / IZR nT)
              (IZR (Z.of_nat j) * PI / IZR nP) HR Hms) as [r [Hq Hb]].
  rewrite Hq. do 3 eexists. split; [reflexivity|].
  rewrite shell_norm.
  pose proof (amplitudeBudget_nonneg (modes sd)) as HA. fold A in Hb, HA.
  assert (Hr : (R0 - A <= r <= R0 + A)%R).
  { apply Rabs_le_bounds in Hb. lra. }
  split.
  - apply square_le. apply Rabs_le. pose proof (Rabs_pos R0).
    pose proof (Rle_abs R0). pose proof (Rle_abs (- R0)).
    rewrite Rabs_Ropp in *. lra.
  - intros HAR. nra.
Qed.

Lemma createDeformedSphere_within_budget_witness :
  exists x y z : R,
    at2 (createDeformedSphere exactSphere200 4 2) 1 3 =
      Some (mkPoint (Exact.Fin x) (Exact.Fin y) (Exact.Fin z)) /\
    (x * x + y * y + z * z
     <= (Rabs 200 + amplitudeBudget (modes exactSphere200))
        * (Rabs 200 + amplitudeBudget (modes exactSphere200)))%R.
Proof.
  destruct (@createDeformedSphere_within_budget exactSphere200 4 2 200
              ltac:(lia) ltac:(lia) eq_refl exactSphere200_finiteMode
              1%nat 3%nat ltac:(simpl; lia) ltac:(simpl; lia))
    as [x [y [z [Hq [Hup _]]]]].
  exists x, y, z. split; [exact Hq | exact Hup].
Defined.

(** ** [createDeformedSphere]: the seam of the grid *)

Section Seam.
Import Exact ExactFacts.
Local Open Scope js_scope.

Lemma sin_period_Z (x : R) (k : Z) : sin (x + 2 * IZR k * PI) = sin x.
Proof.
  destruct (Z_le_gt_dec 0 k) as [Hk|Hk].
  - rewrite <- (sin_period x (Z.to_nat k)).
    f_equal. rewrite INR_IZR_INZ, Z2Nat.id by exact Hk. reflexivity.
  - rewrite <- (sin_period (x + 2 * IZR k * PI) (Z.to_nat (- k))).
    f_equal. rewrite INR_IZR_INZ, Z2Nat.id by lia.
    rewrite opp_IZR. ring.
Qed.

Lemma cos_period_Z (x : R) (k : Z) : cos (x + 2 * IZR k * PI) = cos x.
Proof.
  destruct (Z_le_gt_dec 0 k) as [Hk|Hk].
  - rewrite <- (cos_period x (Z.to_nat k)).
    f_equal. rewrite INR_IZR_INZ, Z2Nat.id by exact Hk. reflexivity.
  - rewrite <- (cos_period (x + 2 * IZR k * PI) (Z.to_nat (- k))).
    f_equal. rewrite INR_IZR_INZ, Z2Nat.id by lia.
    rewrite opp_IZR. ring.
Qed.

(** A mode of integer frequency around the equator takes the same value a
    full turn later, whatever [phi] and the base point are. *)
Lemma applyDeformation_full_turn m (phi : xreal) (bp : option (Point xreal)) :
  integerThetaFreq m ->
  applyDeformation m (Fin (2 * PI)) phi bp = applyDeformation m (Fin 0) phi bp.
Proof.
  unfold integerThetaFreq, applyDeformation.
  destruct (class m) as [|f1 f2|f1 f2| |s]; intros Hk.
  - reflexivity.
  - destruct Hk as [k ->]. cbn.
    replace (IZR k * (2 * PI))%R with (IZR k * 0 + 2 * IZR k * PI)%R by ring.
    rewrite sin_period_Z. reflexivity.
  - destruct Hk as [k ->]. cbn.
    replace (IZR k * (2 * PI))%R with (IZR k * 0 + 2 * IZR k * PI)%R by ring.
    rewrite cos_period_Z. reflexivity.
  - cbn.
    replace (2 * (2 * PI))%R with (2 * 0 + 2 * IZR 2 * PI)%R by ring.
    rewrite cos_period_Z.
    destruct phi as [p|s|]; cbn; try reflexivity.
    + replace (2 * PI + 3 * p)%R with (0 + 3 * p + 2 * IZR 1 * PI)%R by ring.
      rewrite sin_period_Z. reflexivity.
    + rewrite Reqb_false by lra. reflexivity.
  - reflexivity.
Qed.

Lemma spherePoint_full_turn (sd : ShapeDeformer xreal) (phi : xreal) :
  Forall integerThetaFreq (modes sd) ->
  spherePoint sd (Fin (2 * PI)) phi = spherePoint sd (Fin 0) phi.
Proof.
  intros Hms. unfold spherePoint. cbv zeta.
  assert (Hc : Math_cos (Fin (2 * PI)) = Math_cos (Fin 0))
    by (cbn; rewrite cos_2PI, cos_0; reflexivity).
  assert (Hs : Math_sin (Fin (2 * PI)) = Math_sin (Fin 0))
    by (cbn; rewrite sin_2PI, sin_0; reflexivity).
  rewrite Hc, Hs.
  rewrite (@totalDeformation_cong (modes sd) (Fin (2 * PI)) (Fin 0) phi); [reflexivity|].
  intros m Hm. apply applyDeformation_full_turn.
  rewrite Forall_forall in Hms. apply Hms. exact Hm.
Qed.

Lemma theta_last (nT : Z) :
  (1 <= nT)%Z ->
  ofZ (Z.of_nat (Z.to_nat nT)) * ofZ 2 * Math_PI / ofZ nT = Fin (2 * PI).
Proof.
  intros HT. rewrite (grid_theta _ HT), Z2Nat.id by lia. f_equal.
  field. apply not_0_IZR. lia.
Qed.

Lemma theta_first (nT : Z) :
  (1 <= nT)%Z -> ofZ (Z.of_nat 0) * ofZ 2 * Math_PI / ofZ nT = Fin 0.
Proof.
  intros HT. rewrite (grid_theta _ HT). f_equal. cbn [Z.of_nat].
  field. apply not_0_IZR. lia.
Qed.

End Seam.

Lemma exactSphere200_integerThetaFreq :
  Forall integerThetaFreq (modes exactSphere200).
Proof.
  unfold exactSphere200, newShapeDeformer, defaultModes, integerThetaFreq.
  cbn. repeat constructor; eexists; reflexivity.
Qed.

(** X11: in exact arithmetic the grid closes at the seam.  When every
    harmonic mode has an integer frequency around the equator (as the seven
    default modes have) and [numPointsTheta >= 1], the last point of every
    row of the grid of [createDeformedSphere] is its first point, whatever
    the amplitudes, the other parameters and [numPointsPhi] are.  (In
    doubles the two differ in the last bits, [Math.sin(2 * Math.PI)] not
    being 0.) *)
Theorem createDeformedSphere_seam_closed
    (sd : ShapeDeformer Exact.xreal) (nT nP : Z) :
  (1 <= nT)%Z -> Forall integerThetaFreq (modes sd) ->
  forall row, In row (createDeformedSphere sd nT nP) ->
  exists q, nth_error row 0 = Some q /\ nth_error row (Z.to_nat nT) = Some q.
Proof.
  intros HT Hms row Hrow. unfold createDeformedSphere in Hrow.
  apply in_map_iff in Hrow. destruct Hrow as [j [<- _]].
  rewrite !nth_error_map.
  rewrite (@upTo_nth nT 0), (@upTo_nth nT (Z.to_nat nT)) by lia.
  cbn [option_map]. eexists. split; [reflexivity|].
  f_equal. rewrite (theta_last HT), (theta_first HT).
  apply spherePoint_full_turn. exact Hms.
Qed.

Lemma createDeformedSphere_seam_closed_witness :
  exists q,
    nth_error (nth 1 (createDeformedSphere exactSphere200 4 2) []) 0 = Some q /\
    nth_error (nth 1 (createDeformedSphere exactSphere200 4 2) []) 4 = Some q.
Proof.
  apply (@createDeformedSphere_seam_closed exactSphere200 4 2 ltac:(lia)
           exactSphere200_integerThetaFreq).
  unfold createDeformedSphere. cbn [upTo Z.add Z.to_nat Pos.to_nat
    Pos.iter_op Nat.add seq map nth Pos.add Pos.succ].
  right. left. reflexivity.
Defined.

(** ** A mode at amplitude 0 and a mode removed *)

Section ZeroAmplitude.
Import Exact ExactFacts.
Local Open Scope js_scope.

Lemma xadd_0_l x : xadd (Fin 0) x = x.
Proof. rewrite xadd_comm. apply xadd_0_r. Qed.

(** The contributions of the modes, with mode [i] at amplitude 0 and with
    mode [i] removed. *)
Lemma xsum_zero_or_removed (f : DeformationMode xreal -> xreal) :
  forall (ms : list (DeformationMode xreal)) (i : nat),
  (forall m, nth_error ms i = Some m -> f (withAmplitude m (Fin 0)) = Fin 0) ->
  xsum (map f (assignAmplitude i (Fin 0) ms)) = xsum (map f (splice1 i ms)).
Proof.
  induction ms as [|m ms IH]; intros i Hz; [destruct i; reflexivity|].
  destruct i as [|i]; cbn [assignAmplitude splice1 map xsum fold_right].
  - rewrite (Hz m eq_refl). apply xadd_0_l.
  - f_equal. apply IH. intros m' Hm'. apply Hz. exact Hm'.
Qed.

Lemma spherePoint_phi_not_finite (sd : ShapeDeformer xreal) theta phi :
  isFinite phi = false -> spherePoint sd theta phi = nanPoint.
Proof.
  intros Hphi. unfold spherePoint. cbv zeta.
  assert (Hs : Math_sin phi = NaN) by (destruct phi; [discriminate| |]; reflexivity).
  assert (Hc : Math_cos phi = NaN) by (destruct phi; [discriminate| |]; reflexivity).
  rewrite Hs, Hc. cbn [mul xreal_arith]. cbn [xmul].
  rewrite !xmul_NaN_r. reflexivity.
Qed.

Lemma spherePoint_zero_or_removed (sd : ShapeDeformer xreal) (index : Z)
    (t : R) (phi : xreal) :
  (forall m, nth_error (modes sd) (Z.to_nat index) = Some m ->
     finiteClass (class m) = true) ->
  spherePoint (fst (setAmplitude sd index (Fin 0))) (Fin t) phi =
  spherePoint (fst (removeMode sd index)) (Fin t) phi.
Proof.
  intros Hc. destruct phi as [p|s|];
    [|rewrite !spherePoint_phi_not_finite by reflexivity; reflexivity
     |rewrite !spherePoint_phi_not_finite by reflexivity; reflexivity].
  unfold setAmplitude, removeMode.
  destruct (inRange index (modes sd)); [|reflexivity].
  cbn [fst]. unfold spherePoint. cbv zeta. cbn [baseRadius modes].
  rewrite !totalDeformation_sum.
  rewrite (@xsum_zero_or_removed _ (modes sd) (Z.to_nat index)); [reflexivity|].
  intros m Hm. cbn. apply applyDeformation_atRest.
  split; [reflexivity|]. cbn [class withAmplitude]. apply Hc. exact Hm.
Qed.

End ZeroAmplitude.

(** X12: in exact arithmetic a mode at amplitude 0 leaves no trace in the
    mesh.  For a mode whose class parameters are finite and
    [numPointsTheta >= 1], the grid of
    [createDeformedSphere] after [setAmplitude(index, 0)] is the grid after
    [removeMode(index)], whatever the other modes are; an index out of range
    changes nothing in either. *)
Theorem createDeformedSphere_zero_amplitude_as_removed
    (sd : ShapeDeformer Exact.xreal) (index nT nP : Z) :
  (1 <= nT)%Z ->
  (forall m, nth_error (modes sd) (Z.to_nat index) = Some m ->
     finiteClass (class m) = true) ->
  createDeformedSphere (fst (setAmplitude sd index (Exact.Fin 0))) nT nP =
  createDeformedSphere (fst (removeMode sd index)) nT nP.
Proof.
  intros HT Hc. unfold createDeformedSphere.
  apply map_ext. intros j. apply map_ext. intros i.
  rewrite (grid_theta i HT). apply spherePoint_zero_or_removed. exact Hc.
Qed.

Lemma createDeformedSphere_zero_amplitude_as_removed_witness :
  createDeformedSphere (fst (setAmplitude exactSphere200 6 (Exact.Fin 0))) 4 2 =
  createDeformedSphere (fst (removeMode exactSphere200 6)) 4 2.
Proof.
  apply (@createDeformedSphere_zero_amplitude_as_removed exactSphere200 6 4 2
           ltac:(lia)).
  intros m Hm. injection Hm as <-. reflexivity.
Defined.

(** ** [setLightDirection] and the colours of [calculateLighting] *)

Section LightDirection.
Import Exact ExactFacts.
Local Open Scope js_scope.

Lemma sqrt_scaled (k s : R) :
  (0 < k)%R -> (0 <= s)%R ->
  R_sqrt.sqrt (k * k * s) = (k * R_sqrt.sqrt s)%R.
Proof.
  intros Hk Hs. rewrite sqrt_mult by nra.
  rewrite sqrt_square by lra. reflexivity.
Qed.

(** Scaling a non-zero light vector by a positive factor does not change the
    normalised direction. *)
Lemma normalizeLightDirection_scaled (x y z k : R) :
  (0 < k)%R -> (x * x + y * y + z * z <> 0)%R ->
  normalizeLightDirection (mkPoint (Fin (k * x)) (Fin (k * y)) (Fin (k * z))) =
  normalizeLightDirection (mkPoint (Fin x) (Fin y) (Fin z)).
Proof.
  intros Hk Hs. unfold normalizeLightDirection, sq. cbn.
  set (s := (x * x + y * y + z * z)%R) in *.
  assert (Hpos : (0 < s)%R) by (unfold s in *; nra).
  replace (k * x * (k * x) + k * y * (k * y) + k * z * (k * z))%R
    with (k * k * s)%R by (unfold s; ring).
  assert (HL : (0 < R_sqrt.sqrt s)%R) by (apply sqrt_lt_R0; exact Hpos).
  rewrite sqrt_scaled by lra.
  rewrite !Rltb_false by nra.
  rewrite !Reqb_false by nra.
  f_equal; f_equal; field; lra.
Qed.

Lemma normalizeLightDirection_zero :
  normalizeLightDirection zeroVector = nanPoint.
Proof.
  unfold normalizeLightDirection, zeroVector, sq. cbn.
  rewrite Rltb_false by lra.
  replace (0 * 0 + 0 * 0 + 0 * 0)%R with 0%R by ring.
  rewrite sqrt_0, !Reqb_true by reflexivity. reflexivity.
Qed.

(** With a NaN light every colour is NaN. *)
Lemma calculateLighting_nan_light (cv : Canvas xreal) (sd : ShapeDeformer xreal)
    (normal : Point xreal) :
  calculateLighting (mkRenderer cv sd nanPoint) normal = rgb NaN NaN NaN.
Proof.
  unfold calculateLighting, nanPoint. cbn [lightDir px py pz].
  cbn [mul add Math_max Math_floor xreal_arith].
  rewrite !xmul_NaN_r, !xadd_NaN_r.
  reflexivity.
Qed.

Lemma dot_le_1 (nx ny nz lx ly lz : R) :
  (nx * nx + ny * ny + nz * nz = 1)%R -> (lx * lx + ly * ly + lz * lz = 1)%R ->
  (nx * lx + ny * ly + nz * lz <= 1)%R.
Proof.
  intros Hn Hl.
  pose proof (Rle_0_sqr (nx - lx)) as H1.
  pose proof (Rle_0_sqr (ny - ly)) as H2.
  pose proof (Rle_0_sqr (nz - lz)) as H3.
  unfold Rsqr in *. nra.
Qed.

Lemma Zfloor_between (lo hi : Z) (x : R) :
  (IZR lo <= x <= IZR hi)%R -> (lo <= Zfloor x <= hi)%Z.
Proof.
  intros [Hlo Hhi]. split.
  - apply Zfloor_lub. exact Hlo.
  - rewrite <- (ZfloorZ hi). apply Zfloor_le. exact Hhi.
Qed.

(** The colour of a unit normal under a unit light lies in the palette. *)
Lemma calculateLighting_inPalette (cv : Canvas xreal) (sd : ShapeDeformer xreal)
    (light normal : Point xreal) :
  unitVector light -> unitVector normal ->
  inPalette (calculateLighting (mkRenderer cv sd light) normal).
Proof.
  intros [lx [ly [lz [-> Hl]]]] [nx [ny [nz [-> Hn]]]].
  rewrite calculateLighting_finite. cbv zeta.
  pose proof (@dot_le_1 _ _ _ _ _ _ Hn Hl) as Hdot.
  set (i := Rmax (1 / 10) (nx * lx + ny * ly + nz * lz)).
  assert (Hi : (1 / 10 <= i <= 1)%R).
  { unfold i. split; [apply Rmax_l|]. apply Rmax_lub; lra. }
  exists (Zfloor (40 * i)), (Zfloor (120 * i)), (Zfloor (120 + 135 * i)).
  split; [reflexivity|].
  split; [|split]; apply Zfloor_between; lra.
Qed.

(** A triangle that passes the cull has a finite normal of length 1. *)
Lemma facing_unit_normal (p1 p2 p3 : Point xreal) :
  (pz (calculateNormal p1 p2 p3) <? ofZ 0) = true ->
  unitVector (calculateNormal p1 p2 p3).
Proof.
  intros Hf. pose proof Hf as Hd.
  unfold calculateNormal in Hd. cbv zeta in Hd. cbn [pz] in Hd.
  apply xdiv_negative_divisor in Hd. destruct Hd as [len Hlen].
  apply xsqrt_Fin_inv in Hlen. destruct Hlen as [s Hs].
  apply xadd_Fin_inv in Hs. destruct Hs as [s' [cz2 [Hs Hz]]].
  apply xadd_Fin_inv in Hs. destruct Hs as [cx2 [cy2 [Hx Hy]]].
  unfold sq in Hx, Hy, Hz.
  apply xmul_Fin_inv in Hx. destruct Hx as [cx [_ [Hx _]]].
  apply xmul_Fin_inv in Hy. destruct Hy as [cy [_ [Hy _]]].
  apply xmul_Fin_inv in Hz. destruct Hz as [cz [_ [Hz _]]].
  assert (Hc : crossProduct p1 p2 p3 = mkPoint (Fin cx) (Fin cy) (Fin cz)).
  { destruct (crossProduct p1 p2 p3) as [a b c]. cbn [px py pz] in *.
    subst. reflexivity. }
  destruct (Req_dec_T (cx * cx + cy * cy + cz * cz) 0) as [H0|H0].
  - exfalso.
    assert (cx = 0 /\ cy = 0 /\ cz = 0)%R as [-> [-> ->]] by (repeat split; nra).
    rewrite (@zero_cross_degenerate p1 p2 p3 Hc) in Hf. discriminate.
  - destruct (@calculateNormal_unit p1 p2 p3 cx cy cz Hc H0)
      as [nx [ny [nz [Hn [Hu _]]]]].
    exists nx, ny, nz. split; assumption.
Qed.

(** The colour of every survivor of the cull is that of a unit normal. *)
Lemma survivor_colour (this : Renderer xreal) (rotX camAngle depth : xreal)
    (g : list (list (Point xreal))) (t : Triangle xreal) :
  In t (survivors this rotX camAngle depth g) ->
  exists n : Point xreal,
    unitVector n /\ color t = calculateLighting this n.
Proof.
  unfold survivors, kept. intros Hin.
  apply in_map_iff in Hin. destruct Hin as [[n t'] [Ht Hin]].
  cbn in Ht. subst t'. apply filter_In in Hin. destruct Hin as [Hin Hf].
  apply in_flat_map in Hin. destruct Hin as [[[[a b] c] d] [_ Hc]].
  unfold facesViewer in Hf. cbn [fst] in Hf.
  cbn [quadCandidates In] in Hc. destruct Hc as [Hc|[Hc|[]]].
  - injection Hc as <- <-. eexists. split; [exact (@facing_unit_normal _ _ _ Hf)|].
    reflexivity.
  - injection Hc as <- <-. eexists. split; [exact (@facing_unit_normal _ _ _ Hf)|].
    reflexivity.
Qed.

End LightDirection.

(** X13: only the direction of the light counts, and a zero light poisons
    every colour.  In exact arithmetic [setLightDirection] with a non-zero
    finite vector stores a
    vector of length 1 that is the same for the vector scaled by any positive
    factor, and leaves the canvas and the deformer alone.  With the vector
    (0, 0, 0) the stored light is (NaN, NaN, NaN), after which
    [calculateLighting] returns NaN for the three channels of every normal;
    in doubles the stored light is (NaN, NaN, NaN) too. *)
Theorem setLightDirection_direction_only
    (this : Renderer Exact.xreal) (x y z k : R) :
  (0 < k)%R -> (x * x + y * y + z * z <> 0)%R ->
  let lit := setLightDirection this (Exact.Fin x) (Exact.Fin y) (Exact.Fin z) in
  setLightDirection this (Exact.Fin (k * x)) (Exact.Fin (k * y))
                    (Exact.Fin (k * z)) = lit /\
  unitVector (lightDir lit) /\
  canvas lit = canvas this /\ shapeDeformer lit = shapeDeformer this /\
  (let dark :=
     setLightDirection this (Exact.Fin 0) (Exact.Fin 0) (Exact.Fin 0) in
   lightDir dark = nanPoint /\
   forall normal : Point Exact.xreal,
     calculateLighting dark normal = rgb Exact.NaN Exact.NaN Exact.NaN) /\
  lightDir (setLightDirection renderer800x600 0%float 0%float 0%float) =
    mkPoint nan nan nan.
Proof.
  intros Hk Hs lit. split; [|split; [|split; [|split; [|split]]]].
  - unfold lit, setLightDirection. f_equal.
    apply normalizeLightDirection_scaled; assumption.
  - unfold lit, setLightDirection. cbn [lightDir].
    destruct (normalizeLightDirection_unit Hs) as [lx [ly [lz [Hl Hu]]]].
    exists lx, ly, lz. split; assumption.
  - reflexivity.
  - reflexivity.
  - cbv zeta. unfold setLightDirection. cbn [lightDir].
    fold zeroVector. rewrite normalizeLightDirection_zero.
    split; [reflexivity|]. intros normal. apply calculateLighting_nan_light.
  - vm_compute. reflexivity.
Qed.

Lemma setLightDirection_direction_only_witness :
  setLightDirection exactRenderer (Exact.Fin (2 * 0)) (Exact.Fin (2 * 0))
                    (Exact.Fin (2 * 1)) =
  setLightDirection exactRenderer (Exact.Fin 0) (Exact.Fin 0) (Exact.Fin 1).
Proof.
  apply (@setLightDirection_direction_only exactRenderer 0 0 1 2); lra.
Defined.

(** X14: in exact arithmetic [draw] paints only colours of the palette.  When
    the stored light is a finite vector of length 1 (as
    [normalizeLightDirection] leaves it for a non-zero vector), every
    triangle that [draw] paints has three integer
    channels, red in 4..40, green in 12..120 and blue in 133..255, whatever
    the mesh, the angles, the depth and the resolutions are. *)
Theorem draw_paints_palette
    (this : Renderer Exact.xreal) (rotX camAngle depth : Exact.xreal)
    (nT nP : Z) :
  unitVector (lightDir this) ->
  exists painted,
    draw this rotX camAngle depth nT nP = Some painted /\
    forall t, In t painted -> inPalette (color t).
Proof.
  intros Hl. rewrite draw_paints_survivors. eexists. split; [reflexivity|].
  intros t Ht.
  apply (Permutation_in _ (sortBy_perm compareAvgZ _)) in Ht.
  destruct (@survivor_colour _ _ _ _ _ _ Ht) as [n [Hn ->]].
  destruct this as [cv sd light]. cbn [lightDir] in Hl.
  apply calculateLighting_inPalette; assumption.
Qed.

Lemma draw_paints_palette_witness :
  exists painted,
    draw exactRenderer (Exact.Fin 0) (Exact.Fin 0) (Exact.Fin 500) 4 2
      = Some painted /\
    forall t, In t painted -> inPalette (color t).
Proof.
  apply (@draw_paints_palette exactRenderer (Exact.Fin 0) (Exact.Fin 0)
           (Exact.Fin 500) 4 2).
  exists 0%R, 0%R, 1%R. split; [reflexivity | lra].
Defined.

(** ** [calculateNormal]: the winding of a triangle *)

Section Winding.
Import Exact ExactFacts.
Local Open Scope js_scope.

Lemma crossProduct_exact (x1 y1 z1 x2 y2 z2 x3 y3 z3 : R) :
  crossProduct (mkPoint (Fin x1) (Fin y1) (Fin z1))
               (mkPoint (Fin x2) (Fin y2) (Fin z2))
               (mkPoint (Fin x3) (Fin y3) (Fin z3)) =
  mkPoint (Fin ((y2 - y1) * (z3 - z1) - (z2 - z1) * (y3 - y1)))
          (Fin ((z2 - z1) * (x3 - x1) - (x2 - x1) * (z3 - z1)))
          (Fin ((x2 - x1) * (y3 - y1) - (y2 - y1) * (x3 - x1))).
Proof. unfold crossProduct. cbn. reflexivity. Qed.

(** The cull test on finite points is the sign of the z component of the
    cross product. *)
Lemma facing_sign (p1 p2 p3 : Point xreal) (cx cy cz : R) :
  crossProduct p1 p2 p3 = mkPoint (Fin cx) (Fin cy) (Fin cz) ->
  (pz (calculateNormal p1 p2 p3) <? ofZ 0) = Rltb cz 0.
Proof.
  intros Hc.
  destruct (Req_dec_T (cx * cx + cy * cy + cz * cz) 0) as [H0|H0].
  - assert (cx = 0 /\ cy = 0 /\ cz = 0)%R as [-> [-> ->]] by (repeat split; nra).
    rewrite (@zero_cross_degenerate p1 p2 p3 Hc). cbn.
    rewrite Rltb_false by lra. reflexivity.
  - destruct (@calculateNormal_unit p1 p2 p3 cx cy cz Hc H0)
      as [nx [ny [nz [Hn [_ Hs]]]]].
    rewrite Hn. cbn [pz]. exact Hs.
Qed.

(** On a non-zero cross product the normal is the cross product divided by
    its length, a vector of length 1. *)
Lemma calculateNormal_exact (p1 p2 p3 : Point xreal) (cx cy cz : R) :
  crossProduct p1 p2 p3 = mkPoint (Fin cx) (Fin cy) (Fin cz) ->
  (cx * cx + cy * cy + cz * cz <> 0)%R ->
  calculateNormal p1 p2 p3 =
    mkPoint (Fin (cx / R_sqrt.sqrt (cx * cx + cy * cy + cz * cz)))
            (Fin (cy / R_sqrt.sqrt (cx * cx + cy * cy + cz * cz)))
            (Fin (cz / R_sqrt.sqrt (cx * cx + cy * cy + cz * cz))) /\
  (cx / R_sqrt.sqrt (cx * cx + cy * cy + cz * cz)
   * (cx / R_sqrt.sqrt (cx * cx + cy * cy + cz * cz))
   + cy / R_sqrt.sqrt (cx * cx + cy * cy + cz * cz)
     * (cy / R_sqrt.sqrt (cx * cx + cy * cy + cz * cz))
   + cz / R_sqrt.sqrt (cx * cx + cy * cy + cz * cz)
     * (cz / R_sqrt.sqrt (cx * cx + cy * cy + cz * cz)) = 1)%R.
Proof.
  intros Hc Hs.
  destruct (unit_after_division Hs) as [HL Hu].
  split; [|exact Hu].
  unfold calculateNormal. cbv zeta. rewrite Hc.
  cbn [px py pz]. unfold sq. cbn.
  rewrite Rltb_false by nra.
  rewrite Reqb_false by lra. reflexivity.
Qed.

End Winding.

(** C4: in every frame, [draw] paints exactly the candidate triangles whose
    face normal has a strictly negative z component.  The candidates are the
    two triangles of each quad of the mesh; the normal of each is
    [calculateNormal] of its rotated, unprojected corners: the cross product
    of the edge vectors [p2 - p1] and [p3 - p1], divided by its length.  A
    candidate with [normal.z < 0] false (in particular with [normal.z >= 0])
    is not pushed.  On finite points, in exact arithmetic, the test is the
    sign of the z component of that cross product, and when the cross
    product is not zero the normal is the cross product divided by its
    length and has length 1. *)
Theorem draw_backface_cull (num : Type) (arith : JsArith num) (math : JsMath num)
    (this : Renderer num) (rotX camAngle depth : num) (nT nP : Z) :
  let g := createDeformedSphere (shapeDeformer this) nT nP in
  let candidates :=
    flat_map (quadCandidates this rotX camAngle depth) (quadsOfGrid g) in
  (forall a b c d : Point num,
     let p1 := rotatePoint a rotX camAngle in
     let p2 := rotatePoint b rotX camAngle in
     let p3 := rotatePoint c rotX camAngle in
     let p4 := rotatePoint d rotX camAngle in
     quadCandidates this rotX camAngle depth (a, b, c, d) =
       [ (calculateNormal p1 p2 p3, triangle1 this depth p1 p2 p3);
         (calculateNormal p2 p4 p3, triangle2 this depth p2 p3 p4) ] /\
     forall triangles,
       quadBody this rotX camAngle depth a b c d triangles =
       triangles
       ++ (if lt (pz (calculateNormal p1 p2 p3)) (ofZ 0)
           then [triangle1 this depth p1 p2 p3] else [])
       ++ (if lt (pz (calculateNormal p2 p4 p3)) (ofZ 0)
           then [triangle2 this depth p2 p3 p4] else [])) /\
  (forall p1 p2 p3 : Point num,
     let v1x := sub (px p2) (px p1) in
     let v1y := sub (py p2) (py p1) in
     let v1z := sub (pz p2) (pz p1) in
     let v2x := sub (px p3) (px p1) in
     let v2y := sub (py p3) (py p1) in
     let v2z := sub (pz p3) (pz p1) in
     let nx := sub (mul v1y v2z) (mul v1z v2y) in
     let ny := sub (mul v1z v2x) (mul v1x v2z) in
     let nz := sub (mul v1x v2y) (mul v1y v2x) in
     let length :=
       Math_sqrt (add (add (mul nx nx) (mul ny ny)) (mul nz nz)) in
     calculateNormal p1 p2 p3 =
       mkPoint (div nx length) (div ny length) (div nz length)) /\
  (exists painted,
     draw this rotX camAngle depth nT nP = Some painted /\
     Permutation painted
       (map snd (filter (fun nt => lt (pz (fst nt)) (ofZ 0)) candidates)) /\
     (forall t, In t painted <->
        exists n, In (n, t) candidates /\ lt (pz n) (ofZ 0) = true)) /\
  (forall x1 y1 z1 x2 y2 z2 x3 y3 z3 : R,
     let p1 := mkPoint (Exact.Fin x1) (Exact.Fin y1) (Exact.Fin z1) in
     let p2 := mkPoint (Exact.Fin x2) (Exact.Fin y2) (Exact.Fin z2) in
     let p3 := mkPoint (Exact.Fin x3) (Exact.Fin y3) (Exact.Fin z3) in
     let cx := ((y2 - y1) * (z3 - z1) - (z2 - z1) * (y3 - y1))%R in
     let cy := ((z2 - z1) * (x3 - x1) - (x2 - x1) * (z3 - z1))%R in
     let cz := ((x2 - x1) * (y3 - y1) - (y2 - y1) * (x3 - x1))%R in
     let len := R_sqrt.sqrt (cx * cx + cy * cy + cz * cz) in
     lt (pz (calculateNormal p1 p2 p3)) (ofZ 0) = Exact.Rltb cz 0 /\
     ((cx * cx + cy * cy + cz * cz <> 0)%R ->
      calculateNormal p1 p2 p3 =
        mkPoint (Exact.Fin (cx / len)) (Exact.Fin (cy / len))
                (Exact.Fin (cz / len)) /\
      (cx / len * (cx / len) + cy / len * (cy / len)
       + cz / len * (cz / len) = 1)%R) /\
     ((cx * cx + cy * cy + cz * cz = 0)%R ->
      calculateNormal p1 p2 p3 = nanPoint)).
Proof.
  intros g candidates. split; [|split; [|split]].
  - intros a b c d p1 p2 p3 p4. split; [reflexivity|].
    intros triangles. unfold quadBody. fold p1 p2 p3 p4.
    destruct (lt (pz (calculateNormal p1 p2 p3)) (ofZ 0));
      destruct (lt (pz (calculateNormal p2 p4 p3)) (ofZ 0));
      cbn [app]; rewrite <- ?app_assoc, ?app_nil_r; reflexivity.
  - intros p1 p2 p3. reflexivity.
  - eexists. split; [apply draw_paints_survivors|].
    assert (Hperm : Permutation
              (sortBy compareAvgZ (survivors this rotX camAngle depth g))
              (map snd (filter (fun nt => lt (pz (fst nt)) (ofZ 0)) candidates))).
    { apply sortBy_perm. }
    split; [exact Hperm|].
    intros t. split.
    + intros Hin. apply (Permutation_in _ Hperm) in Hin.
      apply in_map_iff in Hin. destruct Hin as [[n t'] [Ht Hin]].
      cbn in Ht. subst t'. apply filter_In in Hin. destruct Hin as [Hin Hz].
      exists n. split; assumption.
    + intros [n [Hin Hz]].
      apply (Permutation_in _ (Permutation_sym Hperm)).
      apply in_map_iff. exists (n, t). split; [reflexivity|].
      apply filter_In. split; assumption.
  - intros x1 y1 z1 x2 y2 z2 x3 y3 z3 p1 p2 p3 cx cy cz len.
    pose proof (crossProduct_exact x1 y1 z1 x2 y2 z2 x3 y3 z3) as Hc.
    fold p1 p2 p3 cx cy cz in Hc.
    split; [exact (@facing_sign p1 p2 p3 cx cy cz Hc)|]. split.
    + intros Hs. exact (@calculateNormal_exact p1 p2 p3 cx cy cz Hc Hs).
    + intros Hs.
      assert (cx = 0 /\ cy = 0 /\ cz = 0)%R as [Hx [Hy Hz]]
        by (repeat split; nra).
      rewrite Hx, Hy, Hz in Hc. exact (@zero_cross_degenerate p1 p2 p3 Hc).
Qed.

(** X15: in exact arithmetic the cull test of [draw] is a test of winding.
    For three finite points, [normal.z < 0] holds exactly when the signed
    area of the triangle
    in the xy plane, [(x2 - x1) (y3 - y1) - (y2 - y1) (x3 - x1)], is below
    zero; so exchanging two corners turns the test into the one for a signed
    area above zero, a triangle and its mirror image are never both painted,
    and a rotation of the corners does not change the normal. *)
Theorem calculateNormal_winding (x1 y1 z1 x2 y2 z2 x3 y3 z3 : R) :
  let p1 := mkPoint (Exact.Fin x1) (Exact.Fin y1) (Exact.Fin z1) in
  let p2 := mkPoint (Exact.Fin x2) (Exact.Fin y2) (Exact.Fin z2) in
  let p3 := mkPoint (Exact.Fin x3) (Exact.Fin y3) (Exact.Fin z3) in
  let area := ((x2 - x1) * (y3 - y1) - (y2 - y1) * (x3 - x1))%R in
  lt (pz (calculateNormal p1 p2 p3)) (ofZ 0) = Exact.Rltb area 0 /\
  lt (pz (calculateNormal p1 p3 p2)) (ofZ 0) = Exact.Rltb 0 area /\
  lt (pz (calculateNormal p1 p2 p3)) (ofZ 0)
    && lt (pz (calculateNormal p1 p3 p2)) (ofZ 0) = false /\
  calculateNormal p2 p3 p1 = calculateNormal p1 p2 p3.
Proof.
  intros p1 p2 p3 area.
  assert (H123 : lt (pz (calculateNormal p1 p2 p3)) (ofZ 0) = Exact.Rltb area 0).
  { apply (@facing_sign p1 p2 p3 _ _ _ (crossProduct_exact _ _ _ _ _ _ _ _ _)). }
  assert (H132 : lt (pz (calculateNormal p1 p3 p2)) (ofZ 0) = Exact.Rltb 0 area).
  { rewrite (@facing_sign p1 p3 p2 _ _ _ (crossProduct_exact _ _ _ _ _ _ _ _ _)).
    unfold Exact.Rltb, area.
    destruct (Rlt_dec _ 0), (Rlt_dec 0 _); try reflexivity; exfalso; lra. }
  split; [exact H123|]. split; [exact H132|]. split.
  - rewrite H123, H132. unfold Exact.Rltb.
    destruct (Rlt_dec area 0), (Rlt_dec 0 area); try reflexivity; exfalso; lra.
  - unfold calculateNormal. cbv zeta.
    assert (Hc : crossProduct p2 p3 p1 = crossProduct p1 p2 p3).
    { unfold p1, p2, p3. rewrite !crossProduct_exact. f_equal; f_equal; ring. }
    rewrite Hc. reflexivity.
Qed.

(** ** [setupOrbitSpeedControl]: the orbit duration *)

(** X16: the [input] listener of the orbit speed slider never stores a
    negative or NaN orbit duration.  In exact arithmetic a parsed value
    [v > 0] sets the
    duration to [1000000 / v] milliseconds, which is positive; a value that
    is zero, negative, NaN or [-Infinity] leaves the duration as it was;
    only [+Infinity] sets it to 0.  In doubles the slider at 50 gives the
    20000 milliseconds of the toggle button. *)
Theorem onOrbitSpeedInput_duration (pathDuration : Exact.xreal) (v : R) :
  ((0 < v)%R ->
   onOrbitSpeedInput pathDuration (Exact.Fin v) = Exact.Fin (1000000 / v) /\
   (0 < 1000000 / v)%R) /\
  ((v <= 0)%R -> onOrbitSpeedInput pathDuration (Exact.Fin v) = pathDuration) /\
  onOrbitSpeedInput pathDuration Exact.NaN = pathDuration /\
  onOrbitSpeedInput pathDuration (Exact.Inf true) = pathDuration /\
  onOrbitSpeedInput pathDuration (Exact.Inf false) = Exact.Fin 0 /\
  (forall d : Ieee.float, onOrbitSpeedInput d 50%float = 20000%float).
Proof.
  unfold onOrbitSpeedInput. split; [|split; [|split; [|split; [|split]]]].
  - intros Hv. cbn. rewrite (ExactFacts.Reqb_false (a:=50) (b:=0)) by lra.
    cbn. rewrite ExactFacts.Rltb_true by lra.
    rewrite ExactFacts.Reqb_false by lra.
    split.
    + f_equal. field. lra.
    + apply Rdiv_lt_0_compat; lra.
  - intros Hv. cbn. rewrite (ExactFacts.Reqb_false (a:=50) (b:=0)) by lra.
    cbn. rewrite ExactFacts.Rltb_false; [reflexivity|].
    unfold Rdiv. nra.
  - reflexivity.
  - cbn. rewrite ExactFacts.Rltb_false by lra. reflexivity.
  - cbn. rewrite ExactFacts.Rltb_false by lra. reflexivity.
  - intros d. vm_compute. reflexivity.
Qed.

(** ** [calculateAngleFromCamera]: the azimuth of the camera *)

Section Azimuth.
Import Exact ExactFacts ExactAtan2.
Local Open Scope js_scope.

Lemma atan_pos (t : R) : (0 < t)%R -> (0 < atan t)%R.
Proof. intros Ht. rewrite <- atan_0. apply atan_increasing. exact Ht. Qed.

Lemma atan_nonpos (t : R) : (t <= 0)%R -> (atan t <= 0)%R.
Proof.
  intros [Ht| ->]; [|rewrite atan_0; lra].
  rewrite <- atan_0. left. apply atan_increasing. exact Ht.
Qed.

Lemma quotient_pos (a b : R) : (a < 0)%R -> (b < 0)%R -> (0 < a / b)%R.
Proof.
  intros Ha Hb. replace (a / b)%R with ((- a) / (- b))%R by (field; lra).
  apply Rdiv_lt_0_compat; lra.
Qed.

Lemma quotient_nonpos (a b : R) : (0 <= a)%R -> (b < 0)%R -> (a / b <= 0)%R.
Proof.
  intros Ha Hb. replace (a / b)%R with (- (a / (- b)))%R by (field; lra).
  assert (0 <= a / (- b))%R; [|lra].
  unfold Rdiv. apply Rmult_le_pos; [exact Ha|].
  left. apply Rinv_0_lt_compat. lra.
Qed.

(** [Math.atan2] of finite numbers lies in [(-pi, pi]]. *)
Lemma Ratan2_range (y x : R) : (- PI < Ratan2 y x <= PI)%R.
Proof.
  pose proof PI_RGT_0 as Hpi. unfold Ratan2, Rltb.
  destruct (Rlt_dec 0 x) as [Hx|Hx].
  - pose proof (atan_bound (y / x)). lra.
  - destruct (Rlt_dec x 0) as [Hx'|Hx'].
    + destruct (Rlt_dec y 0) as [Hy|Hy].
      * pose proof (atan_bound (y / x)).
        pose proof (atan_pos (quotient_pos Hy Hx')). lra.
      * pose proof (atan_bound (y / x)).
        assert (0 <= y)%R as Hy0 by lra.
        pose proof (atan_nonpos (quotient_nonpos Hy0 Hx')). lra.
    + destruct (Rlt_dec 0 y); [lra|]. destruct (Rlt_dec y 0); lra.
Qed.

Lemma sqrt_quotient (x z : R) :
  z <> 0%R ->
  R_sqrt.sqrt (1 + (x / z)²) = (R_sqrt.sqrt (x * x + z * z) / Rabs z)%R.
Proof.
  intros Hz.
  assert (Haz : (0 < Rabs z)%R) by (apply Rabs_pos_lt; exact Hz).
  assert (Hs : (0 <= x * x + z * z)%R) by nra.
  assert (Hr : (0 <= R_sqrt.sqrt (x * x + z * z))%R) by apply sqrt_pos.
  apply sqrt_lem_1.
  - unfold Rsqr. nra.
  - unfold Rdiv. apply Rmult_le_pos; [exact Hr|].
    left. apply Rinv_0_lt_compat. exact Haz.
  - replace (R_sqrt.sqrt (x * x + z * z) / Rabs z
             * (R_sqrt.sqrt (x * x + z * z) / Rabs z))%R
      with (R_sqrt.sqrt (x * x + z * z) * R_sqrt.sqrt (x * x + z * z)
            / (Rabs z * Rabs z))%R by (field; lra).
    rewrite sqrt_sqrt by exact Hs.
    replace (Rabs z * Rabs z)%R with (z * z)%R
      by (unfold Rabs; destruct (Rcase_abs z); ring).
    unfold Rsqr. field. exact Hz.
Qed.

Lemma sqrt_one_axis (x : R) : R_sqrt.sqrt (x * x + 0 * 0) = Rabs x.
Proof.
  replace (x * x + 0 * 0)%R with (Rsqr x) by (unfold Rsqr; ring).
  apply sqrt_Rsqr_abs.
Qed.

(** The sine and the cosine of [atan2(x, z)] without trigonometry. *)
Lemma Ratan2_sin_cos (x z : R) :
  (x * x + z * z <> 0)%R ->
  sin (Ratan2 x z) = (x / R_sqrt.sqrt (x * x + z * z))%R /\
  cos (Ratan2 x z) = (z / R_sqrt.sqrt (x * x + z * z))%R.
Proof.
  intros Hs.
  assert (Hpos : (0 < x * x + z * z)%R) by nra.
  assert (HL : (0 < R_sqrt.sqrt (x * x + z * z))%R)
    by (apply sqrt_lt_R0; exact Hpos).
  unfold Ratan2, Rltb.
  destruct (Rlt_dec 0 z) as [Hz|Hz].
  - rewrite sin_atan, cos_atan, sqrt_quotient by lra.
    rewrite Rabs_right by lra. split; field; lra.
  - destruct (Rlt_dec z 0) as [Hz'|Hz'].
    + destruct (Rlt_dec x 0) as [Hx|Hx].
      * rewrite sin_minus, cos_minus, sin_PI, cos_PI.
        rewrite sin_atan, cos_atan, sqrt_quotient by lra.
        rewrite Rabs_left by lra. split; field; lra.
      * rewrite sin_plus, cos_plus, sin_PI, cos_PI.
        rewrite sin_atan, cos_atan, sqrt_quotient by lra.
        rewrite Rabs_left by lra. split; field; lra.
    + assert (z = 0)%R as -> by lra.
      rewrite sqrt_one_axis in *.
      destruct (Rlt_dec 0 x) as [Hx|Hx].
      * rewrite sin_PI2, cos_PI2, Rabs_right by lra. split; field; lra.
      * destruct (Rlt_dec x 0) as [Hx'|Hx']; [|exfalso; nra].
        rewrite sin_neg, cos_neg, sin_PI2, cos_PI2, Rabs_left by lra.
        split; field; lra.
Qed.

Lemma calculateAngleFromCamera_exact (x z : R) (y : xreal) :
  calculateAngleFromCamera (mkPoint (Fin x) y (Fin z)) =
  Fin (Ratan2 x z * (100 / PI)).
Proof.
  unfold calculateAngleFromCamera. cbn.
  rewrite Reqb_false by (pose proof PI_RGT_0; lra). reflexivity.
Qed.

Lemma azimuth_radians (a : R) : (a * (100 / PI) / 100 * PI = a)%R.
Proof. field. pose proof PI_RGT_0. lra. Qed.

End Azimuth.

(** X17: [calculateAngleFromCamera] is the azimuth of the camera in the unit
    of [rotatePoint], in exact arithmetic.  For a finite camera position the
    result is finite and lies between -100 and 100, it does not depend on
    [position.y], and
    [rotatePoint] with it turns about the y axis by exactly
    [atan2(camX, camZ)]: when the camera is off the y axis the rotated point
    is [((x camZ + z camX) / r, y, (z camZ - x camX) / r)], [r] being the
    distance of the camera from the y axis; a camera on the y axis gives the
    angle 0. *)
Theorem calculateAngleFromCamera_azimuth (camX camZ : R) (camY : Exact.xreal) :
  exists a : R,
    calculateAngleFromCamera (mkPoint (Exact.Fin camX) camY (Exact.Fin camZ)) =
      Exact.Fin a /\
    (-100 <= a <= 100)%R /\
    (a / 100 * PI = ExactAtan2.Ratan2 camX camZ)%R /\
    ((camX * camX + camZ * camZ <> 0)%R ->
     forall x y z : R,
       rotatePoint (mkPoint (Exact.Fin x) (Exact.Fin y) (Exact.Fin z))
                   (Exact.Fin 0) (Exact.Fin a) =
       mkPoint
         (Exact.Fin ((x * camZ + z * camX)
                     / R_sqrt.sqrt (camX * camX + camZ * camZ)))
         (Exact.Fin y)
         (Exact.Fin ((z * camZ - x * camX)
                     / R_sqrt.sqrt (camX * camX + camZ * camZ)))) /\
    (camX = 0%R -> camZ = 0%R -> a = 0%R).
Proof.
  exists (ExactAtan2.Ratan2 camX camZ * (100 / PI))%R.
  pose proof PI_RGT_0 as Hpi.
  pose proof (Ratan2_range camX camZ) as Hr.
  split; [apply calculateAngleFromCamera_exact|].
  split; [|split; [apply azimuth_radians|split]].
  - assert (H100 : (0 < 100 / PI)%R) by (apply Rdiv_lt_0_compat; lra).
    assert (Hone : (PI * (100 / PI) = 100)%R) by (field; lra).
    split; nra.
  - intros Hs x y z. rewrite rotatePoint_exact, azimuth_radians, zero_angle.
    destruct (Ratan2_sin_cos Hs) as [-> ->]. rewrite sin_0, cos_0.
    assert (HL : (0 < R_sqrt.sqrt (camX * camX + camZ * camZ))%R)
      by (apply sqrt_lt_R0; nra).
    f_equal; f_equal; field; lra.
  - intros -> ->. unfold ExactAtan2.Ratan2, Exact.Rltb.
    destruct (Rlt_dec 0 0); [lra|]. lra.
Qed.

(** ** [draw]: what reaches the canvas *)

Section CanvasVertices.
Import Exact ExactFacts.
Local Open Scope js_scope.

(** [projectPoint] on finite numbers with a non-zero scale. *)
Lemma projectPoint_exact (sd : ShapeDeformer xreal) (light : Point xreal)
    (w h x y z depth : R) :
  (1 + z * (depth / 1000) <> 0)%R ->
  projectPoint (mkRenderer (mkCanvas (Fin w) (Fin h)) sd light)
    (mkPoint (Fin x) (Fin y) (Fin z)) (Fin depth) =
  mkPoint (Fin (w / 2 + x / (1 + z * (depth / 1000))))
          (Fin (h / 2 + y / (1 + z * (depth / 1000)))) (Fin z).
Proof.
  intros Hs.
  assert (H2 : (2 <> 0)%R) by lra.
  assert (H1000 : (1000 <> 0)%R) by lra.
  unfold projectPoint. cbn.
  rewrite (Reqb_false H2), (Reqb_false H1000). cbn.
  rewrite (Reqb_false Hs). reflexivity.
Qed.

(** A point within [bound] of the origin has a positive scale when
    [bound * |depth| < 1000]. *)
Lemma scale_positive (x y z depth bound : R) :
  (0 <= bound)%R -> (x * x + y * y + z * z <= bound * bound)%R ->
  (bound * Rabs depth < 1000)%R ->
  (0 < 1 + z * (depth / 1000))%R.
Proof.
  intros HB Hn Hd.
  assert (Hz : (Rabs z <= bound)%R).
  { apply Rabs_le. split; nra. }
  assert (Hzd : (Rabs (z * depth) < 1000)%R).
  { rewrite Rabs_mult. pose proof (Rabs_pos z). pose proof (Rabs_pos depth).
    nra. }
  apply Rabs_def2 in Hzd. destruct Hzd as [_ Hlow]. lra.
Qed.

Variable this : Renderer xreal.
Variables w h R0 rx cam depth : R.
Hypothesis Hcanvas : canvas this = mkCanvas (Fin w) (Fin h).
Hypothesis Hradius : baseRadius (shapeDeformer this) = Fin R0.
Hypothesis Hmodes : forallb finiteMode (modes (shapeDeformer this)) = true.
Hypothesis Hdepth :
  ((Rabs R0 + amplitudeBudget (modes (shapeDeformer this))) * Rabs depth
   < 1000)%R.

(** The projection of a rotated point of the grid. *)
Lemma grid_point_projected (nT nP : Z) (a : Point xreal) :
  (1 <= nT)%Z -> (1 <= nP)%Z ->
  In a (concat (createDeformedSphere (shapeDeformer this) nT nP)) ->
  projectedWithin w h depth
    (Rabs R0 + amplitudeBudget (modes (shapeDeformer this)))
    (projectPoint this (rotatePoint a (Fin rx) (Fin cam)) (Fin depth)).
Proof.
  intros HT HP Ha.
  destruct (@createDeformedSphere_within (shapeDeformer this) nT nP R0
              HT HP Hradius Hmodes a Ha) as [x [y [z [-> [Hn _]]]]].
  destruct (rotatePoint_norm x y z rx cam) as [x' [y' [z' [-> Hr]]]].
  pose proof (amplitudeBudget_nonneg (modes (shapeDeformer this))) as HA.
  pose proof (Rabs_pos R0) as HR.
  set (B := (Rabs R0 + amplitudeBudget (modes (shapeDeformer this)))%R) in *.
  assert (HB : (0 <= B)%R) by (unfold B; lra).
  assert (Hn' : (x' * x' + y' * y' + z' * z' <= B * B)%R) by lra.
  pose proof (@scale_positive x' y' z' depth B HB Hn' Hdepth) as Hs.
  exists x', y', z'. split; [exact Hn'|]. split; [exact Hs|].
  destruct this as [cv sd light]. cbn [canvas] in Hcanvas. subst cv.
  apply projectPoint_exact. lra.
Qed.

End CanvasVertices.

(** X18: in exact arithmetic no vertex that [draw] hands to the canvas is
    infinite or NaN as long as the surface stays in front of the vanishing
    plane.  For a finite canvas, base radius [R], mode parameters, angles
    and depth, positive resolutions, and [(|R| + A) |depth| < 1000], [A]
    being the sum of the sizes of the amplitudes, every corner of every
    painted triangle is the projection [(w/2 + x/scale, h/2 + y/scale, z)]
    of a finite point within [|R| + A] of the origin, with
    [scale = 1 + z depth / 1000 > 0]. *)
Theorem draw_paints_finite_vertices
    (this : Renderer Exact.xreal) (w h R0 rx cam depth : R) (nT nP : Z) :
  canvas this = mkCanvas (Exact.Fin w) (Exact.Fin h) ->
  baseRadius (shapeDeformer this) = Exact.Fin R0 ->
  forallb finiteMode (modes (shapeDeformer this)) = true ->
  (1 <= nT)%Z -> (1 <= nP)%Z ->
  ((Rabs R0 + amplitudeBudget (modes (shapeDeformer this))) * Rabs depth
   < 1000)%R ->
  exists painted,
    draw this (Exact.Fin rx) (Exact.Fin cam) (Exact.Fin depth) nT nP
      = Some painted /\
    forall t, In t painted ->
      exists q1 q2 q3 : Point Exact.xreal,
        points t = (q1, q2, q3) /\
        projectedWithin w h depth
          (Rabs R0 + amplitudeBudget (modes (shapeDeformer this))) q1 /\
        projectedWithin w h depth
          (Rabs R0 + amplitudeBudget (modes (shapeDeformer this))) q2 /\
        projectedWithin w h depth
          (Rabs R0 + amplitudeBudget (modes (shapeDeformer this))) q3.
Proof.
  intros Hcanvas Hradius Hmodes HT HP Hdepth.
  rewrite draw_paints_survivors. eexists. split; [reflexivity|].
  intros t Ht.
  apply (Permutation_in _ (sortBy_perm compareAvgZ _)) in Ht.
  destruct (@survivor_mean this (Exact.Fin rx) (Exact.Fin cam)
              (Exact.Fin depth) _ t Ht)
    as [a [b [c [z1 [z2 [z3 [Ha [Hb [Hc [Hp _]]]]]]]]]].
  do 3 eexists. split; [exact Hp|].
  split; [|split];
    apply (@grid_point_projected this w h R0 rx cam depth
             Hcanvas Hradius Hmodes Hdepth nT nP); assumption.
Qed.

Lemma draw_paints_finite_vertices_witness :
  exists painted,
    draw exactRenderer (Exact.Fin 0) (Exact.Fin 0) (Exact.Fin 4) 4 2
      = Some painted /\
    forall t, In t painted ->
      exists q1 q2 q3 : Point Exact.xreal,
        points t = (q1, q2, q3) /\
        projectedWithin 800 600 4
          (Rabs 200 + amplitudeBudget (modes (shapeDeformer exactRenderer))) q1 /\
        projectedWithin 800 600 4
          (Rabs 200 + amplitudeBudget (modes (shapeDeformer exactRenderer))) q2 /\
        projectedWithin 800 600 4
          (Rabs 200 + amplitudeBudget (modes (shapeDeformer exactRenderer))) q3.
Proof.
  apply (@draw_paints_finite_vertices exactRenderer 800 600 200 0 0 4 4 2
           eq_refl eq_refl exactSphere200_finiteMode ltac:(lia) ltac:(lia)).
  assert (HA : amplitudeBudget (modes (shapeDeformer exactRenderer)) = 0%R).
  { cbn. rewrite !Rabs_R0. lra. }
  rewrite HA, (Rabs_right 200), (Rabs_right 4) by lra. lra.
Defined.
